(** * Graph containers and traversals of graph-algorithms

    A shallow embedding of [graph.h] (the [int]-keyed set graph and the
    templated adjacency-list graph with its [@todo] modifiers) and of
    [graph_algorithms.h] ([breadth_first_search], [depth_first_search],
    [dfs_visit]), followed by the properties of the specification that
    concern them. *)

From Stdlib Require Import ZArith NArith List Lia.
From stdpp Require Import base numbers option list relations gmap fin_maps fin_sets.

Open Scope Z_scope.

(** ** Outcomes of member functions

    A member function either returns normally or reports one of the errors
    of the specification's taxonomy.  A member function is a state
    transformer over the object it is called on. *)

Inductive graph_error : Set :=
  | InvalidVertex
  | VertexNotFound
  | EdgeNotFound.

Inductive outcome (A : Type) : Type :=
  | Returned (a : A)
  | Failed (e : graph_error).
Arguments Returned {A} a.
Arguments Failed {A} e.

Definition method (S A : Type) : Type := S → outcome (A * S).

Global Instance method_ret {S : Type} : MRet (method S) :=
  λ A a s, Returned (a, s).

Global Instance method_bind {S : Type} : MBind (method S) :=
  λ A B k m s, match m s with
               | Returned (a, s') => k a s'
               | Failed e => Failed e
               end.

Definition get {S : Type} : method S S := λ s, Returned (s, s).
Definition put {S : Type} (s : S) : method S unit := λ _, Returned (tt, s).

(** The value a call returns, and the state it leaves. *)
Definition result_of {S A : Type} (o : outcome (A * S)) : outcome A :=
  match o with Returned (a, _) => Returned a | Failed e => Failed e end.
Definition state_of {S A : Type} (o : outcome (A * S)) : outcome S :=
  match o with Returned (_, s) => Returned s | Failed e => Failed e end.

(** ** The set graph of graph.h (lines 19-80)

    [unordered_set<int> vertices] and [unordered_set<pair<int,int>> edges].
    The [int] keys are only stored and compared, never computed with, so
    they are modelled as [Z]. *)

Module IntGraph.

Record graph : Type := mk_graph {
  vertices : gset Z;
  edges : gset (Z * Z)
}.

Definition empty : graph := {| vertices := ∅; edges := ∅ |}.

(** [vertices.insert(v)] *)
Definition insertVertex (v : Z) : method graph unit :=
  g ← get;
  put {| vertices := {[v]} ∪ vertices g; edges := edges g |}.

(** The test of the erasing loop: [it->first == v || it->second == v]. *)
Definition touches (v : Z) (e : Z * Z) : Prop := e.1 = v ∨ e.2 = v.

Global Instance touches_dec v e : Decision (touches v e).
Proof. unfold touches. apply _. Defined.

(** [vertices.erase(v)], then the loop erasing every edge that touches v. *)
Definition eraseVertex (v : Z) : method graph unit :=
  g ← get;
  put {| vertices := vertices g ∖ {[v]};
         edges := filter (λ e, ¬ touches v e) (edges g) |}.

(** [edges.insert(make_pair(v1, v2)); edges.insert(make_pair(v2, v1))] *)
Definition insertEdge (v1 v2 : Z) : method graph unit :=
  g ← get;
  put {| vertices := vertices g;
         edges := {[(v2, v1)]} ∪ ({[(v1, v2)]} ∪ edges g) |}.

(** [edges.erase(make_pair(v1, v2)); edges.erase(make_pair(v2, v1))] *)
Definition eraseEdge (v1 v2 : Z) : method graph unit :=
  g ← get;
  put {| vertices := vertices g;
         edges := (edges g ∖ {[(v1, v2)]}) ∖ {[(v2, v1)]} |}.

(** A call of one of the four modifiers. *)
Inductive op : Set :=
  | InsertVertex (v : Z)
  | EraseVertex (v : Z)
  | InsertEdge (v1 v2 : Z)
  | EraseEdge (v1 v2 : Z).

Definition run_op (o : op) : method graph unit :=
  match o with
  | InsertVertex v => insertVertex v
  | EraseVertex v => eraseVertex v
  | InsertEdge v1 v2 => insertEdge v1 v2
  | EraseEdge v1 v2 => eraseEdge v1 v2
  end.

Fixpoint run_ops (os : list op) : method graph unit :=
  match os with
  | [] => mret tt
  | o :: os' => run_op o;; run_ops os'
  end.

Definition symmetric (g : graph) : Prop :=
  ∀ u v, (u, v) ∈ edges g ↔ (v, u) ∈ edges g.

End IntGraph.

(** ** The templated adjacency-list graph

    [graph] (graph.h, from line 98) and [graph_vector] share one interface
    and one body for every member modelled here; they differ in the
    containers ([unordered_set] keyed by descriptor against [vector]).  A
    container is modelled by the list of its elements in iteration order.
    [size_t] descriptors are stored, compared and, by the searches,
    converted to the mapped type of a parent map: they are [N]. *)

Section Graph.

Context {VertexProperty EdgeProperty : Type}.

Definition vertex_descriptor : Set := N.
Definition edge_descriptor : Set := (N * N)%type.

Record edge : Type := mk_edge {
  m_source : N;
  m_target : N;
  m_eproperty : EdgeProperty
}.

Record vertex : Type := mk_vertex {
  m_descriptor : N;
  m_vproperty : VertexProperty;
  m_out_edges : list edge
}.

Record graph : Type := mk_graph {
  m_max_vd : N;
  m_vertices : list vertex;
  m_edges : list edge
}.

(** [edge::descriptor()] *)
Definition descriptor (e : edge) : N * N := (m_source e, m_target e).

(** [graph() : m_max_vd(0) {}] *)
Definition new_graph : graph :=
  {| m_max_vd := 0%N; m_vertices := []; m_edges := [] |}.

Definition num_vertices (g : graph) : nat := length (m_vertices g).
Definition num_edges (g : graph) : nat := length (m_edges g).

(** [find_vertex] and [find_edge]: the element found, [None] for [end()]. *)
Definition find_vertex (vd : N) (g : graph) : option vertex :=
  find (λ v, bool_decide (m_descriptor v = vd)) (m_vertices g).

Definition find_edge (ed : N * N) (g : graph) : option edge :=
  find (λ e, bool_decide (descriptor e = ed)) (m_edges g).

(** The modifiers between [@todo] and [end of @todo]. *)
Definition insert_vertex (vp : VertexProperty) : method graph N :=
  g ← get; mret (m_max_vd g).

Definition insert_edge (sd td : N) (ep : EdgeProperty) : method graph (N * N) :=
  mret (sd, td).

Definition insert_edge_undirected (sd td : N) (ep : EdgeProperty) : method graph unit :=
  mret tt.

Definition erase_vertex (vd : N) : method graph unit :=
  mret tt.

Definition erase_edge (ed : N * N) : method graph unit :=
  mret tt.

(** [clear()] *)
Definition clear : method graph unit :=
  put {| m_max_vd := 0%N; m_vertices := []; m_edges := [] |}.

(** A vertex is live when the graph stores it. *)
Definition live (g : graph) (vd : N) : Prop :=
  vd ∈ m_descriptor <$> m_vertices g.

Global Instance live_dec g vd : Decision (live g vd).
Proof. unfold live. apply _. Defined.

(** *** Traversals (graph_algorithms.h) *)

(** The local state of a search: the parent map and the two sets of
    unexplored descriptors.  [ParentMap] is a template parameter; by the
    comment that heads graph_algorithms.h it maps a descriptor to the
    descriptor of the parent, so its mapped type is [size_t], an unsigned
    integer of 64 bits.  The searches assign to it the int -1, which is
    converted to SIZE_MAX, and descriptors; a signed mapped type of 64 bits
    holds -1 and converts the descriptor SIZE_MAX to it.  Either way the
    sentinel and the descriptor SIZE_MAX are one value of the mapped type.
    A value of the mapped type is written in [Z] as the code writes it: -1
    for the sentinel, the descriptor itself for any other value. *)
Record search_state : Type := mk_state {
  parent : gmap N Z;
  edges_unexplored : gset (N * N);
  vertices_unexplored : gset N
}.

(** [vertices_unexplored.emplace(vd); p[vd] = -1;] *)
Definition init_vertex (st : search_state) (v : vertex) : search_state :=
  let vd := m_descriptor v in
  {| parent := <[vd := -1]> (parent st);
     edges_unexplored := edges_unexplored st;
     vertices_unexplored := {[vd]} ∪ vertices_unexplored st |}.

(** [edges_unexplored.emplace] of the descriptor of one edge. *)
Definition init_edge (st : search_state) (e : edge) : search_state :=
  {| parent := parent st;
     edges_unexplored := {[descriptor e]} ∪ edges_unexplored st;
     vertices_unexplored := vertices_unexplored st |}.

(** [p.clear()] and the two initialising loops. *)
Definition initialize (g : graph) : search_state :=
  fold_left init_edge (m_edges g)
    (fold_left init_vertex (m_vertices g)
       {| parent := ∅; edges_unexplored := ∅; vertices_unexplored := ∅ |}).

(** [vertices_unexplored.erase(vd)] *)
Definition mark_vertex (vd : N) (st : search_state) : search_state :=
  {| parent := parent st;
     edges_unexplored := edges_unexplored st;
     vertices_unexplored := vertices_unexplored st ∖ {[vd]} |}.

(** [edges_unexplored.erase(el)] *)
Definition mark_edge (ed : N * N) (st : search_state) : search_state :=
  {| parent := parent st;
     edges_unexplored := edges_unexplored st ∖ {[ed]};
     vertices_unexplored := vertices_unexplored st |}.

(** The largest value of [size_t]. *)
Definition SIZE_MAX : N := 18446744073709551615%N.

(** The conversion of a descriptor to the mapped type of the parent map:
    the descriptor SIZE_MAX becomes the value of the sentinel. *)
Definition to_parent (u : N) : Z :=
  if decide (u = SIZE_MAX) then -1 else Z.of_N u.

(** [p[t] = u] *)
Definition set_parent (t u : N) (st : search_state) : search_state :=
  {| parent := <[t := to_parent u]> (parent st);
     edges_unexplored := edges_unexplored st;
     vertices_unexplored := vertices_unexplored st |}.

(** The body of the adjacency loop of [breadth_first_search], for the
    dequeued vertex [v] and one of its outgoing edges. *)
Definition bfs_edge (v : vertex) (qs : list N * search_state) (e : edge)
  : list N * search_state :=
  if decide (descriptor e ∈ edges_unexplored qs.2) then
    let t := m_target e in
    if decide (t ∈ vertices_unexplored qs.2) then
      (qs.1 ++ [t],
       mark_vertex t (set_parent t (m_descriptor v) (mark_edge (descriptor e) qs.2)))
    else qs
  else qs.

(** [while (!q.empty())].  Every iteration pops one vertex; [fuel] bounds
    the number of iterations, and [None] stands for running out of it or
    for dereferencing [end()] after a failed [find_vertex]. *)
Fixpoint bfs_while (fuel : nat) (g : graph) (qs : list N * search_state)
  {struct fuel} : option search_state :=
  match qs.1 with
  | [] => Some qs.2
  | vd :: q' =>
      match fuel with
      | O => None
      | S fuel' =>
          match find_vertex vd g with
          | None => None
          | Some v =>
              bfs_while fuel' g (fold_left (bfs_edge v) (m_out_edges v) (q', qs.2))
          end
      end
  end.

(** One round of the loop [for each CC] of [breadth_first_search]. *)
Definition bfs_component (fuel : nat) (g : graph) (ost : option search_state)
  (v : vertex) : option search_state :=
  st ← ost;
  let vd := m_descriptor v in
  if decide (vd ∈ vertices_unexplored st) then
    bfs_while fuel g ([vd], mark_vertex vd st)
  else Some st.

(** The state of the locals when [breadth_first_search] returns. *)
Definition bfs_run (g : graph) : option search_state :=
  fold_left (bfs_component (length (m_vertices g)) g) (m_vertices g)
    (Some (initialize g)).

(** [breadth_first_search(g, p)]: the parent map left in [p]. *)
Definition breadth_first_search (g : graph) (p : gmap N Z) : option (gmap N Z) :=
  parent <$> bfs_run g.

(** The body of the adjacency loop of [dfs_visit] for one outgoing edge,
    given the recursive call [visit]. *)
Definition dfs_edge (visit : N → search_state → option search_state) (u : N)
  (ost : option search_state) (e : edge) : option search_state :=
  st ← ost;
  if decide (descriptor e ∈ edges_unexplored st) then
    let st1 := mark_edge (descriptor e) st in
    let t := m_target e in
    if decide (t ∈ vertices_unexplored st1) then
      visit t (set_parent t u st1)
    else Some st1
  else Some st.

(** [dfs_visit]; [fuel] bounds the depth of the recursion. *)
Fixpoint dfs_visit (fuel : nat) (g : graph) (u : N) (st : search_state)
  {struct fuel} : option search_state :=
  match fuel with
  | O => None
  | S fuel' =>
      match find_vertex u g with
      | None => None
      | Some v =>
          fold_left (dfs_edge (dfs_visit fuel' g) u) (m_out_edges v)
            (Some (mark_vertex u st))
      end
  end.

(** One round of the loop [for each CC] of [depth_first_search]. *)
Definition dfs_component (fuel : nat) (g : graph) (ost : option search_state)
  (v : vertex) : option search_state :=
  st ← ost;
  let vd := m_descriptor v in
  if decide (vd ∈ vertices_unexplored st) then dfs_visit fuel g vd st
  else Some st.

Definition dfs_run (g : graph) : option search_state :=
  fold_left (dfs_component (S (length (m_vertices g))) g) (m_vertices g)
    (Some (initialize g)).

(** [depth_first_search(g, p)]: the parent map left in [p]. *)
Definition depth_first_search (g : graph) (p : gmap N Z) : option (gmap N Z) :=
  parent <$> dfs_run g.

(** *** The search forest

    The same two templates at a parent map whose mapped type is wide enough
    to hold the sentinel and every descriptor apart, as an integer of 128
    bits is: there [p[t] = u] stores [u] itself.  The searches write the
    parent map and never read it, so the locals take the same values at
    both mapped types but for the parent map, and the parent map at the
    mapped type of 64 bits is the image of the wide one under the conversion
    ([stored], below).  The wide map is the forest the search builds. *)

(** [p[t] = u] *)
Definition set_parent_wide (t u : N) (st : search_state) : search_state :=
  {| parent := <[t := Z.of_N u]> (parent st);
     edges_unexplored := edges_unexplored st;
     vertices_unexplored := vertices_unexplored st |}.

Definition bfs_edge_wide (v : vertex) (qs : list N * search_state) (e : edge)
  : list N * search_state :=
  if decide (descriptor e ∈ edges_unexplored qs.2) then
    let t := m_target e in
    if decide (t ∈ vertices_unexplored qs.2) then
      (qs.1 ++ [t],
       mark_vertex t (set_parent_wide t (m_descriptor v) (mark_edge (descriptor e) qs.2)))
    else qs
  else qs.

Fixpoint bfs_while_wide (fuel : nat) (g : graph) (qs : list N * search_state)
  {struct fuel} : option search_state :=
  match qs.1 with
  | [] => Some qs.2
  | vd :: q' =>
      match fuel with
      | O => None
      | S fuel' =>
          match find_vertex vd g with
          | None => None
          | Some v =>
              bfs_while_wide fuel' g
                (fold_left (bfs_edge_wide v) (m_out_edges v) (q', qs.2))
          end
      end
  end.

Definition bfs_component_wide (fuel : nat) (g : graph) (ost : option search_state)
  (v : vertex) : option search_state :=
  st ← ost;
  let vd := m_descriptor v in
  if decide (vd ∈ vertices_unexplored st) then
    bfs_while_wide fuel g ([vd], mark_vertex vd st)
  else Some st.

Definition bfs_run_wide (g : graph) : option search_state :=
  fold_left (bfs_component_wide (length (m_vertices g)) g) (m_vertices g)
    (Some (initialize g)).

Definition dfs_edge_wide (visit : N → search_state → option search_state) (u : N)
  (ost : option search_state) (e : edge) : option search_state :=
  st ← ost;
  if decide (descriptor e ∈ edges_unexplored st) then
    let st1 := mark_edge (descriptor e) st in
    let t := m_target e in
    if decide (t ∈ vertices_unexplored st1) then
      visit t (set_parent_wide t u st1)
    else Some st1
  else Some st.

Fixpoint dfs_visit_wide (fuel : nat) (g : graph) (u : N) (st : search_state)
  {struct fuel} : option search_state :=
  match fuel with
  | O => None
  | S fuel' =>
      match find_vertex u g with
      | None => None
      | Some v =>
          fold_left (dfs_edge_wide (dfs_visit_wide fuel' g) u) (m_out_edges v)
            (Some (mark_vertex u st))
      end
  end.

Definition dfs_component_wide (fuel : nat) (g : graph) (ost : option search_state)
  (v : vertex) : option search_state :=
  st ← ost;
  let vd := m_descriptor v in
  if decide (vd ∈ vertices_unexplored st) then dfs_visit_wide fuel g vd st
  else Some st.

Definition dfs_run_wide (g : graph) : option search_state :=
  fold_left (dfs_component_wide (S (length (m_vertices g))) g) (m_vertices g)
    (Some (initialize g)).

(** The value that the mapped type of 64 bits holds for the value [z] of
    the wide one, and the locals of a search with such a parent map. *)
Definition stored (z : Z) : Z :=
  if decide (z = Z.of_N SIZE_MAX) then -1 else z.

Definition stored_state (st : search_state) : search_state :=
  {| parent := stored <$> parent st;
     edges_unexplored := edges_unexplored st;
     vertices_unexplored := vertices_unexplored st |}.

End Graph.

Arguments edge : clear implicits.
Arguments vertex : clear implicits.
Arguments graph : clear implicits.

(** The graph of the concrete scenario: vertices 0..3, the undirected edges
    (0,1) and (1,2) as two directed entries each, vertex 3 isolated. *)
Definition e01 : edge unit := mk_edge 0 1 tt.
Definition e10 : edge unit := mk_edge 1 0 tt.
Definition e12 : edge unit := mk_edge 1 2 tt.
Definition e21 : edge unit := mk_edge 2 1 tt.

Definition scenario : graph unit unit :=
  {| m_max_vd := 4;
     m_vertices := [ mk_vertex 0 tt [e01]; mk_vertex 1 tt [e10; e12];
                     mk_vertex 2 tt [e21]; mk_vertex 3 tt [] ];
     m_edges := [e01; e10; e12; e21] |}.

(** *** Connectivity and the invariants of the data model *)

Section Connectivity.

Context {VP EP : Type}.
Implicit Types (g : graph VP EP).

(** The graph has an edge with descriptor (u, t). *)
Definition has_edge g (u t : N) : Prop :=
  (u, t) ∈ descriptor <$> m_edges g.

Definition reachable g : relation N := rtc (has_edge g).

(** Two vertices are connected when each is reachable from the other; a
    connected component is a class of this relation. *)
Definition connected g (u v : N) : Prop :=
  reachable g u v ∧ reachable g v u.

(** Connectivity when the direction of the edges is ignored. *)
Definition weakly_connected g : relation N := rtsc (has_edge g).

(** [reps] holds one live vertex of every class of [R] on the live
    vertices, and no two of the same class. *)
Definition representatives g (R : relation N) (reps : list N) : Prop :=
  NoDup reps
  ∧ (∀ r, r ∈ reps → live g r)
  ∧ (∀ v, live g v → ∃ r, r ∈ reps ∧ R r v)
  ∧ (∀ r1 r2, r1 ∈ reps → r2 ∈ reps → R r1 r2 → r1 = r2).

(** The graph has K connected components. *)
Definition has_components g (K : nat) : Prop :=
  ∃ reps, representatives g (connected g) reps ∧ length reps = K.

(** The invariants of the data model: no two vertices share a descriptor;
    the adjacency list of a vertex holds exactly the edges of the graph it
    is the source of; the target of every edge is live. *)
Definition well_formed g : Prop :=
  NoDup (m_descriptor <$> m_vertices g)
  ∧ Forall (λ v, Forall (λ e, m_source e = m_descriptor v
                              ∧ descriptor e ∈ descriptor <$> m_edges g)
                   (m_out_edges v)) (m_vertices g)
  ∧ Forall (λ e, Exists (λ v, m_descriptor v = m_source e
                              ∧ descriptor e ∈ descriptor <$> m_out_edges v)
                   (m_vertices g)
                 ∧ m_target e ∈ m_descriptor <$> m_vertices g) (m_edges g).

Global Instance well_formed_dec g : Decision (well_formed g).
Proof. unfold well_formed. apply _. Defined.

(** Every edge has its mirror: the graph stores undirected edges. *)
Definition symmetric_edges g : Prop :=
  Forall (λ e, (m_target e, m_source e) ∈ descriptor <$> m_edges g) (m_edges g).

Global Instance symmetric_edges_dec g : Decision (symmetric_edges g).
Proof. unfold symmetric_edges. apply _. Defined.

(** Every descriptor of the graph is below SIZE_MAX, the value that the
    sentinel takes in the mapped type of the parent map. *)
Definition below_sentinel g : Prop :=
  Forall (λ v, (m_descriptor v < SIZE_MAX)%N) (m_vertices g).

Global Instance below_sentinel_dec g : Decision (below_sentinel g).
Proof. unfold below_sentinel. apply _. Defined.

(** Every live vertex is connected to exactly one vertex whose entry in
    the parent map is the sentinel: the root of its component. *)
Definition one_root_per_component g (p : gmap N Z) : Prop :=
  ∀ v, live g v →
    ∃ r, p !! r = Some (-1) ∧ connected g r v
         ∧ ∀ r', p !! r' = Some (-1) → connected g r' v → r' = r.

End Connectivity.

(** The modifiers of the templated graph, as calls. *)
Inductive modifier (VP EP : Type) : Type :=
  | Insert_vertex (vp : VP)
  | Insert_edge (sd td : N) (ep : EP)
  | Insert_edge_undirected (sd td : N) (ep : EP)
  | Erase_vertex (vd : N)
  | Erase_edge (ed : N * N).
Arguments Insert_vertex {VP EP} vp.
Arguments Insert_edge {VP EP} sd td ep.
Arguments Insert_edge_undirected {VP EP} sd td ep.
Arguments Erase_vertex {VP EP} vd.
Arguments Erase_edge {VP EP} ed.

(** The graph a modifier call leaves. *)
Definition run_modifier {VP EP : Type} (m : modifier VP EP) (g : graph VP EP)
  : outcome (graph VP EP) :=
  match m with
  | Insert_vertex vp => state_of (insert_vertex vp g)
  | Insert_edge sd td ep => state_of (insert_edge sd td ep g)
  | Insert_edge_undirected sd td ep => state_of (insert_edge_undirected sd td ep g)
  | Erase_vertex vd => state_of (erase_vertex vd g)
  | Erase_edge ed => state_of (erase_edge ed g)
  end.

(** The root a vertex hangs from in a parent map: follow the parents up to
    the sentinel. *)
Fixpoint root_of (fuel : nat) (p : gmap N Z) (v : N) : option N :=
  match fuel with
  | O => None
  | S fuel' =>
      match p !! v with
      | None => None
      | Some z => if decide (z = -1) then Some v else root_of fuel' p (Z.to_N z)
      end
  end.

(** The entries of a parent map that hold the sentinel. *)
Definition sentinel_entries (p : gmap N Z) : gmap N Z :=
  filter (λ kv, kv.2 = -1) p.

Definition num_sentinel (p : gmap N Z) : nat := size (sentinel_entries p).

(** *** Invariants of the searches *)

Section Invariants.

Context {VP EP : Type}.
Variable g : graph VP EP.
Implicit Types (st : search_state).

(** Only live vertices are unexplored, and the parent map has an entry
    for exactly the live vertices. *)
Record inv st : Prop := mk_inv {
  inv_unexplored : ∀ v, v ∈ vertices_unexplored st → live g v;
  inv_dom : ∀ v, is_Some (parent st !! v) ↔ live g v
}.

(** The queue holds live vertices only. *)
Definition bfs_ok (qs : list N * search_state) : Prop :=
  inv qs.2 ∧ ∀ x, x ∈ qs.1 → live g x.

(** What bounds the remaining iterations of the loop on the queue. *)
Definition bfs_measure (qs : list N * search_state) : nat :=
  (length qs.1 + size (vertices_unexplored qs.2))%nat.

(** Every out-neighbour of [u] is explored. *)
Definition closed st (u : N) : Prop :=
  ∀ t, has_edge g u t → t ∉ vertices_unexplored st.

(** The invariant of the search forest: unexplored vertices still hold
    the sentinel; an edge is unexplored or its target is explored; every
    explored vertex is reachable from an explored vertex that holds the
    sentinel; no such root is reachable from another. *)
Record forest_inv st : Prop := mk_forest_inv {
  fi_sentinel : ∀ v, v ∈ vertices_unexplored st → parent st !! v = Some (-1);
  fi_edges : ∀ u t, has_edge g u t →
             (u, t) ∈ edges_unexplored st ∨ t ∉ vertices_unexplored st;
  fi_rooted : ∀ v, live g v → v ∉ vertices_unexplored st →
              ∃ r, parent st !! r = Some (-1)
                   ∧ (r ∉ vertices_unexplored st) ∧ reachable g r v;
  fi_apart : ∀ r1 r2,
             parent st !! r1 = Some (-1) → r1 ∉ vertices_unexplored st →
             parent st !! r2 = Some (-1) → r2 ∉ vertices_unexplored st →
             reachable g r1 r2 → r1 = r2
}.

(** What holds between the searches of two components. *)
Record outer_inv st : Prop := mk_outer_inv {
  oi_inv : inv st;
  oi_forest : forest_inv st;
  oi_closed : ∀ w, live g w → w ∉ vertices_unexplored st → closed st w
}.

(** The invariant of the loops of [breadth_first_search]: the queue
    holds explored vertices, and every explored vertex is in the queue,
    is the vertex [cur] whose adjacency list is being walked, or is
    closed. *)
Record bfs_inv (cur : option N) (qs : list N * search_state) : Prop := mk_bfs_inv {
  bi_inv : inv qs.2;
  bi_forest : forest_inv qs.2;
  bi_queue : ∀ w, w ∈ qs.1 → live g w ∧ w ∉ vertices_unexplored qs.2;
  bi_closed : ∀ w, live g w → w ∉ vertices_unexplored qs.2 →
              w ∈ qs.1 ∨ cur = Some w ∨ closed qs.2 w
}.

(** What a visit of [t] from the state [st] leaves: the vertices it
    explored, [t] among them, are closed. *)
Definition visit_spec (visit : N → search_state → option search_state) : Prop :=
  ∀ t st st',
    visit t st = Some st' → live g t →
    inv (mark_vertex t st) → forest_inv (mark_vertex t st) →
    inv st' ∧ forest_inv st'
    ∧ vertices_unexplored st' ⊆ vertices_unexplored st ∖ {[t]}
    ∧ closed st' t
    ∧ ∀ w, w ∈ vertices_unexplored st → w ∉ vertices_unexplored st' → closed st' w.

End Invariants.

(** The vertices whose entry in a parent map is the sentinel. *)
Definition roots (p : gmap N Z) : list N := (map_to_list (sentinel_entries p)).*1.

(** A graph whose first vertex has the descriptor SIZE_MAX: the vertices
    SIZE_MAX and 0, joined by an edge stored in both directions. *)
Definition collision : graph unit unit :=
  {| m_max_vd := 0;
     m_vertices := [ mk_vertex SIZE_MAX tt [mk_edge SIZE_MAX 0 tt];
                     mk_vertex 0 tt [mk_edge 0 SIZE_MAX tt] ];
     m_edges := [mk_edge SIZE_MAX 0 tt; mk_edge 0 SIZE_MAX tt] |}.

(** A graph with one-way edges: 0 -> 1 and 2 -> 1. *)
Definition one_way : graph unit unit :=
  {| m_max_vd := 3;
     m_vertices := [ mk_vertex 0 tt [e01]; mk_vertex 1 tt []; mk_vertex 2 tt [e21] ];
     m_edges := [e01; e21] |}.

(** *** Uses of the set graph *)

Module IntGraphCalls.
Import IntGraph.

(** The graph a modifier call leaves. *)
Definition exec_op (o : op) (g : graph) : graph :=
  match run_op o g with
  | Returned (_, g') => g'
  | Failed _ => g
  end.

(** No edge refers to a vertex that the graph does not hold. *)
Definition no_dangling (g : graph) : Prop :=
  ∀ u v, (u, v) ∈ edges g → u ∈ vertices g ∧ v ∈ vertices g.

(** A call that inserts an edge only between vertices of the graph. *)
Definition guarded (o : op) (g : graph) : Prop :=
  match o with
  | InsertEdge v1 v2 => v1 ∈ vertices g ∧ v2 ∈ vertices g
  | _ => True
  end.

Fixpoint guarded_ops (os : list op) (g : graph) : Prop :=
  match os with
  | [] => True
  | o :: os' => guarded o g ∧ guarded_ops os' (exec_op o g)
  end.

(** The modifier calls of [main], in order. *)
Definition main_ops : list op :=
  [ InsertVertex 1; InsertVertex 2; InsertVertex 3;
    InsertEdge 1 2; InsertEdge 2 3; EraseVertex 2; EraseEdge 1 2 ].

End IntGraphCalls.

(** *** The comparison functors of the templated graph *)

Section Functors.

Context {VP EP : Type}.

(** [vertex_eq]: [u->descriptor() == v->descriptor()] *)
Definition vertex_eq (u v : vertex VP EP) : bool :=
  bool_decide (m_descriptor u = m_descriptor v).

(** [edge_eq]: [e->descriptor() == f->descriptor()] *)
Definition edge_eq (e f : edge EP) : bool :=
  bool_decide (descriptor e = descriptor f).

(** [operator<] of [std::pair<size_t, size_t>]: the first components
    decide, the second ones when the first are equal. *)
Definition pair_lt (a b : N * N) : bool :=
  (a.1 <? b.1)%N || (negb (b.1 <? a.1)%N && (a.2 <? b.2)%N).

(** [edge_comp]: [e->descriptor() < f->descriptor()] *)
Definition edge_comp (e f : edge EP) : bool :=
  pair_lt (descriptor e) (descriptor f).

End Functors.

(** ** The adjacency-vector graph (class [Graph], graph_vector.h lines 164-230)

    [vector<vector<int>> adjList]: row [u] lists the neighbours of vertex
    [u].  The [int] entries are stored, compared and decremented; a
    decrement only applies to an entry greater than another [int], so it
    cannot wrap, and entries are in [Z].  Indexing a row that does not exist
    is undefined behaviour: a member function returns [None] there. *)

Module AdjList.

Definition in_range (g : list (list Z)) (v : Z) : Prop :=
  0 ≤ v < Z.of_nat (length g).

Global Instance in_range_dec g v : Decision (in_range g v).
Proof. unfold in_range. apply _. Defined.

(** [Graph(int numVertices)]: [adjList.resize(numVertices)], which throws
    for a negative argument. *)
Definition Graph (numVertices : Z) : option (list (list Z)) :=
  if decide (0 ≤ numVertices) then Some (replicate (Z.to_nat numVertices) [])
  else None.

(** [adjList.push_back(vector<int>())] *)
Definition addVertex (g : list (list Z)) : option (list (list Z)) :=
  Some (g ++ [[]]).

(** The inner loop of [removeVertex] on one row: the first entry equal to
    [v] is erased and ends the loop; an entry greater than [v] met before
    that is decremented. *)
Fixpoint renumber_row (v : Z) (row : list Z) : list Z :=
  match row with
  | [] => []
  | a :: row' =>
      if decide (a = v) then row'
      else if decide (a > v) then (a - 1) :: renumber_row v row'
      else a :: renumber_row v row'
  end.

(** [adjList.erase(adjList.begin() + v)], then the loop over the rows. *)
Definition removeVertex (v : Z) (g : list (list Z)) : option (list (list Z)) :=
  if decide (in_range g v) then Some (renumber_row v <$> delete (Z.to_nat v) g)
  else None.

(** [adjList[u].push_back(v); adjList[v].push_back(u);] *)
Definition addEdge (u v : Z) (g : list (list Z)) : option (list (list Z)) :=
  if decide (in_range g u ∧ in_range g v) then
    Some (alter (λ row, row ++ [u]) (Z.to_nat v)
            (alter (λ row, row ++ [v]) (Z.to_nat u) g))
  else None.

(** A loop of [removeEdge] on one row: the first entry equal to [v] is
    erased and ends the loop. *)
Fixpoint erase_first (v : Z) (row : list Z) : list Z :=
  match row with
  | [] => []
  | a :: row' => if decide (a = v) then row' else a :: erase_first v row'
  end.

(** The two loops of [removeEdge], on row [u] and then on row [v]. *)
Definition removeEdge (u v : Z) (g : list (list Z)) : option (list (list Z)) :=
  if decide (in_range g u ∧ in_range g v) then
    Some (alter (erase_first u) (Z.to_nat v)
            (alter (erase_first v) (Z.to_nat u) g))
  else None.

(** Row [u] of the graph. *)
Definition row (g : list (list Z)) (u : Z) : list Z :=
  default [] (g !! Z.to_nat u).

(** How many times [v] is listed as a neighbour of [u]. *)
Definition mult (g : list (list Z)) (u v : Z) : nat :=
  count_occ Z.eq_dec (row g u) v.

(** Every listed neighbour is a vertex of the graph. *)
Definition valid (g : list (list Z)) : Prop :=
  ∀ u b, in_range g u → b ∈ row g u → in_range g b.

(** [v] is listed under [u] as often as [u] under [v]. *)
Definition symmetric (g : list (list Z)) : Prop :=
  ∀ u v, in_range g u → in_range g v → mult g u v = mult g v u.

(** A call of a member function that keeps the numbering of the vertices. *)
Inductive op : Set :=
  | AddVertex
  | AddEdge (u v : Z)
  | RemoveEdge (u v : Z).

Definition run_op (o : op) (g : list (list Z)) : option (list (list Z)) :=
  match o with
  | AddVertex => addVertex g
  | AddEdge u v => addEdge u v g
  | RemoveEdge u v => removeEdge u v g
  end.

Fixpoint run_ops (os : list op) (g : list (list Z)) : option (list (list Z)) :=
  match os with
  | [] => Some g
  | o :: os' => g' ← run_op o g; run_ops os' g'
  end.

(** The entry [a] of a row after the removal of vertex [v], when the
    numbering follows the removal. *)
Definition shift (v a : Z) : Z := if decide (a > v) then a - 1 else a.

(** The star with centre 0 and leaves 1 and 2. *)
Definition star : list (list Z) := [[1; 2]; [0]; [0]].

End AdjList.

(** *** Rules for the invariants of the searches *)

Section Rules.

Context {VP EP : Type}.
Variable g : graph VP EP.
Implicit Types (st : search_state).

(** A discovery through the edge (u, t) in the search forest: the edge and
    its target are marked and [u] becomes the parent of [t]. *)
Definition discover (u t : N) st : search_state :=
  mark_vertex t (set_parent_wide t u (mark_edge (u, t) st)).

(** An edge of the graph is unexplored or its target is explored. *)
Definition edge_inv st : Prop :=
  ∀ u t, has_edge g u t → (u, t) ∈ edges_unexplored st ∨ t ∉ vertices_unexplored st.

(** Every edge out of [u] is explored, and so is its target. *)
Definition dfs_closed st (u : N) : Prop :=
  ∀ t, has_edge g u t →
    (t ∉ vertices_unexplored st) ∧ ((u, t) ∉ edges_unexplored st).

(** What holds of the state between the searches of two components. *)
Record outer_ok st : Prop := mk_outer_ok {
  ok_inv : inv g st;
  ok_edges : edge_inv st;
  ok_closed : ∀ w, live g w → w ∉ vertices_unexplored st → closed g st w
}.

(** A property of the state that the steps of a search keep: a discovery
    from an explored vertex, and the marking of an edge whose target is
    explored. *)
Record state_rule (P : search_state → Prop) : Prop := mk_state_rule {
  sr_discover : ∀ st u t,
    P st → inv g st → live g u → u ∉ vertices_unexplored st →
    t ∈ vertices_unexplored st → has_edge g u t → (u, t) ∈ edges_unexplored st →
    P (discover u t st);
  sr_mark : ∀ st u t,
    P st → inv g st → live g u → u ∉ vertices_unexplored st →
    t ∉ vertices_unexplored st → has_edge g u t → (u, t) ∈ edges_unexplored st →
    P (mark_edge (u, t) st)
}.

(** A property of the vertex at hand, the queue and the state that the
    steps of breadth_first_search keep: taking the front of the queue, a
    discovery from the vertex at hand, and the end of the walk of its
    adjacency list. *)
Record bfs_rule (P : option N → list N → search_state → Prop) : Prop := mk_bfs_rule {
  br_dequeue : ∀ st u q,
    P None (u :: q) st → inv g st → live g u → u ∉ vertices_unexplored st →
    P (Some u) q st;
  br_discover : ∀ st u q t,
    P (Some u) q st → inv g st → live g u → u ∉ vertices_unexplored st →
    t ∈ vertices_unexplored st → has_edge g u t → (u, t) ∈ edges_unexplored st →
    P (Some u) (q ++ [t]) (discover u t st);
  br_done : ∀ st u q,
    P (Some u) q st → inv g st → live g u → closed g st u →
    P None q st
}.

(** The invariant of the loops of breadth_first_search that carries a
    property [P] along. *)
Record bfs_conf (P : option N → list N → search_state → Prop)
    (cur : option N) (qs : list N * search_state) : Prop := mk_bfs_conf {
  bc_inv : inv g qs.2;
  bc_edges : edge_inv qs.2;
  bc_queue : ∀ w, w ∈ qs.1 → live g w ∧ w ∉ vertices_unexplored qs.2;
  bc_closed : ∀ w, live g w → w ∉ vertices_unexplored qs.2 →
              w ∈ qs.1 ∨ cur = Some w ∨ closed g qs.2 w;
  bc_prop : P cur qs.1 qs.2
}.

(** What a visit of depth_first_search leaves, with a property [P] carried
    along. *)
Definition visit_rule (P : search_state → Prop)
    (visit : N → search_state → option search_state) : Prop :=
  ∀ t st st',
    visit t st = Some st' → live g t →
    inv g (mark_vertex t st) → edge_inv (mark_vertex t st) → P (mark_vertex t st) →
    inv g st' ∧ edge_inv st' ∧ P st'
    ∧ vertices_unexplored st' ⊆ vertices_unexplored st ∖ {[t]}
    ∧ edges_unexplored st' ⊆ edges_unexplored st
    ∧ dfs_closed st' t
    ∧ ∀ w, w ∈ vertices_unexplored st → w ∉ vertices_unexplored st' → dfs_closed st' w.

(** The vertices scanned before position [i] of the iteration order. *)
Definition scanned_before (i : nat) (y : N) : Prop :=
  ∃ j x, (j < i)%nat ∧ m_vertices g !! j = Some x ∧ m_descriptor x = y.

End Rules.

(** Following the parents from [v] leads to the root [r] in [n] steps. *)
Inductive rooted (p : gmap N Z) : N → N → nat → Prop :=
  | rooted_root r : p !! r = Some (-1) → rooted p r r 0
  | rooted_step v u r n :
      p !! v = Some (Z.of_N u) → rooted p u r n → rooted p v r (S n).

(** *** The search forest and the iteration order *)

Section ScanInvariants.

Context {VP EP : Type}.
Variable g : graph VP EP.
Implicit Types (st : search_state).

(** An unexplored vertex still holds the sentinel. *)
Definition sentinel_inv st : Prop :=
  ∀ v, v ∈ vertices_unexplored st → parent st !! v = Some (-1).

(** What the search of a component guarantees, for breadth-first and
    depth-first search alike: [OK] holds between two components and makes
    every explored vertex closed; a round of the loop leaves the state as it
    is when the vertex is explored, and otherwise explores it and keeps
    every property that the steps of a search keep. *)
Definition comp_spec (OK : search_state → Prop)
    (comp : option search_state → vertex VP EP → option search_state) : Prop :=
  (∀ st, OK st → outer_ok g st)
  ∧ (∀ x, comp None x = None)
  ∧ ∀ x st st',
      x ∈ m_vertices g → comp (Some st) x = Some st' → OK st →
      ((m_descriptor x ∉ vertices_unexplored st) ∧ st' = st)
      ∨ (m_descriptor x ∈ vertices_unexplored st ∧ OK st'
         ∧ vertices_unexplored st' ⊆ vertices_unexplored st ∖ {[m_descriptor x]}
         ∧ ∀ P : search_state → Prop,
             state_rule g P → P (mark_vertex (m_descriptor x) st) → P st').

(** What holds between two components of depth_first_search. *)
Definition dfs_ok st : Prop :=
  inv g st ∧ edge_inv g st
  ∧ (∀ w, live g w → w ∉ vertices_unexplored st → dfs_closed g st w)
  ∧ edges_unexplored st ⊆ edges_unexplored (initialize g).

(** [r] is the first vertex of the iteration order, among those before
    position [i], from which [v] is reachable. *)
Definition first_reaching (i : nat) (r v : N) : Prop :=
  ∃ j x, (j < i)%nat ∧ m_vertices g !! j = Some x ∧ m_descriptor x = r
         ∧ reachable g r v
         ∧ ∀ j' y, (j' < j)%nat → m_vertices g !! j' = Some y →
                   ¬ reachable g (m_descriptor y) v.

(** The tree of an explored vertex: its parents lead to an explored root
    along [n] edges of the graph, and that root is the first vertex of the
    iteration order that reaches it. *)
Definition in_tree (i : nat) st (v : N) : Prop :=
  ∃ r n, rooted (parent st) v r n ∧ (r ∉ vertices_unexplored st)
         ∧ nsteps (has_edge g) n r v ∧ first_reaching i r v.

(** The invariant of the loop over the components, at position [i]. *)
Record scan_inv (i : nat) st : Prop := mk_scan_inv {
  si_sentinel : sentinel_inv st;
  si_explored : ∀ v, live g v →
    (v ∉ vertices_unexplored st ↔ ∃ y, scanned_before g i y ∧ reachable g y v);
  si_tree : ∀ v, live g v → v ∉ vertices_unexplored st → in_tree i st v
}.

(** The invariant of the search of the component of [x], started in the
    state [st0] at position [i]. *)
Record pass_inv (i : nat) (x : N) (st0 st : search_state) : Prop := mk_pass_inv {
  pi_sentinel : sentinel_inv st;
  pi_sub : vertices_unexplored st ⊆ vertices_unexplored st0 ∖ {[x]};
  pi_old : ∀ v, live g v → v ∉ vertices_unexplored st0 → in_tree i st v;
  pi_new : ∀ v, v ∈ vertices_unexplored st0 → v ∉ vertices_unexplored st →
           ∃ n, rooted (parent st) v x n ∧ nsteps (has_edge g) n x v
}.

(** Every entry of the parent map other than the sentinel is the source of
    an edge of the graph into the vertex of the entry. *)
Definition parents_are_edges st : Prop :=
  ∀ t z, parent st !! t = Some z → z = -1 ∨ ∃ u, z = Z.of_N u ∧ has_edge g u t.

(** At every moment of breadth_first_search, the unexplored edges are the
    edges (u, t) of the graph with [p[t]] other than [u]. *)
Definition unexplored_non_tree st : Prop :=
  sentinel_inv st
  ∧ ∀ u t, has_edge g u t →
      ((u, t) ∈ edges_unexplored st ↔ parent st !! t ≠ Some (Z.of_N u)).

(** The vertex at hand, if any, followed by the queue. *)
Definition front_list (cur : option N) (q : list N) : list N :=
  match cur with
  | Some u => u :: q
  | None => q
  end.

(** Every edge from [a] into the component being searched leads to an
    explored vertex, at most one level below [a]. *)
Definition edges_level (x : N) (st0 st : search_state) (a : N) : Prop :=
  ∀ b, has_edge g a b → b ∈ vertices_unexplored st0 →
    (b ∉ vertices_unexplored st)
    ∧ ∀ na nb, rooted (parent st) a x na → rooted (parent st) b x nb →
               (nb ≤ S na)%nat.

(** No path of the graph from the root of an explored vertex to the vertex
    is shorter than the one its parents describe. *)
Definition shortest st : Prop :=
  ∀ v, live g v → v ∉ vertices_unexplored st →
    ∀ r n, rooted (parent st) v r n →
      ∀ m, nsteps (has_edge g) m r v → (n ≤ m)%nat.

(** The invariant of breadth_first_search on the levels of the component of
    [x]: the vertex at hand and the queue are in the order of their levels,
    no explored vertex of the component is more than one level below the
    first of them, and a vertex that has left the queue has every edge
    explained. *)
Record level_inv (i : nat) (x : N) (st0 : search_state)
    (cur : option N) (q : list N) (st : search_state) : Prop := mk_level_inv {
  li_pass : pass_inv i x st0 st;
  li_old : ∀ v, live g v → v ∉ vertices_unexplored st0 →
           ∀ r n, rooted (parent st) v r n →
             ∀ m, nsteps (has_edge g) m r v → (n ≤ m)%nat;
  li_queue : ∀ a, a ∈ front_list cur q →
             a ∈ vertices_unexplored st0 ∧ a ∉ vertices_unexplored st;
  li_sorted : ∀ j1 j2 a b na nb,
              (j1 ≤ j2)%nat →
              front_list cur q !! j1 = Some a → front_list cur q !! j2 = Some b →
              rooted (parent st) a x na → rooted (parent st) b x nb →
              (na ≤ nb)%nat;
  li_bound : ∀ f kf w nw,
             head (front_list cur q) = Some f → rooted (parent st) f x kf →
             w ∈ vertices_unexplored st0 → w ∉ vertices_unexplored st →
             rooted (parent st) w x nw → (nw ≤ S kf)%nat;
  li_done : ∀ a, a ∈ vertices_unexplored st0 → a ∉ vertices_unexplored st →
            a ∈ front_list cur q ∨ edges_level x st0 st a
}.

End ScanInvariants.

(** ** Properties of the set graph *)

Module IntGraphFacts.
Import IntGraph.

Lemma insertVertex_returns v g :
  insertVertex v g
  = Returned (tt, {| vertices := {[v]} ∪ vertices g; edges := edges g |}).
Proof. reflexivity. Qed.

Lemma eraseVertex_returns v g :
  eraseVertex v g
  = Returned (tt, {| vertices := vertices g ∖ {[v]};
                     edges := filter (λ e, ¬ touches v e) (edges g) |}).
Proof. reflexivity. Qed.

Lemma insertEdge_returns v1 v2 g :
  insertEdge v1 v2 g
  = Returned (tt, {| vertices := vertices g;
                     edges := {[(v2, v1)]} ∪ ({[(v1, v2)]} ∪ edges g) |}).
Proof. reflexivity. Qed.

Lemma eraseEdge_returns v1 v2 g :
  eraseEdge v1 v2 g
  = Returned (tt, {| vertices := vertices g;
                     edges := (edges g ∖ {[(v1, v2)]}) ∖ {[(v2, v1)]} |}).
Proof. reflexivity. Qed.

Lemma elem_of_erased_edges v e g :
  e ∈ filter (λ e, ¬ touches v e) (edges g) ↔ e ∈ edges g ∧ e.1 ≠ v ∧ e.2 ≠ v.
Proof. rewrite elem_of_filter. unfold touches. tauto. Qed.

(** Every modifier returns, and keeps a symmetric edge set symmetric. *)
Lemma run_op_symmetric o g :
  symmetric g → ∃ g', run_op o g = Returned (tt, g') ∧ symmetric g'.
Proof.
  intros Hsym. destruct o as [v|v|v1 v2|v1 v2]; simpl.
  - eexists; split; [apply insertVertex_returns|]. exact Hsym.
  - eexists; split; [apply eraseVertex_returns|].
    intros a b; simpl. rewrite !elem_of_erased_edges; simpl.
    rewrite (Hsym a b). tauto.
  - eexists; split; [apply insertEdge_returns|].
    intros a b; simpl. rewrite !elem_of_union, !elem_of_singleton.
    rewrite (Hsym a b). split; intros [?|[?|?]]; simplify_eq; auto.
  - eexists; split; [apply eraseEdge_returns|].
    intros a b; simpl. rewrite !elem_of_difference, !elem_of_singleton.
    rewrite (Hsym a b). split; intros [[? ?] ?]; repeat split; auto; congruence.
Qed.

Lemma run_ops_symmetric os : ∀ g,
  symmetric g → ∃ g', run_ops os g = Returned (tt, g') ∧ symmetric g'.
Proof.
  induction os as [|o os IH]; intros g Hsym; simpl.
  - exists g. split; [reflexivity | exact Hsym].
  - destruct (run_op_symmetric o g Hsym) as (g1 & Hrun & Hsym1).
    destruct (IH g1 Hsym1) as (g2 & Hrun2 & Hsym2).
    exists g2. split; [|exact Hsym2].
    unfold mbind, method_bind. rewrite Hrun. exact Hrun2.
Qed.

Lemma empty_symmetric : symmetric empty.
Proof. intros u v; simpl. rewrite !elem_of_empty. tauto. Qed.

(** C10: starting from the empty set graph, every sequence of insertVertex,
    insertEdge, eraseEdge and eraseVertex calls returns, and in the graph
    it leaves the pair (u,v) is an edge if and only if (v,u) is. *)
Theorem edge_set_symmetric (os : list op) :
  ∃ g, run_ops os empty = Returned (tt, g)
       ∧ ∀ u v, (u, v) ∈ edges g ↔ (v, u) ∈ edges g.
Proof. apply run_ops_symmetric, empty_symmetric. Qed.

End IntGraphFacts.

(** ** Properties of the templated graph's members *)

Section GraphFacts.

Context {VP EP : Type}.
Implicit Types (g : graph VP EP) (vp : VP) (ep : EP).

Lemma new_graph_no_vertex (vd : N) : ¬ live (new_graph : graph VP EP) vd.
Proof. unfold live; simpl. apply not_elem_of_nil. Qed.

(** C2, as amended: for every graph state and all descriptors source and
    target, whether or not they name live vertices, insert_edge returns
    the pair (source, target) and reports no error. *)
Theorem insert_edge_returns_pair g (sd td : N) ep :
  result_of (insert_edge sd td ep g) = Returned (sd, td).
Proof. reflexivity. Qed.

(** C3, as amended: erase_vertex reports no error, whether or not vd is
    live; eraseVertex of the set graph returns for every v, live or not,
    and leaves exactly the vertices other than v and exactly the edges
    whose source and target both differ from v. *)
Theorem erase_vertex_never_fails g (vd : N) (h : IntGraph.graph) (v : Z) :
  result_of (erase_vertex vd g) = Returned tt
  ∧ ∃ h', IntGraph.eraseVertex v h = Returned (tt, h')
          ∧ (∀ w, w ∈ IntGraph.vertices h' ↔ w ∈ IntGraph.vertices h ∧ w ≠ v)
          ∧ (∀ e, e ∈ IntGraph.edges h'
                  ↔ e ∈ IntGraph.edges h ∧ e.1 ≠ v ∧ e.2 ≠ v).
Proof.
  split; [reflexivity|].
  eexists. split; [apply IntGraphFacts.eraseVertex_returns|]. simpl. split.
  - intros w. rewrite elem_of_difference, elem_of_singleton. tauto.
  - intros e. apply IntGraphFacts.elem_of_erased_edges.
Qed.

(** C4, as amended: insert_edge_undirected reports no error, whether or
    not u and v are live; insertEdge of the set graph returns for every
    pair of ints, vertices or not, keeps the vertex set, and leaves exactly
    the former edges together with (v1,v2) and (v2,v1). *)
Theorem insert_edge_undirected_never_fails g (sd td : N) ep
    (h : IntGraph.graph) (v1 v2 : Z) :
  result_of (insert_edge_undirected sd td ep g) = Returned tt
  ∧ ∃ h', IntGraph.insertEdge v1 v2 h = Returned (tt, h')
          ∧ IntGraph.vertices h' = IntGraph.vertices h
          ∧ (∀ e, e ∈ IntGraph.edges h'
                  ↔ e ∈ IntGraph.edges h ∨ e = (v1, v2) ∨ e = (v2, v1)).
Proof.
  split; [reflexivity|].
  eexists. split; [apply IntGraphFacts.insertEdge_returns|]. simpl.
  split; [reflexivity|].
  intros e. rewrite !elem_of_union, !elem_of_singleton. tauto.
Qed.

(** C8: clear() returns and leaves the graph with no vertex, no edge and
    the descriptor counter at 0, so that the next insert_vertex returns
    descriptor 0; a second clear() leaves that same state. *)
Theorem clear_resets g vp :
  ∃ g', clear g = Returned (tt, g')
        ∧ num_vertices g' = 0%nat
        ∧ num_edges g' = 0%nat
        ∧ result_of (insert_vertex vp g') = Returned 0%N
        ∧ clear g' = Returned (tt, g')
        ∧ (clear;; clear) g = clear g.
Proof. exists new_graph. repeat split. Qed.

(** C9: each of insert_vertex, insert_edge, insert_edge_undirected,
    erase_vertex and erase_edge returns and leaves the graph as it was:
    the same vertex and edge counts, the same descriptor counter and the
    same answer to every find_vertex and find_edge. *)
Theorem modifiers_leave_graph_unchanged (m : modifier VP EP) g :
  ∃ g', run_modifier m g = Returned g'
        ∧ g' = g
        ∧ num_vertices g' = num_vertices g
        ∧ num_edges g' = num_edges g
        ∧ m_max_vd g' = m_max_vd g
        ∧ (∀ vd, find_vertex vd g' = find_vertex vd g)
        ∧ (∀ ed, find_edge ed g' = find_edge ed g).
Proof. exists g. destruct m; repeat split. Qed.

End GraphFacts.

(** C1, at the freshly constructed graph: insert_vertex returns 0, the graph
    still has no vertex and find_vertex 0 finds none, and a second
    insert_vertex returns 0 again. *)
Theorem insert_vertex_stores_nothing :
  ∃ g1 g2 : graph unit unit,
    insert_vertex tt new_graph = Returned (0%N, g1)
    ∧ num_vertices g1 = 0%nat
    ∧ find_vertex 0 g1 = None
    ∧ insert_vertex tt g1 = Returned (0%N, g2)
    ∧ num_vertices g2 = 0%nat.
Proof. exists new_graph, new_graph. repeat split. Qed.

(** C2 fails as stated: on the freshly constructed graph, where 0 names no
    live vertex, insert_edge(0, 0, _) returns (0, 0) instead of failing
    with InvalidVertex. *)
Lemma insert_edge_dead_endpoints_returns :
  ¬ live (new_graph : graph unit unit) 0
  ∧ insert_edge 0 0 tt (new_graph : graph unit unit) = Returned ((0%N, 0%N), new_graph)
  ∧ insert_edge 0 0 tt (new_graph : graph unit unit) ≠ Failed InvalidVertex.
Proof. split; [apply new_graph_no_vertex|]. split; [reflexivity|discriminate]. Qed.

(** C3 fails as stated: on the freshly constructed graph, where 0 is not
    live, erase_vertex(0) returns instead of failing with VertexNotFound;
    so does eraseVertex(0) on the empty set graph. *)
Lemma erase_vertex_dead_returns :
  ¬ live (new_graph : graph unit unit) 0
  ∧ erase_vertex 0 (new_graph : graph unit unit) ≠ Failed VertexNotFound
  ∧ (0 ∉ IntGraph.vertices IntGraph.empty)
  ∧ IntGraph.eraseVertex 0 IntGraph.empty ≠ Failed VertexNotFound.
Proof.
  split; [apply new_graph_no_vertex|]. split; [discriminate|].
  split; [apply not_elem_of_empty|discriminate].
Qed.

(** C4 fails as stated: on the freshly constructed graph, where neither 0
    nor 1 is live, insert_edge_undirected(0, 1, _) returns instead of
    failing with InvalidVertex; and insertEdge(0, 1) on the empty set graph,
    where neither endpoint is a vertex, adds both directed entries. *)
Lemma insert_edge_undirected_dead_returns :
  ¬ live (new_graph : graph unit unit) 0
  ∧ ¬ live (new_graph : graph unit unit) 1
  ∧ insert_edge_undirected 0 1 tt (new_graph : graph unit unit) ≠ Failed InvalidVertex
  ∧ (0 ∉ IntGraph.vertices IntGraph.empty)
  ∧ (1 ∉ IntGraph.vertices IntGraph.empty)
  ∧ ∃ h, IntGraph.insertEdge 0 1 IntGraph.empty = Returned (tt, h)
         ∧ (0, 1) ∈ IntGraph.edges h ∧ (1, 0) ∈ IntGraph.edges h.
Proof.
  split; [apply new_graph_no_vertex|]. split; [apply new_graph_no_vertex|].
  split; [discriminate|].
  split; [apply not_elem_of_empty|]. split; [apply not_elem_of_empty|].
  eexists. split; [apply IntGraphFacts.insertEdge_returns|]. simpl.
  split; set_solver.
Qed.

(** ** The concrete scenario *)

(** C6: on the scenario graph, scanned in the order 0, 1, 2, 3 with
    ascending adjacency lists, breadth_first_search returns the parent map
    with parent[0] = -1, parent[1] = 0, parent[2] = 1, parent[3] = -1 and no
    other entry; vertices 0, 1 and 2 hang from root 0 and vertex 3 from
    itself, which makes the two components {0,1,2} and {3}. *)
Theorem bfs_scenario (p0 : gmap N Z) :
  ∃ p, breadth_first_search scenario p0 = Some p
       ∧ p !! 0%N = Some (-1) ∧ p !! 1%N = Some 0
       ∧ p !! 2%N = Some 1 ∧ p !! 3%N = Some (-1)
       ∧ dom p = {[0%N; 1%N; 2%N; 3%N]}
       ∧ num_sentinel p = 2%nat
       ∧ root_of 4 p 0 = Some 0%N ∧ root_of 4 p 1 = Some 0%N
       ∧ root_of 4 p 2 = Some 0%N ∧ root_of 4 p 3 = Some 3%N.
Proof.
  exists (<[0%N:=(-1)]> (<[1%N:=0]> (<[2%N:=1]> (<[3%N:=(-1)]> ∅)))).
  split; [vm_compute; reflexivity|].
  repeat split; vm_compute; reflexivity.
Qed.

(** The adjacency loop of breadth_first_search leaves an unexplored edge as
    it is when the target of the edge is already explored. *)
Lemma bfs_edge_cross {VP EP : Type} (x : vertex VP EP) qs (e : edge EP) :
  descriptor e ∈ edges_unexplored qs.2 →
  m_target e ∉ vertices_unexplored qs.2 →
  bfs_edge x qs e = qs ∧ descriptor e ∈ edges_unexplored (bfs_edge x qs e).2.
Proof.
  intros Hd Ht. unfold bfs_edge.
  rewrite decide_True by exact Hd. rewrite decide_False by exact Ht. done.
Qed.

(** C7, on the scenario graph: when breadth_first_search dequeues vertex 1
    it examines the edge (1,0), whose target 0 is already explored; that
    edge, like the cross edge (2,1), is still unexplored when the search
    returns, only the discovery edges (0,1) and (1,2) were marked.
    depth_first_search on the same graph marks all four edges. *)
Theorem bfs_leaves_cross_edges_unexplored :
  ∃ st st', bfs_run scenario = Some st
    ∧ edges_unexplored st = {[(1%N, 0%N); (2%N, 1%N)]}
    ∧ (1%N, 0%N) ∈ edges_unexplored st
    ∧ dfs_run scenario = Some st'
    ∧ edges_unexplored st' = ∅.
Proof.
  exists (mk_state (<[0%N:=(-1)]> (<[1%N:=0]> (<[2%N:=1]> (<[3%N:=(-1)]> ∅))))
            {[(1%N, 0%N); (2%N, 1%N)]} ∅).
  exists (mk_state (<[0%N:=(-1)]> (<[1%N:=0]> (<[2%N:=1]> (<[3%N:=(-1)]> ∅)))) ∅ ∅).
  split; [vm_compute; reflexivity|].
  split; [reflexivity|]. split; [set_solver|].
  split; [vm_compute; reflexivity|reflexivity].
Qed.

(** ** The searches

    The invariants are proved of the search forest, the searches at the wide
    mapped type; the last part of the file carries them over to the parent
    maps that the searches return. *)

Section Search.

Context {VP EP : Type}.
Variable g : graph VP EP.
Implicit Types (st : search_state) (u v t r : N) (d : N * N).

Local Abbreviation inv := (inv g).
Local Abbreviation inv_unexplored := (inv_unexplored g).
Local Abbreviation inv_dom := (inv_dom g).
Local Abbreviation bfs_ok := (bfs_ok g).
Local Abbreviation closed := (closed g).
Local Abbreviation forest_inv := (forest_inv g).
Local Abbreviation fi_edges := (fi_edges g).
Local Abbreviation outer_inv := (outer_inv g).
Local Abbreviation bfs_inv := (bfs_inv g).
Local Abbreviation visit_spec := (visit_spec g).

(** *** Lookup of vertices *)

Lemma find_vertex_Some vd (x : vertex VP EP) :
  find_vertex vd g = Some x → m_descriptor x = vd ∧ x ∈ m_vertices g.
Proof.
  unfold find_vertex. intros Hf. apply find_some in Hf as [Hin Hd].
  apply bool_decide_eq_true in Hd. split; [exact Hd|].
  by apply list_elem_of_In.
Qed.

Lemma find_vertex_live vd :
  live g vd → ∃ x, find_vertex vd g = Some x ∧ m_descriptor x = vd ∧ x ∈ m_vertices g.
Proof.
  unfold live. intros (x & -> & Hx)%list_elem_of_fmap.
  destruct (find_vertex (m_descriptor x) g) as [y|] eqn:Hf.
  - exists y. split; [reflexivity|]. by apply find_vertex_Some.
  - unfold find_vertex in Hf. apply list_elem_of_In in Hx.
    pose proof (find_none _ _ Hf x Hx) as Hn. simpl in Hn.
    by rewrite bool_decide_eq_false in Hn.
Qed.

Lemma vertex_live (x : vertex VP EP) : x ∈ m_vertices g → live g (m_descriptor x).
Proof. intros Hx. unfold live. apply list_elem_of_fmap. eauto. Qed.

(** *** Initialisation *)

Lemma fold_init_vertex (l : list (vertex VP EP)) : ∀ st,
  vertices_unexplored (fold_left init_vertex l st)
  = list_to_set (m_descriptor <$> l) ∪ vertices_unexplored st
  ∧ edges_unexplored (fold_left init_vertex l st) = edges_unexplored st
  ∧ ∀ v, parent (fold_left init_vertex l st) !! v
         = if decide (v ∈ m_descriptor <$> l) then Some (-1) else parent st !! v.
Proof.
  induction l as [|x l IH]; intros st; simpl.
  - split; [by rewrite (left_id_L ∅ (∪))|].
    split; reflexivity.
  - destruct (IH (init_vertex st x)) as (HV & HE & HP).
    split; [rewrite HV; simpl; set_solver|]. split; [rewrite HE; reflexivity|].
    intros v. rewrite HP. simpl.
    destruct (decide (v ∈ m_descriptor <$> l)) as [Hin|Hin].
    + rewrite decide_True; [reflexivity|]. by apply list_elem_of_further.
    + destruct (decide (v = m_descriptor x)) as [->|Hne].
      * rewrite lookup_insert_eq. rewrite decide_True; [reflexivity|].
        apply list_elem_of_here.
      * rewrite lookup_insert_ne by congruence.
        rewrite decide_False; [reflexivity|].
        intros [?|?]%elem_of_cons; [congruence|done].
Qed.

Lemma fold_init_edge (l : list (edge EP)) : ∀ st,
  vertices_unexplored (fold_left init_edge l st) = vertices_unexplored st
  ∧ edges_unexplored (fold_left init_edge l st)
    = list_to_set (descriptor <$> l) ∪ edges_unexplored st
  ∧ parent (fold_left init_edge l st) = parent st.
Proof.
  induction l as [|x l IH]; intros st; simpl.
  - split; [reflexivity|]. split; [set_solver|reflexivity].
  - destruct (IH (init_edge st x)) as (HV & HE & HP).
    split; [rewrite HV; reflexivity|].
    split; [rewrite HE; simpl; set_solver|]. rewrite HP. reflexivity.
Qed.

Lemma initialize_vertices :
  vertices_unexplored (initialize g) = list_to_set (m_descriptor <$> m_vertices g).
Proof.
  unfold initialize.
  destruct (fold_init_edge (m_edges g) (fold_left init_vertex (m_vertices g)
    {| parent := ∅; edges_unexplored := ∅; vertices_unexplored := ∅ |})) as (-> & _ & _).
  destruct (fold_init_vertex (m_vertices g)
    {| parent := ∅; edges_unexplored := ∅; vertices_unexplored := ∅ |}) as (-> & _ & _).
  simpl. set_solver.
Qed.

Lemma initialize_edges :
  edges_unexplored (initialize g) = list_to_set (descriptor <$> m_edges g).
Proof.
  unfold initialize.
  destruct (fold_init_edge (m_edges g) (fold_left init_vertex (m_vertices g)
    {| parent := ∅; edges_unexplored := ∅; vertices_unexplored := ∅ |})) as (_ & -> & _).
  destruct (fold_init_vertex (m_vertices g)
    {| parent := ∅; edges_unexplored := ∅; vertices_unexplored := ∅ |}) as (_ & -> & _).
  simpl. set_solver.
Qed.

Lemma initialize_parent v :
  parent (initialize g) !! v = if decide (live g v) then Some (-1) else None.
Proof.
  unfold initialize.
  destruct (fold_init_edge (m_edges g) (fold_left init_vertex (m_vertices g)
    {| parent := ∅; edges_unexplored := ∅; vertices_unexplored := ∅ |})) as (_ & _ & ->).
  destruct (fold_init_vertex (m_vertices g)
    {| parent := ∅; edges_unexplored := ∅; vertices_unexplored := ∅ |}) as (_ & _ & ->).
  simpl. unfold live. destruct (decide _); [reflexivity|apply lookup_empty].
Qed.

(** *** The invariant of every search, on every graph *)

Lemma inv_initialize : inv (initialize g).
Proof.
  split.
  - intros v. rewrite initialize_vertices, elem_of_list_to_set. done.
  - intros v. rewrite initialize_parent. destruct (decide (live g v)) as [H|H].
    + split; [done|]. intros _. by eexists.
    + split; [|done]. by intros [? ?].
Qed.

Lemma inv_mark_vertex v st : inv st → inv (mark_vertex v st).
Proof.
  intros [HU HD]. split; simpl; [|exact HD].
  intros w [Hw _]%elem_of_difference. by apply HU.
Qed.

Lemma inv_mark_edge d st : inv st → inv (mark_edge d st).
Proof. intros [HU HD]. split; simpl; assumption. Qed.

Lemma inv_set_parent t u st : inv st → live g t → inv (set_parent_wide t u st).
Proof.
  intros [HU HD] Ht. split; simpl; [exact HU|].
  intros w. destruct (decide (w = t)) as [->|Hne].
  - rewrite lookup_insert_eq. split; [done|]. intros _. by eexists.
  - rewrite lookup_insert_ne by congruence. apply HD.
Qed.

(** *** The searches return, on every graph *)

Lemma size_list_to_set_le (l : list N) :
  (size (list_to_set l : gset N) ≤ length l)%nat.
Proof.
  induction l as [|x l IH].
  - by rewrite list_to_set_nil, size_empty.
  - rewrite list_to_set_cons, size_union_alt, size_singleton. simpl length.
    pose proof (subseteq_size (list_to_set l ∖ {[x]}) (list_to_set l : gset N)) as Hs.
    assert (size (list_to_set l ∖ {[x]} : gset N) ≤ size (list_to_set l : gset N))%nat
      by (apply Hs; apply subseteq_difference_l; reflexivity).
    lia.
Qed.

Lemma size_erase (X : gset N) x : x ∈ X → S (size (X ∖ {[x]})) = size X.
Proof.
  intros Hx. rewrite size_difference by (by apply singleton_subseteq_l).
  rewrite size_singleton.
  assert (size ({[x]} : gset N) ≤ size X)%nat
    by (by apply subseteq_size, singleton_subseteq_l).
  rewrite size_singleton in *. lia.
Qed.

Lemma initialize_size :
  (size (vertices_unexplored (initialize g)) ≤ length (m_vertices g))%nat.
Proof.
  rewrite initialize_vertices.
  etrans; [apply size_list_to_set_le|]. by rewrite length_fmap.
Qed.

Lemma bfs_edge_ok (x : vertex VP EP) qs e :
  bfs_ok qs →
  bfs_ok (bfs_edge_wide x qs e)
  ∧ bfs_measure (bfs_edge_wide x qs e) = bfs_measure qs
  ∧ vertices_unexplored (bfs_edge_wide x qs e).2 ⊆ vertices_unexplored qs.2.
Proof.
  intros [Hinv Hq]. unfold bfs_edge_wide.
  destruct (decide (descriptor e ∈ _)) as [Hd|Hd]; [|done].
  destruct (decide (m_target e ∈ _)) as [Ht|Ht]; [|done].
  assert (live g (m_target e)) as Hlive by (by apply (inv_unexplored _ Hinv)).
  split; [split|split]; simpl.
  - apply inv_mark_vertex, inv_set_parent; [apply inv_mark_edge|]; assumption.
  - intros y [Hy|Hy%list_elem_of_singleton]%elem_of_app; [by apply Hq|by subst].
  - unfold bfs_measure; simpl. rewrite length_app; simpl.
    pose proof (size_erase _ _ Ht). lia.
  - apply subseteq_difference_l. reflexivity.
Qed.

Lemma fold_bfs_edge_ok (x : vertex VP EP) l : ∀ qs,
  bfs_ok qs →
  bfs_ok (fold_left (bfs_edge_wide x) l qs)
  ∧ bfs_measure (fold_left (bfs_edge_wide x) l qs) = bfs_measure qs
  ∧ vertices_unexplored (fold_left (bfs_edge_wide x) l qs).2 ⊆ vertices_unexplored qs.2.
Proof.
  induction l as [|e l IH]; intros qs Hok; simpl; [done|].
  destruct (bfs_edge_ok x qs e Hok) as (Hok1 & Hm1 & Hs1).
  destruct (IH _ Hok1) as (Hok2 & Hm2 & Hs2).
  split; [exact Hok2|]. split; [congruence|]. etrans; eassumption.
Qed.

Lemma bfs_while_total fuel : ∀ qs,
  bfs_ok qs → (bfs_measure qs ≤ fuel)%nat →
  ∃ st', bfs_while_wide fuel g qs = Some st' ∧ inv st'
         ∧ vertices_unexplored st' ⊆ vertices_unexplored qs.2.
Proof.
  induction fuel as [|fuel IH]; intros [q st] Hok Hm; destruct q as [|vd q];
    unfold bfs_measure in Hm; simpl in *.
  - exists st. split; [reflexivity|]. split; [apply Hok|reflexivity].
  - lia.
  - exists st. split; [reflexivity|]. split; [apply Hok|reflexivity].
  - destruct Hok as [Hinv Hq]; simpl in *.
    destruct (find_vertex_live vd) as (x & -> & _ & _);
      [apply Hq, list_elem_of_here|].
    destruct (fold_bfs_edge_ok x (m_out_edges x) (q, st)) as (Hok' & Hm' & Hs').
    { split; [exact Hinv|]. simpl. intros y Hy. by apply Hq, list_elem_of_further. }
    destruct (IH _ Hok') as (st' & Hrun & Hinv' & Hsub).
    { rewrite Hm'. unfold bfs_measure; simpl. lia. }
    exists st'. split; [exact Hrun|]. split; [exact Hinv'|].
    etrans; [exact Hsub|exact Hs'].
Qed.

Lemma bfs_component_total fuel st (x : vertex VP EP) :
  inv st → x ∈ m_vertices g → (size (vertices_unexplored st) ≤ fuel)%nat →
  ∃ st', bfs_component_wide fuel g (Some st) x = Some st' ∧ inv st'
         ∧ vertices_unexplored st' ⊆ vertices_unexplored st.
Proof.
  intros Hinv Hx Hm. unfold bfs_component_wide; simpl.
  destruct (decide (m_descriptor x ∈ _)) as [Hu|Hu].
  - destruct (bfs_while_total fuel ([m_descriptor x], mark_vertex (m_descriptor x) st))
      as (st' & Hrun & Hinv' & Hsub).
    + split; simpl; [by apply inv_mark_vertex|].
      intros y ->%list_elem_of_singleton. by apply vertex_live.
    + unfold bfs_measure; simpl. pose proof (size_erase _ _ Hu). lia.
    + exists st'. split; [exact Hrun|]. split; [exact Hinv'|].
      etrans; [exact Hsub|]. simpl. apply subseteq_difference_l. reflexivity.
  - exists st. done.
Qed.

Lemma fold_bfs_component_total fuel (l : list (vertex VP EP)) : ∀ st,
  inv st → (∀ x, x ∈ l → x ∈ m_vertices g) →
  (size (vertices_unexplored st) ≤ fuel)%nat →
  ∃ st', fold_left (bfs_component_wide fuel g) l (Some st) = Some st' ∧ inv st'
         ∧ vertices_unexplored st' ⊆ vertices_unexplored st.
Proof.
  induction l as [|x l IH]; intros st Hinv Hl Hm; cbn [fold_left].
  - exists st. done.
  - destruct (bfs_component_total fuel st x Hinv) as (st1 & Hrun & Hinv1 & Hs1);
      [apply Hl, list_elem_of_here|exact Hm|].
    rewrite Hrun.
    destruct (IH st1 Hinv1) as (st2 & Hrun2 & Hinv2 & Hs2).
    { intros y Hy. by apply Hl, list_elem_of_further. }
    { etrans; [apply subseteq_size, Hs1|exact Hm]. }
    exists st2. split; [exact Hrun2|]. split; [exact Hinv2|]. etrans; eassumption.
Qed.

Lemma bfs_run_total : ∃ st, bfs_run_wide g = Some st ∧ inv st.
Proof.
  destruct (fold_bfs_component_total (length (m_vertices g)) (m_vertices g)
              (initialize g)) as (st & Hrun & Hinv & _).
  - apply inv_initialize.
  - done.
  - apply initialize_size.
  - exists st. done.
Qed.

Lemma fold_dfs_edge_None visit u (l : list (edge EP)) :
  fold_left (dfs_edge_wide visit u) l None = None.
Proof. induction l as [|e l IH]; [reflexivity|exact IH]. Qed.

(** The three ways of an edge through the body of the adjacency loop of
    [dfs_visit_wide]. *)
Lemma dfs_edge_cases visit u st (e : edge EP) :
  ((descriptor e ∉ edges_unexplored st)
   ∧ dfs_edge_wide visit u (Some st) e = Some st)
  ∨ (descriptor e ∈ edges_unexplored st
     ∧ (m_target e ∉ vertices_unexplored st)
     ∧ dfs_edge_wide visit u (Some st) e = Some (mark_edge (descriptor e) st))
  ∨ (descriptor e ∈ edges_unexplored st
     ∧ m_target e ∈ vertices_unexplored st
     ∧ dfs_edge_wide visit u (Some st) e
       = visit (m_target e) (set_parent_wide (m_target e) u (mark_edge (descriptor e) st))).
Proof.
  unfold dfs_edge_wide; simpl.
  destruct (decide (descriptor e ∈ _)) as [Hd|Hd]; [|by left].
  destruct (decide (m_target e ∈ _)) as [Ht|Ht]; right; [right|left]; done.
Qed.

Lemma fold_dfs_edge_total visit (bound : nat) u (l : list (edge EP)) :
  (∀ t st, inv st → live g t →
     (size (vertices_unexplored st ∖ {[t]}) < bound)%nat →
     ∃ st', visit t st = Some st' ∧ inv st'
            ∧ vertices_unexplored st' ⊆ vertices_unexplored st ∖ {[t]}) →
  ∀ st, inv st → (size (vertices_unexplored st) ≤ bound)%nat →
  ∃ st', fold_left (dfs_edge_wide visit u) l (Some st) = Some st' ∧ inv st'
         ∧ vertices_unexplored st' ⊆ vertices_unexplored st.
Proof.
  intros Hvisit. induction l as [|e l IH]; intros st Hinv Hm; cbn [fold_left].
  - exists st. done.
  - destruct (dfs_edge_cases visit u st e)
      as [(_ & ->)|[(_ & _ & ->)|(_ & Ht & ->)]].
    + by apply IH.
    + destruct (IH (mark_edge (descriptor e) st)) as (st' & ? & ? & ?);
        [by apply inv_mark_edge|exact Hm|]. exists st'. done.
    + destruct (Hvisit (m_target e)
                  (set_parent_wide (m_target e) u (mark_edge (descriptor e) st)))
        as (st1 & -> & Hinv1 & Hs1).
      * apply inv_set_parent; [by apply inv_mark_edge|].
        by apply (inv_unexplored _ Hinv).
      * by apply (inv_unexplored _ Hinv).
      * simpl. pose proof (size_erase _ _ Ht). lia.
      * simpl in Hs1.
        assert (vertices_unexplored st1 ⊆ vertices_unexplored st) as Hs
          by (etrans; [exact Hs1|apply subseteq_difference_l; reflexivity]).
        destruct (IH st1 Hinv1) as (st' & ? & ? & ?).
        { etrans; [apply subseteq_size, Hs|exact Hm]. }
        exists st'. split; [done|]. split; [done|]. etrans; eassumption.
Qed.

Lemma dfs_visit_total fuel : ∀ u st,
  inv st → live g u →
  (size (vertices_unexplored st ∖ {[u]}) < fuel)%nat →
  ∃ st', dfs_visit_wide fuel g u st = Some st' ∧ inv st'
         ∧ vertices_unexplored st' ⊆ vertices_unexplored st ∖ {[u]}.
Proof.
  induction fuel as [|fuel IH]; intros u st Hinv Hu Hm; [lia|].
  cbn [dfs_visit_wide].
  destruct (find_vertex_live u Hu) as (x & -> & _ & _).
  apply (fold_dfs_edge_total (dfs_visit_wide fuel g) fuel u (m_out_edges x) IH
           (mark_vertex u st)).
  - by apply inv_mark_vertex.
  - simpl. lia.
Qed.

Lemma dfs_component_total fuel st (x : vertex VP EP) :
  inv st → x ∈ m_vertices g → (size (vertices_unexplored st) < fuel)%nat →
  ∃ st', dfs_component_wide fuel g (Some st) x = Some st' ∧ inv st'
         ∧ vertices_unexplored st' ⊆ vertices_unexplored st.
Proof.
  intros Hinv Hx Hm. unfold dfs_component_wide; simpl.
  destruct (decide (m_descriptor x ∈ _)) as [Hu|Hu].
  - destruct (dfs_visit_total fuel (m_descriptor x) st Hinv)
      as (st' & Hrun & Hinv' & Hsub).
    + by apply vertex_live.
    + pose proof (size_erase _ _ Hu). lia.
    + exists st'. split; [exact Hrun|]. split; [exact Hinv'|].
      etrans; [exact Hsub|]. apply subseteq_difference_l. reflexivity.
  - exists st. done.
Qed.

Lemma fold_dfs_component_total fuel (l : list (vertex VP EP)) : ∀ st,
  inv st → (∀ x, x ∈ l → x ∈ m_vertices g) →
  (size (vertices_unexplored st) < fuel)%nat →
  ∃ st', fold_left (dfs_component_wide fuel g) l (Some st) = Some st' ∧ inv st'
         ∧ vertices_unexplored st' ⊆ vertices_unexplored st.
Proof.
  induction l as [|x l IH]; intros st Hinv Hl Hm; cbn [fold_left].
  - exists st. done.
  - destruct (dfs_component_total fuel st x Hinv) as (st1 & Hrun & Hinv1 & Hs1);
      [apply Hl, list_elem_of_here|exact Hm|].
    rewrite Hrun.
    destruct (IH st1 Hinv1) as (st2 & Hrun2 & Hinv2 & Hs2).
    { intros y Hy. by apply Hl, list_elem_of_further. }
    { eapply Nat.le_lt_trans; [apply subseteq_size, Hs1|exact Hm]. }
    exists st2. split; [exact Hrun2|]. split; [exact Hinv2|]. etrans; eassumption.
Qed.

Lemma dfs_run_total : ∃ st, dfs_run_wide g = Some st ∧ inv st.
Proof.
  destruct (fold_dfs_component_total (S (length (m_vertices g))) (m_vertices g)
              (initialize g)) as (st & Hrun & Hinv & _).
  - apply inv_initialize.
  - done.
  - pose proof initialize_size. lia.
  - exists st. done.
Qed.

(** *** The searches on a well-formed graph with symmetric edges *)

Section Forest.

Hypothesis Hwf : well_formed g.
Hypothesis Hsym : symmetric_edges g.

Lemma NoDup_fmap_eq {A B : Type} (f : A → B) (l : list A) a b :
  NoDup (f <$> l) → a ∈ l → b ∈ l → f a = f b → a = b.
Proof.
  induction l as [|c l IH]; intros Hnd Ha Hb Hf.
  - by apply elem_of_nil in Ha.
  - rewrite fmap_cons in Hnd. apply NoDup_cons in Hnd as [Hc Hnd].
    apply elem_of_cons in Ha as [->|Ha]; apply elem_of_cons in Hb as [->|Hb].
    + reflexivity.
    + exfalso. apply Hc. rewrite Hf. by apply list_elem_of_fmap_2.
    + exfalso. apply Hc. rewrite <- Hf. by apply list_elem_of_fmap_2.
    + by apply IH.
Qed.

Lemma vertex_unique (x y : vertex VP EP) :
  x ∈ m_vertices g → y ∈ m_vertices g → m_descriptor x = m_descriptor y → x = y.
Proof. destruct Hwf as (Hnd & _). by apply NoDup_fmap_eq. Qed.

(** An edge of an adjacency list starts at the owner of the list and is
    an edge of the graph. *)
Lemma wf_out_edge (x : vertex VP EP) (e : edge EP) :
  x ∈ m_vertices g → e ∈ m_out_edges x →
  m_source e = m_descriptor x ∧ has_edge g (m_descriptor x) (m_target e).
Proof.
  intros Hx He. destruct Hwf as (_ & Hadj & _).
  rewrite Forall_forall in Hadj. specialize (Hadj x Hx).
  rewrite Forall_forall in Hadj. destruct (Hadj e He) as [Hs Hin].
  split; [exact Hs|]. unfold has_edge. by rewrite <- Hs.
Qed.

(** An edge of the graph is in the adjacency list of its source. *)
Lemma wf_edge_listed u t :
  has_edge g u t →
  ∃ (x : vertex VP EP) (e : edge EP),
    x ∈ m_vertices g ∧ m_descriptor x = u ∧ e ∈ m_out_edges x ∧ m_target e = t.
Proof.
  unfold has_edge. intros (e & Hd & He)%list_elem_of_fmap.
  destruct Hwf as (_ & _ & Hed). rewrite Forall_forall in Hed.
  destruct (Hed e He) as [(x & Hx & Hxs & Hin)%Exists_exists _].
  apply list_elem_of_fmap in Hin as (e' & Hd' & He').
  exists x, e'. unfold descriptor in *. simplify_eq. done.
Qed.

Lemma wf_target_live u t : has_edge g u t → live g t.
Proof.
  unfold has_edge. intros (e & Hd & He)%list_elem_of_fmap.
  destruct Hwf as (_ & _ & Hed). rewrite Forall_forall in Hed.
  destruct (Hed e He) as [_ Ht]. unfold descriptor in Hd. by simplify_eq.
Qed.

Lemma has_edge_sym u t : has_edge g u t → has_edge g t u.
Proof.
  unfold has_edge. intros (e & Hd & He)%list_elem_of_fmap.
  unfold symmetric_edges in Hsym. rewrite Forall_forall in Hsym.
  unfold descriptor in Hd. simplify_eq. by apply Hsym.
Qed.

Lemma reachable_sym u v : reachable g u v → reachable g v u.
Proof.
  unfold reachable. induction 1 as [|a b c Hab _ IH]; [reflexivity|].
  eapply rtc_r; [exact IH|]. by apply has_edge_sym.
Qed.

Lemma closed_mono st st' u :
  vertices_unexplored st' ⊆ vertices_unexplored st → closed st u → closed st' u.
Proof. intros Hs Hc t Ht Hin. by apply (Hc t Ht), Hs. Qed.

(** When every explored vertex is closed, nothing unexplored is
    reachable from an explored vertex. *)
Lemma closed_reachable st a b :
  (∀ w, live g w → w ∉ vertices_unexplored st → closed st w) →
  reachable g a b → live g a → a ∉ vertices_unexplored st →
  b ∉ vertices_unexplored st.
Proof.
  intros Hcl. unfold reachable. induction 1 as [|a y b Hay _ IH]; intros Ha Hna.
  - exact Hna.
  - apply IH; [by eapply wf_target_live|]. by apply (Hcl a Ha Hna).
Qed.

Lemma forest_initialize : forest_inv (initialize g).
Proof.
  split.
  - intros v. rewrite initialize_vertices, elem_of_list_to_set. intros Hv.
    rewrite initialize_parent. by rewrite decide_True.
  - intros u t Hut. left. rewrite initialize_edges, elem_of_list_to_set. exact Hut.
  - intros v Hv Hn. exfalso. apply Hn.
    rewrite initialize_vertices, elem_of_list_to_set. exact Hv.
  - intros r1 r2 H1 Hn1 _ _ _. exfalso. apply Hn1.
    rewrite initialize_vertices, elem_of_list_to_set.
    apply (inv_dom _ inv_initialize). by eexists.
Qed.

(** A discovery: the edge (u, t) leads from the explored [u] to the
    unexplored [t]. *)
Lemma forest_discover u t st :
  forest_inv st → live g u → u ∉ vertices_unexplored st →
  t ∈ vertices_unexplored st → has_edge g u t →
  forest_inv (mark_vertex t (set_parent_wide t u (mark_edge (u, t) st))).
Proof.
  intros [Hs He Hr Ha] Hu Hnu Ht Hut. split; simpl.
  - intros v [Hv Hne%not_elem_of_singleton]%elem_of_difference.
    rewrite lookup_insert_ne by congruence. by apply Hs.
  - intros a b Hab. destruct (He a b Hab) as [Hin|Hnin].
    + destruct (decide ((a, b) = (u, t))) as [Heq|Hne].
      * right. simplify_eq. set_solver.
      * left. set_solver.
    + right. set_solver.
  - intros v Hv Hnv. destruct (decide (v = t)) as [->|Hne].
    + destruct (Hr u Hu Hnu) as (r & Hpr & Hnr & Hreach).
      exists r. split; [|split].
      * rewrite lookup_insert_ne; [exact Hpr|]. intros ->. done.
      * set_solver.
      * eapply rtc_r; [exact Hreach|exact Hut].
    + destruct (Hr v Hv) as (r & Hpr & Hnr & Hreach); [set_solver|].
      exists r. split; [|split].
      * rewrite lookup_insert_ne; [exact Hpr|]. intros ->. done.
      * set_solver.
      * exact Hreach.
  - assert (∀ r, <[t:=Z.of_N u]> (parent st) !! r = Some (-1) →
                 r ∉ vertices_unexplored st ∖ {[t]} →
                 parent st !! r = Some (-1) ∧ r ∉ vertices_unexplored st) as Hold.
    { intros r Hpr Hnr. destruct (decide (r = t)) as [->|Hne].
      - rewrite lookup_insert_eq in Hpr. injection Hpr. lia.
      - rewrite lookup_insert_ne in Hpr by congruence. split; [done|set_solver]. }
    intros r1 r2 H1 Hn1 H2 Hn2 Hreach.
    destruct (Hold r1 H1 Hn1), (Hold r2 H2 Hn2). by apply Ha.
Qed.

(** Marking an edge whose target is explored. *)
Lemma forest_mark_edge d st :
  forest_inv st → d.2 ∉ vertices_unexplored st → forest_inv (mark_edge d st).
Proof.
  intros [Hs He Hr Ha] Ht. split; simpl; try assumption.
  intros a b Hab. destruct (He a b Hab) as [Hin|Hnin]; [|by right].
  destruct (decide ((a, b) = d)) as [<-|Hne]; [by right|].
  left. set_solver.
Qed.

(** The start of a new tree at the unexplored [r], when every explored
    vertex is closed. *)
Lemma forest_new_root r st :
  inv st → forest_inv st → r ∈ vertices_unexplored st →
  (∀ w, live g w → w ∉ vertices_unexplored st → closed st w) →
  forest_inv (mark_vertex r st).
Proof.
  intros Hinv [Hs He Hr Ha] Hin Hcl. split; simpl.
  - intros v [Hv _]%elem_of_difference. by apply Hs.
  - intros a b Hab. destruct (He a b Hab); [by left|right; set_solver].
  - intros v Hv Hnv. destruct (decide (v = r)) as [->|Hne].
    + exists r. split; [by apply Hs|]. split; [set_solver|reflexivity].
    + destruct (Hr v Hv) as (r' & ? & ? & ?); [set_solver|].
      exists r'. split; [done|]. split; [set_solver|done].
  - assert (∀ a, parent st !! a = Some (-1) → a ∉ vertices_unexplored st →
                 ¬ reachable g a r) as Hfar.
    { intros a Hpa Hna Hreach.
      apply (closed_reachable st a r Hcl Hreach); [|exact Hna|exact Hin].
      apply (inv_dom _ Hinv). by eexists. }
    intros r1 r2 H1 Hn1 H2 Hn2 Hreach.
    destruct (decide (r1 = r)) as [->|Hne1]; destruct (decide (r2 = r)) as [->|Hne2].
    + reflexivity.
    + exfalso. apply (Hfar r2 H2); [set_solver|]. by apply reachable_sym.
    + exfalso. apply (Hfar r1 H1); [set_solver|]. exact Hreach.
    + apply Ha; [done|set_solver|done|set_solver|done].
Qed.

Lemma outer_initialize : outer_inv (initialize g).
Proof.
  split; [apply inv_initialize|apply forest_initialize|].
  intros w Hw Hn. exfalso. apply Hn.
  rewrite initialize_vertices, elem_of_list_to_set. exact Hw.
Qed.

(** *** Breadth-first search *)

Lemma bfs_inv_ok cur qs : bfs_inv cur qs → bfs_ok qs.
Proof. intros [Hi _ Hq _]. split; [exact Hi|]. intros w Hw. by apply Hq. Qed.

Lemma bfs_edge_forest (x : vertex VP EP) qs (e : edge EP) :
  x ∈ m_vertices g → e ∈ m_out_edges x →
  bfs_inv (Some (m_descriptor x)) qs →
  m_descriptor x ∉ vertices_unexplored qs.2 →
  bfs_inv (Some (m_descriptor x)) (bfs_edge_wide x qs e)
  ∧ m_target e ∉ vertices_unexplored (bfs_edge_wide x qs e).2.
Proof.
  intros Hx He [Hi Hf Hq Hc] Hnu.
  destruct (wf_out_edge x e Hx He) as [Hsrc Hedge].
  unfold bfs_edge_wide.
  destruct (decide (descriptor e ∈ _)) as [Hd|Hd].
  - destruct (decide (m_target e ∈ _)) as [Ht|Ht]; [|by split].
    assert (live g (m_target e)) as Hlive by (by apply (inv_unexplored _ Hi)).
    unfold descriptor. rewrite Hsrc. split; [split|]; simpl.
    + apply inv_mark_vertex, inv_set_parent; [apply inv_mark_edge|]; assumption.
    + apply forest_discover; try assumption. by apply vertex_live.
    + intros w [Hw| ->%list_elem_of_singleton]%elem_of_app.
      * destruct (Hq w Hw). split; [done|set_solver].
      * split; [done|set_solver].
    + intros w Hw Hnw. destruct (decide (w = m_target e)) as [->|Hne].
      * left. apply elem_of_app. right. apply list_elem_of_here.
      * destruct (Hc w Hw) as [Hin|[Hcur|Hcl]]; [set_solver| | |].
        -- left. apply elem_of_app. by left.
        -- right. by left.
        -- right. right. eapply closed_mono; [|exact Hcl].
           simpl. apply subseteq_difference_l. reflexivity.
    + set_solver.
  - split; [by split|].
    destruct (fi_edges _ Hf _ _ Hedge) as [Hin|Hn]; [|exact Hn].
    exfalso. apply Hd. unfold descriptor. by rewrite Hsrc.
Qed.

Lemma fold_bfs_edge_forest (x : vertex VP EP) (l : list (edge EP)) : ∀ qs,
  x ∈ m_vertices g → (∀ e, e ∈ l → e ∈ m_out_edges x) →
  bfs_inv (Some (m_descriptor x)) qs →
  m_descriptor x ∉ vertices_unexplored qs.2 →
  bfs_inv (Some (m_descriptor x)) (fold_left (bfs_edge_wide x) l qs)
  ∧ ∀ e, e ∈ l → m_target e ∉ vertices_unexplored (fold_left (bfs_edge_wide x) l qs).2.
Proof.
  induction l as [|e l IH]; intros qs Hx Hl Hinv Hnu; cbn [fold_left].
  - split; [exact Hinv|]. intros e He. by apply elem_of_nil in He.
  - destruct (bfs_edge_forest x qs e Hx) as [Hinv1 Ht1];
      [apply Hl, list_elem_of_here|exact Hinv|exact Hnu|].
    destruct (bfs_edge_ok x qs e (bfs_inv_ok _ _ Hinv)) as (_ & _ & Hs1).
    destruct (IH (bfs_edge_wide x qs e) Hx) as [Hinv2 Ht2].
    { intros e' He'. by apply Hl, list_elem_of_further. }
    { exact Hinv1. }
    { intros Hin. by apply Hnu, Hs1. }
    split; [exact Hinv2|].
    intros e' [-> |He']%elem_of_cons; [|by apply Ht2].
    destruct (fold_bfs_edge_ok x l (bfs_edge_wide x qs e) (bfs_inv_ok _ _ Hinv1))
      as (_ & _ & Hs2).
    intros Hin. by apply Ht1, Hs2.
Qed.

(** After the walk of its adjacency list, the dequeued vertex is closed. *)
Lemma bfs_adjacency_forest (x : vertex VP EP) q st :
  x ∈ m_vertices g →
  bfs_inv None (m_descriptor x :: q, st) →
  bfs_inv None (fold_left (bfs_edge_wide x) (m_out_edges x) (q, st)).
Proof.
  intros Hx [Hi Hf Hq Hc]. simpl in *.
  destruct (Hq (m_descriptor x)) as [Hlive Hnu]; [apply list_elem_of_here|].
  destruct (fold_bfs_edge_forest x (m_out_edges x) (q, st) Hx) as [[Hi' Hf' Hq' Hc'] Ht].
  - done.
  - split; simpl; [done|done| |].
    + intros w Hw. by apply Hq, list_elem_of_further.
    + intros w Hw Hnw. destruct (Hc w Hw Hnw) as [Hin|[?|?]]; [|done|by right; right].
      apply elem_of_cons in Hin as [->|Hin]; [right|]; by left.
  - exact Hnu.
  - split; [done|done|done|].
    intros w Hw Hnw. destruct (Hc' w Hw Hnw) as [Hin|[Hcur|Hcl]].
    + by left.
    + right. right. injection Hcur as <-. intros t Hut.
      destruct (wf_edge_listed _ _ Hut) as (y & e & Hy & Hyd & He & <-).
      assert (y = x) as -> by (by apply vertex_unique).
      by apply Ht.
    + by right; right.
Qed.

Lemma bfs_while_forest fuel : ∀ qs st',
  bfs_while_wide fuel g qs = Some st' → bfs_inv None qs → bfs_inv None ([], st').
Proof.
  induction fuel as [|fuel IH]; intros [[|vd q] st] st' Hrun Hinv; simpl in Hrun.
  - by simplify_eq.
  - discriminate.
  - by simplify_eq.
  - destruct (find_vertex vd g) as [x|] eqn:Hfind; [|discriminate].
    apply find_vertex_Some in Hfind as [<- Hx].
    apply (IH _ _ Hrun). by apply bfs_adjacency_forest.
Qed.

Lemma bfs_while_subseteq fuel : ∀ qs st',
  bfs_while_wide fuel g qs = Some st' → bfs_ok qs →
  vertices_unexplored st' ⊆ vertices_unexplored qs.2.
Proof.
  induction fuel as [|fuel IH]; intros [[|vd q] st] st' Hrun Hok; simpl in Hrun.
  - by simplify_eq.
  - discriminate.
  - by simplify_eq.
  - destruct (find_vertex vd g) as [x|] eqn:Hfind; [|discriminate].
    destruct (fold_bfs_edge_ok x (m_out_edges x) (q, st)) as (Hok' & _ & Hs).
    { destruct Hok as [Hi Hq]. split; [exact Hi|].
      intros w Hw. by apply Hq, list_elem_of_further. }
    etrans; [apply (IH _ _ Hrun Hok')|exact Hs].
Qed.

Lemma bfs_component_forest fuel st st' (x : vertex VP EP) :
  x ∈ m_vertices g →
  bfs_component_wide fuel g (Some st) x = Some st' → outer_inv st →
  outer_inv st' ∧ (m_descriptor x ∉ vertices_unexplored st')
  ∧ vertices_unexplored st' ⊆ vertices_unexplored st.
Proof.
  intros Hx Hrun [Hi Hf Hc]. unfold bfs_component_wide in Hrun; simpl in Hrun.
  destruct (decide (m_descriptor x ∈ _)) as [Hu|Hu]; [|by simplify_eq].
  assert (bfs_inv None ([m_descriptor x], mark_vertex (m_descriptor x) st)) as Hstart.
  { split; simpl.
    - by apply inv_mark_vertex.
    - by apply forest_new_root.
    - intros w ->%list_elem_of_singleton. split; [by apply vertex_live|set_solver].
    - intros w Hw Hnw. destruct (decide (w = m_descriptor x)) as [->|Hne].
      + left. apply list_elem_of_here.
      + right. right. eapply closed_mono; [|apply (Hc w Hw); set_solver].
        simpl. apply subseteq_difference_l. reflexivity. }
  pose proof (bfs_while_subseteq _ _ _ Hrun (bfs_inv_ok _ _ Hstart)) as Hs.
  simpl in Hs.
  destruct (bfs_while_forest _ _ _ Hrun Hstart) as [Hi' Hf' _ Hc']. simpl in *.
  split; [split; [done|done|]|split; [set_solver|set_solver]].
  intros w Hw Hnw. destruct (Hc' w Hw Hnw) as [Hin|[?|?]]; [|done|done].
  by apply elem_of_nil in Hin.
Qed.

(** *** Depth-first search *)

Lemma fold_dfs_edge_forest visit (x : vertex VP EP) (l : list (edge EP)) :
  visit_spec visit → x ∈ m_vertices g →
  ∀ st st',
    (∀ e, e ∈ l → e ∈ m_out_edges x) →
    fold_left (dfs_edge_wide visit (m_descriptor x)) l (Some st) = Some st' →
    inv st → forest_inv st → m_descriptor x ∉ vertices_unexplored st →
    inv st' ∧ forest_inv st'
    ∧ vertices_unexplored st' ⊆ vertices_unexplored st
    ∧ (∀ e, e ∈ l → m_target e ∉ vertices_unexplored st')
    ∧ ∀ w, w ∈ vertices_unexplored st → w ∉ vertices_unexplored st' → closed st' w.
Proof.
  intros Hvisit Hx. induction l as [|e l IH]; intros st st' Hl Hrun Hi Hf Hnu;
    cbn [fold_left] in Hrun.
  - simplify_eq. split; [done|]. split; [done|]. split; [done|].
    split; [intros e He; by apply elem_of_nil in He|]. intros w Hw Hnw. done.
  - destruct (wf_out_edge x e Hx) as [Hsrc Hedge]; [apply Hl, list_elem_of_here|].
    assert (∀ e', e' ∈ l → e' ∈ m_out_edges x) as Hl'
      by (intros e' He'; by apply Hl, list_elem_of_further).
    destruct (dfs_edge_cases visit (m_descriptor x) st e)
      as [(Hd & Heq)|[(Hd & Ht & Heq)|(Hd & Ht & Heq)]]; rewrite Heq in Hrun.
    + destruct (IH st st' Hl' Hrun Hi Hf Hnu) as (Hi' & Hf' & Hs' & Ht' & Hc').
      split; [done|]. split; [done|]. split; [done|]. split; [|done].
      intros e' [-> |He']%elem_of_cons; [|by apply Ht'].
      destruct (fi_edges _ Hf _ _ Hedge) as [Hin|Hn].
      * exfalso. apply Hd. unfold descriptor. by rewrite Hsrc.
      * intros Hin. by apply Hn, Hs'.
    + destruct (IH (mark_edge (descriptor e) st) st' Hl' Hrun)
        as (Hi' & Hf' & Hs' & Ht' & Hc').
      { by apply inv_mark_edge. }
      { by apply forest_mark_edge. }
      { exact Hnu. }
      split; [done|]. split; [done|]. split; [done|]. split; [|done].
      intros e' [-> |He']%elem_of_cons; [|by apply Ht'].
      intros Hin. by apply Ht, Hs'.
    + destruct (visit (m_target e) _) as [st1|] eqn:Hv;
        [|by rewrite fold_dfs_edge_None in Hrun].
      assert (live g (m_target e)) as Hlive by (by apply (inv_unexplored _ Hi)).
      destruct (Hvisit _ _ _ Hv Hlive) as (Hi1 & Hf1 & Hs1 & Hc1 & Hn1).
      { apply inv_mark_vertex, inv_set_parent; [by apply inv_mark_edge|done]. }
      { unfold descriptor. rewrite Hsrc.
        apply forest_discover; try done. by apply vertex_live. }
      simpl in Hs1, Hn1.
      destruct (IH st1 st' Hl' Hrun Hi1 Hf1) as (Hi' & Hf' & Hs' & Ht' & Hc').
      { set_solver. }
      split; [done|]. split; [done|]. split; [set_solver|]. split.
      * intros e' [-> |He']%elem_of_cons; [|by apply Ht'].
        intros Hin. apply Hs', Hs1 in Hin. set_solver.
      * intros w Hw Hnw. destruct (decide (w ∈ vertices_unexplored st1)) as [Hw1|Hw1].
        -- by apply Hc'.
        -- eapply closed_mono; [exact Hs'|]. by apply Hn1.
Qed.

Lemma dfs_visit_forest fuel : visit_spec (dfs_visit_wide fuel g).
Proof.
  induction fuel as [|fuel IH]; intros u st st' Hrun Hu Hi Hf; [discriminate|].
  cbn [dfs_visit_wide] in Hrun.
  destruct (find_vertex u g) as [x|] eqn:Hfind; [|discriminate].
  apply find_vertex_Some in Hfind as [<- Hx].
  destruct (fold_dfs_edge_forest _ x (m_out_edges x) IH Hx _ _ (λ e He, He) Hrun Hi Hf)
    as (Hi' & Hf' & Hs' & Ht' & Hc'); [simpl; set_solver|].
  simpl in Hs', Hc'.
  assert (closed st' (m_descriptor x)) as Hclosed.
  { intros t Hut. destruct (wf_edge_listed _ _ Hut) as (y & e & Hy & Hyd & He & <-).
    assert (y = x) as -> by (by apply vertex_unique). by apply Ht'. }
  split; [done|]. split; [done|]. split; [done|]. split; [done|].
  intros w Hw Hnw. destruct (decide (w = m_descriptor x)) as [->|Hne]; [done|].
  apply Hc'; [set_solver|done].
Qed.

Lemma dfs_component_forest fuel st st' (x : vertex VP EP) :
  x ∈ m_vertices g →
  dfs_component_wide fuel g (Some st) x = Some st' → outer_inv st →
  outer_inv st' ∧ (m_descriptor x ∉ vertices_unexplored st')
  ∧ vertices_unexplored st' ⊆ vertices_unexplored st.
Proof.
  intros Hx Hrun [Hi Hf Hc]. unfold dfs_component_wide in Hrun; simpl in Hrun.
  destruct (decide (m_descriptor x ∈ _)) as [Hu|Hu]; [|by simplify_eq].
  destruct (dfs_visit_forest fuel _ _ _ Hrun) as (Hi' & Hf' & Hs' & Hc' & Hn').
  - by apply vertex_live.
  - by apply inv_mark_vertex.
  - by apply forest_new_root.
  - split; [split; [done|done|]|split; [set_solver|set_solver]].
    intros w Hw Hnw. destruct (decide (w ∈ vertices_unexplored st)) as [Hin|Hin].
    + by apply Hn'.
    + eapply closed_mono; [|by apply Hc]. set_solver.
Qed.

(** *** The loop over the components, for both searches *)

Lemma fold_component_forest
    (comp : option search_state → vertex VP EP → option search_state)
    (l : list (vertex VP EP)) :
  (∀ x, comp None x = None) →
  (∀ st st' x, x ∈ m_vertices g → comp (Some st) x = Some st' → outer_inv st →
     outer_inv st' ∧ (m_descriptor x ∉ vertices_unexplored st')
     ∧ vertices_unexplored st' ⊆ vertices_unexplored st) →
  ∀ st st',
    (∀ x, x ∈ l → x ∈ m_vertices g) →
    fold_left comp l (Some st) = Some st' → outer_inv st →
    outer_inv st' ∧ vertices_unexplored st' ⊆ vertices_unexplored st
    ∧ ∀ x, x ∈ l → m_descriptor x ∉ vertices_unexplored st'.
Proof.
  intros Hnone Hcomp. induction l as [|x l IH]; intros st st' Hl Hrun Hinv;
    cbn [fold_left] in Hrun.
  - simplify_eq. split; [done|]. split; [done|].
    intros x Hx. by apply elem_of_nil in Hx.
  - destruct (comp (Some st) x) as [st1|] eqn:Hc.
    + destruct (Hcomp _ _ _ (Hl x (list_elem_of_here _ _)) Hc Hinv) as (Hinv1 & Hx1 & Hs1).
      destruct (IH st1 st') as (Hinv' & Hs' & Hl'); [|done|done|].
      { intros y Hy. by apply Hl, list_elem_of_further. }
      split; [done|]. split; [set_solver|].
      intros y [-> |Hy]%elem_of_cons; [set_solver|by apply Hl'].
    + exfalso. clear -Hrun Hnone. induction l as [|y l IHl]; [discriminate|].
      cbn [fold_left] in Hrun. rewrite Hnone in Hrun. by apply IHl.
Qed.

Lemma search_forest
    (comp : option search_state → vertex VP EP → option search_state) st :
  (∀ x, comp None x = None) →
  (∀ st st' x, x ∈ m_vertices g → comp (Some st) x = Some st' → outer_inv st →
     outer_inv st' ∧ (m_descriptor x ∉ vertices_unexplored st')
     ∧ vertices_unexplored st' ⊆ vertices_unexplored st) →
  fold_left comp (m_vertices g) (Some (initialize g)) = Some st →
  forest_inv st ∧ ∀ v, v ∉ vertices_unexplored st.
Proof.
  intros Hnone Hcomp Hrun.
  destruct (fold_component_forest comp (m_vertices g) Hnone Hcomp _ _
              (λ x Hx, Hx) Hrun outer_initialize) as ([Hi Hf _] & _ & Hall).
  split; [exact Hf|]. intros v Hv.
  pose proof (inv_unexplored _ Hi v Hv) as Hlive. unfold live in Hlive.
  apply list_elem_of_fmap in Hlive as (x & -> & Hx). by apply (Hall x Hx).
Qed.

Lemma bfs_run_forest st :
  bfs_run_wide g = Some st → forest_inv st ∧ ∀ v, v ∉ vertices_unexplored st.
Proof.
  apply search_forest; [reflexivity|].
  intros st0 st' x. apply bfs_component_forest.
Qed.

Lemma dfs_run_forest st :
  dfs_run_wide g = Some st → forest_inv st ∧ ∀ v, v ∉ vertices_unexplored st.
Proof.
  apply search_forest; [reflexivity|].
  intros st0 st' x. apply dfs_component_forest.
Qed.

End Forest.

End Search.

(** ** Counting components *)

Section Components.

Context {VP EP : Type}.
Variable g : graph VP EP.

(** A relation that maps the distinct elements of [l1] to elements of
    [l2], no two to the same, shows that [l1] is no longer than [l2]. *)
Lemma injection_length {A : Type} (R : relation A) (l1 : list A) : ∀ l2 : list A,
  NoDup l1 →
  (∀ a, a ∈ l1 → ∃ b, b ∈ l2 ∧ R a b) →
  (∀ a a' b, a ∈ l1 → a' ∈ l1 → R a b → R a' b → a = a') →
  (length l1 ≤ length l2)%nat.
Proof.
  induction l1 as [|a l1 IH]; intros l2 Hnd Hmap Hinj; simpl; [lia|].
  apply NoDup_cons in Hnd as [Ha Hnd].
  destruct (Hmap a (list_elem_of_here _ _)) as (b & Hb & Rab).
  apply list_elem_of_split in Hb as (k1 & k2 & ->).
  rewrite length_app; simpl.
  assert (length l1 ≤ length (k1 ++ k2))%nat as Hle.
  { apply IH; [exact Hnd| |].
    - intros a' Ha'.
      destruct (Hmap a' (list_elem_of_further _ _ _ Ha')) as (b' & Hb' & Rab').
      exists b'. split; [|exact Rab'].
      apply elem_of_app in Hb' as [Hb'|[-> |Hb']%elem_of_cons];
        apply elem_of_app; [by left| |by right].
      exfalso. apply Ha.
      rewrite (Hinj a a' b (list_elem_of_here _ _) (list_elem_of_further _ _ _ Ha') Rab Rab').
      exact Ha'.
    - intros x y z Hx Hy. apply Hinj; by apply list_elem_of_further. }
  rewrite length_app in Hle. lia.
Qed.

Lemma representatives_le (R : relation N) (l1 l2 : list N) :
  Symmetric R → Transitive R →
  representatives g R l1 → representatives g R l2 →
  (length l1 ≤ length l2)%nat.
Proof.
  intros Hsym Htrans (Hnd1 & Hlive1 & _ & Hapart1) (_ & _ & Hcover2 & _).
  apply (injection_length R); [exact Hnd1| |].
  - intros a Ha. destruct (Hcover2 a (Hlive1 a Ha)) as (b & Hb & Rba).
    exists b. split; [exact Hb|]. by apply Hsym.
  - intros a a' b Ha Ha' Rab Ra'b. apply Hapart1; [done|done|].
    eapply Htrans; [exact Rab|]. by apply Hsym.
Qed.

Lemma representatives_length (R : relation N) (l1 l2 : list N) :
  Symmetric R → Transitive R →
  representatives g R l1 → representatives g R l2 → length l1 = length l2.
Proof.
  intros Hsym Htrans H1 H2.
  pose proof (representatives_le R l1 l2 Hsym Htrans H1 H2).
  pose proof (representatives_le R l2 l1 Hsym Htrans H2 H1). lia.
Qed.

Lemma connected_sym : Symmetric (connected g).
Proof. intros u v [? ?]. by split. Qed.

Lemma connected_trans : Transitive (connected g).
Proof.
  intros u v w [Huv Hvu] [Hvw Hwv]. unfold reachable in *.
  split; etrans; eassumption.
Qed.

(** The number of connected components is unique. *)
Lemma has_components_unique (K1 K2 : nat) :
  has_components g K1 → has_components g K2 → K1 = K2.
Proof.
  intros (l1 & H1 & <-) (l2 & H2 & <-).
  apply (representatives_length (connected g)); auto using connected_sym, connected_trans.
Qed.

Lemma elem_of_roots p r : r ∈ roots p ↔ p !! r = Some (-1).
Proof.
  unfold roots, sentinel_entries. rewrite list_elem_of_fmap. split.
  - intros ([r' z] & -> & Hin). apply elem_of_map_to_list in Hin.
    apply map_lookup_filter_Some in Hin as [Hp Hz]. simpl in *. by subst.
  - intros Hp. exists (r, -1). split; [reflexivity|].
    apply elem_of_map_to_list, map_lookup_filter_Some. done.
Qed.

Lemma NoDup_roots p : NoDup (roots p).
Proof. apply NoDup_fst_map_to_list. Qed.

Lemma length_roots p : length (roots p) = num_sentinel p.
Proof. unfold roots, num_sentinel. by rewrite length_fmap, length_map_to_list. Qed.

(** At the end of a search of a well-formed graph with symmetric edges,
    the sentinel entries are one per connected component. *)
Lemma forest_components st :
  well_formed g → symmetric_edges g →
  inv g st → forest_inv g st → (∀ v, v ∉ vertices_unexplored st) →
  one_root_per_component g (parent st)
  ∧ has_components g (num_sentinel (parent st)).
Proof.
  intros Hwf Hsym Hi Hf Hall. split.
  - intros v Hv. destruct (fi_rooted _ _ Hf v Hv (Hall v)) as (r & Hpr & _ & Hreach).
    exists r. split; [exact Hpr|]. split.
    + split; [exact Hreach|]. by apply reachable_sym.
    + intros r' Hpr' [Hreach' _].
      apply (fi_apart _ _ Hf); [done|apply Hall|done|apply Hall|].
      unfold reachable in *. etrans; [exact Hreach'|].
      by apply (reachable_sym g Hsym).
  - exists (roots (parent st)). split; [|apply length_roots].
    split; [apply NoDup_roots|]. split; [|split].
    + intros r Hr%elem_of_roots. apply (inv_dom _ _ Hi). by eexists.
    + intros v Hv. destruct (fi_rooted _ _ Hf v Hv (Hall v)) as (r & Hpr & _ & Hreach).
      exists r. split; [by apply elem_of_roots|].
      split; [exact Hreach|]. by apply (reachable_sym g Hsym).
    + intros r1 r2 H1%elem_of_roots H2%elem_of_roots [Hreach _].
      apply (fi_apart _ _ Hf); [done|apply Hall|done|apply Hall|done].
  Qed.

Lemma parent_map_empty (p : gmap N Z) :
  (∀ v, is_Some (p !! v) ↔ live g v) → m_vertices g = [] → p = ∅.
Proof.
  intros Hdom Hnil. apply map_empty. intros v.
  destruct (p !! v) eqn:Hp; [|reflexivity].
  exfalso. assert (live g v) as Hv by (apply Hdom; by eexists).
  unfold live in Hv. rewrite Hnil in Hv. by apply elem_of_nil in Hv.
Qed.

End Components.

(** ** The searches on concrete graphs *)

Lemma scenario_well_formed : well_formed scenario.
Proof. apply (bool_decide_unpack _). vm_compute. exact I. Qed.

Lemma scenario_symmetric : symmetric_edges scenario.
Proof. apply (bool_decide_unpack _). vm_compute. exact I. Qed.

Lemma one_way_has_edge (u t : N) :
  has_edge one_way u t → (u = 0%N ∨ u = 2%N) ∧ t = 1%N.
Proof.
  unfold has_edge, one_way, descriptor; simpl.
  rewrite !elem_of_cons, elem_of_nil. intros [H|[H|[]]]; simplify_eq; auto.
Qed.

Lemma one_way_reachable (a b : N) : reachable one_way a b → a = b ∨ b = 1%N.
Proof.
  unfold reachable. induction 1 as [|a y b Hay _ IH]; [by left|]. right.
  apply one_way_has_edge in Hay as [_ ->]. by destruct IH.
Qed.

Lemma one_way_connected (a b : N) : connected one_way a b → a = b.
Proof.
  intros [Hab%one_way_reachable Hba%one_way_reachable].
  destruct Hab as [?| ->]; [done|]. by destruct Hba.
Qed.

(** C5 fails as stated: the graph with the one-way edges 0 -> 1 and 2 -> 1
    satisfies the invariants of the data model and has three connected
    components, {0}, {1} and {2} (a single one when the direction of the
    edges is ignored), but both searches return a parent map with two
    sentinel entries. *)
Lemma one_way_two_roots :
  well_formed one_way
  ∧ has_components one_way 3
  ∧ representatives one_way (weakly_connected one_way) [0%N]
  ∧ ∃ pb pd : gmap N Z,
      breadth_first_search one_way ∅ = Some pb
      ∧ depth_first_search one_way ∅ = Some pd
      ∧ num_sentinel pb = 2%nat ∧ num_sentinel pd = 2%nat
      ∧ num_sentinel pb ≠ 3%nat ∧ num_sentinel pb ≠ 1%nat.
Proof.
  split; [apply (bool_decide_unpack _); vm_compute; exact I|]. split; [|split].
  - exists [0%N; 1%N; 2%N]. split; [|reflexivity]. split; [|split; [|split]].
    + apply (bool_decide_unpack _). vm_compute. exact I.
    + intros r Hr. unfold live, one_way; simpl. exact Hr.
    + intros v Hv. exists v. split; [exact Hv|]. split; reflexivity.
    + intros r1 r2 _ _. apply one_way_connected.
  - split; [|split; [|split]].
    + apply NoDup_singleton.
    + intros r ->%list_elem_of_singleton. apply (bool_decide_unpack _).
      vm_compute. exact I.
    + intros v Hv. exists 0%N. split; [apply list_elem_of_here|].
      assert (has_edge one_way 0 1) as H01
        by (unfold has_edge; apply (bool_decide_unpack _); vm_compute; exact I).
      assert (has_edge one_way 2 1) as H21
        by (unfold has_edge; apply (bool_decide_unpack _); vm_compute; exact I).
      unfold live, one_way in Hv; simpl in Hv.
      rewrite !elem_of_cons, elem_of_nil in Hv.
      destruct Hv as [-> |[-> |[-> |[]]]]; unfold weakly_connected.
      * reflexivity.
      * by apply rtsc_lr.
      * eapply rtc_l; [left; exact H01|]. by apply rtsc_rl.
    + by intros r1 r2 ->%list_elem_of_singleton ->%list_elem_of_singleton _.
  - exists (<[0%N:=(-1)]> (<[1%N:=0]> (<[2%N:=(-1)]> ∅))),
           (<[0%N:=(-1)]> (<[1%N:=0]> (<[2%N:=(-1)]> ∅))).
    split; [vm_compute; reflexivity|]. split; [vm_compute; reflexivity|].
    split; [vm_compute; reflexivity|]. split; [vm_compute; reflexivity|].
    split; vm_compute; discriminate.
Qed.

(** ** More properties of the set graph *)

Module IntGraphMore.
Import IntGraph IntGraphCalls.

Lemma graph_eq (g h : graph) :
  vertices g = vertices h → edges g = edges h → g = h.
Proof. destruct g, h; simpl. by intros -> ->. Qed.

Lemma exec_op_run (o : op) (g : graph) : run_op o g = Returned (tt, exec_op o g).
Proof. unfold exec_op. by destruct o. Qed.

Lemma exec_op_no_dangling (o : op) (g : graph) :
  no_dangling g → guarded o g → no_dangling (exec_op o g).
Proof.
  intros Hnd Hg. destruct o as [v|v|v1 v2|v1 v2]; unfold exec_op; simpl; intros a b; simpl.
  - intros Hab. destruct (Hnd a b Hab). split; apply elem_of_union; by right.
  - rewrite IntGraphFacts.elem_of_erased_edges; simpl. intros (Hab & Ha & Hb).
    destruct (Hnd a b Hab). rewrite !elem_of_difference, !elem_of_singleton. done.
  - destruct Hg as [H1 H2]. rewrite !elem_of_union, !elem_of_singleton.
    intros [?|[?|Hab]]; simplify_eq; [done|done|]. by apply Hnd.
  - rewrite !elem_of_difference. intros [[Hab _] _]. by apply Hnd.
Qed.

(** X1: when the graph has no dangling edge and every insertEdge of a
    sequence of modifier calls names two vertices the graph holds at that
    moment, the sequence returns and leaves a graph without dangling edge:
    eraseVertex takes the edges of the vertex with it. *)
Theorem guarded_ops_no_dangling (os : list op) (g : graph) :
  no_dangling g → guarded_ops os g →
  ∃ g', run_ops os g = Returned (tt, g') ∧ no_dangling g'.
Proof.
  revert g. induction os as [|o os IH]; intros g Hnd Hg; simpl.
  - exists g. done.
  - destruct Hg as [Ho Hos].
    destruct (IH (exec_op o g)) as (g' & Hrun & Hnd');
      [by apply exec_op_no_dangling|exact Hos|].
    exists g'. split; [|exact Hnd'].
    unfold mbind, method_bind. by rewrite exec_op_run.
Qed.

Lemma guarded_ops_no_dangling_main :
  no_dangling empty ∧ guarded_ops main_ops empty
  ∧ ∃ g', run_ops main_ops empty = Returned (tt, g') ∧ no_dangling g'.
Proof.
  assert (no_dangling empty) as Hnd.
  { intros u v Huv. simpl in Huv. by apply elem_of_empty in Huv. }
  assert (guarded_ops main_ops empty) as Hg.
  { unfold main_ops, exec_op; simpl. repeat split; set_solver. }
  split; [exact Hnd|]. split; [exact Hg|].
  exact (guarded_ops_no_dangling main_ops empty Hnd Hg).
Defined.

(** X2: insertEdge(v1, v2) followed by eraseEdge(v1, v2) leaves what
    eraseEdge(v1, v2) alone leaves, an edge present before included; it gives
    the graph back when neither (v1,v2) nor (v2,v1) was an edge. *)
Theorem insertEdge_eraseEdge (v1 v2 : Z) (g : graph) :
  (insertEdge v1 v2;; eraseEdge v1 v2) g = eraseEdge v1 v2 g
  ∧ ((v1, v2) ∉ edges g → (v2, v1) ∉ edges g →
     (insertEdge v1 v2;; eraseEdge v1 v2) g = Returned (tt, g)).
Proof.
  split.
  - unfold mbind, method_bind.
    rewrite IntGraphFacts.insertEdge_returns, !IntGraphFacts.eraseEdge_returns.
    do 2 f_equal. apply graph_eq; simpl; [reflexivity|]. set_solver.
  - intros H1 H2. unfold mbind, method_bind.
    rewrite IntGraphFacts.insertEdge_returns, !IntGraphFacts.eraseEdge_returns.
    do 2 f_equal. apply graph_eq; simpl; [reflexivity|]. set_solver.
Qed.

Lemma insertEdge_eraseEdge_fresh :
  ((1, 2) ∉ edges empty) ∧ ((2, 1) ∉ edges empty)
  ∧ (insertEdge 1 2;; eraseEdge 1 2) empty = Returned (tt, empty).
Proof.
  assert ((1, 2) ∉ edges empty) as H1 by apply not_elem_of_empty.
  assert ((2, 1) ∉ edges empty) as H2 by apply not_elem_of_empty.
  split; [exact H1|]. split; [exact H2|].
  exact (proj2 (insertEdge_eraseEdge 1 2 empty) H1 H2).
Defined.

(** X3: calling a modifier twice with the same arguments leaves what one
    call leaves, and insertEdge and eraseEdge do not depend on the order of
    the two endpoints. *)
Theorem modifiers_idempotent (o : op) (v1 v2 : Z) (g : graph) :
  (run_op o;; run_op o) g = run_op o g
  ∧ insertEdge v1 v2 g = insertEdge v2 v1 g
  ∧ eraseEdge v1 v2 g = eraseEdge v2 v1 g.
Proof.
  split; [|split].
  - destruct o as [v|v|a b|a b]; unfold mbind, method_bind; simpl.
    + rewrite !IntGraphFacts.insertVertex_returns. do 2 f_equal.
      apply graph_eq; simpl; [set_solver|reflexivity].
    + rewrite !IntGraphFacts.eraseVertex_returns. do 2 f_equal.
      apply graph_eq; simpl; [set_solver|].
      apply set_eq. intros e. rewrite !elem_of_filter. simpl. tauto.
    + rewrite !IntGraphFacts.insertEdge_returns. do 2 f_equal.
      apply graph_eq; simpl; [reflexivity|set_solver].
    + rewrite !IntGraphFacts.eraseEdge_returns. do 2 f_equal.
      apply graph_eq; simpl; [reflexivity|set_solver].
  - rewrite !IntGraphFacts.insertEdge_returns. do 2 f_equal.
    apply graph_eq; simpl; [reflexivity|set_solver].
  - rewrite !IntGraphFacts.eraseEdge_returns. do 2 f_equal.
    apply graph_eq; simpl; [reflexivity|set_solver].
Qed.

End IntGraphMore.

(** ** Lookup and comparison in the templated graph *)

Section LookupFacts.

Context {VP EP : Type}.
Implicit Types (g : graph VP EP) (x : vertex VP EP) (e f : edge EP).

Lemma find_edge_Some ed g e :
  find_edge ed g = Some e → descriptor e = ed ∧ e ∈ m_edges g.
Proof.
  unfold find_edge. intros Hf. apply find_some in Hf as [Hin Hd].
  apply bool_decide_eq_true in Hd. split; [exact Hd|]. by apply list_elem_of_In.
Qed.

Lemma find_edge_None ed g :
  find_edge ed g = None ↔ ed ∉ descriptor <$> m_edges g.
Proof.
  unfold find_edge. split.
  - intros Hf (e & -> & He)%list_elem_of_fmap. apply list_elem_of_In in He.
    pose proof (find_none _ _ Hf e He) as Hn. simpl in Hn.
    by rewrite bool_decide_eq_false in Hn.
  - intros Hn. destruct (find _ _) as [e|] eqn:Hf; [|reflexivity].
    exfalso. apply find_some in Hf as [Hin Hd].
    apply bool_decide_eq_true in Hd. apply Hn. rewrite <- Hd.
    apply list_elem_of_fmap_2. by apply list_elem_of_In.
Qed.

(** X4: find_vertex(vd) returns end() exactly when no stored vertex has the
    descriptor vd; the vertex it returns otherwise is stored in the graph
    and has the descriptor vd; and when no two stored vertices share a
    descriptor, every stored vertex is the one found under its descriptor.
    find_edge behaves the same way on edge descriptors. *)
Theorem find_vertex_edge_lookup g (vd : N) (ed : N * N) :
  (find_vertex vd g = None ↔ ¬ live g vd)
  ∧ (∀ x, find_vertex vd g = Some x → m_descriptor x = vd ∧ x ∈ m_vertices g)
  ∧ (NoDup (m_descriptor <$> m_vertices g) →
     ∀ x, x ∈ m_vertices g → find_vertex (m_descriptor x) g = Some x)
  ∧ (find_edge ed g = None ↔ ed ∉ descriptor <$> m_edges g)
  ∧ (∀ e, find_edge ed g = Some e → descriptor e = ed ∧ e ∈ m_edges g).
Proof.
  split; [|split; [|split; [|split]]].
  - split.
    + intros Hnone Hlive. destruct (find_vertex_live g vd Hlive) as (x & Hx & _).
      congruence.
    + intros Hn. destruct (find_vertex vd g) as [x|] eqn:Hf; [|reflexivity].
      exfalso. apply Hn. apply find_vertex_Some in Hf as [<- Hx].
      by apply vertex_live.
  - intros x. apply find_vertex_Some.
  - intros Hnd x Hx.
    destruct (find_vertex_live g (m_descriptor x) (vertex_live g x Hx))
      as (y & Hy & Hyd & Hyin).
    rewrite Hy. f_equal. by apply (NoDup_fmap_eq m_descriptor (m_vertices g)).
  - apply find_edge_None.
  - intros e. apply find_edge_Some.
Qed.

Lemma pair_lt_spec (a b : N * N) :
  pair_lt a b = true ↔ (a.1 < b.1 ∨ (a.1 = b.1 ∧ a.2 < b.2))%N.
Proof.
  unfold pair_lt. rewrite orb_true_iff, andb_true_iff, negb_true_iff.
  rewrite !N.ltb_lt, N.ltb_ge. lia.
Qed.

(** X5: edge_comp is a strict total order on edge descriptors that agrees
    with edge_eq: it is irreflexive and transitive, and of edge_comp(e,f),
    edge_eq(e,f) and edge_comp(f,e) exactly one holds; edge_eq holds exactly
    for edges with the same source and target, whatever their properties. *)
Theorem edge_comp_strict_order e f h :
  edge_comp e e = false
  ∧ (edge_comp e f = true → edge_comp f h = true → edge_comp e h = true)
  ∧ (edge_comp e f = true ∨ edge_eq e f = true ∨ edge_comp f e = true)
  ∧ ¬ (edge_comp e f = true ∧ edge_eq e f = true)
  ∧ ¬ (edge_comp e f = true ∧ edge_comp f e = true)
  ∧ (edge_eq e f = true ↔ m_source e = m_source f ∧ m_target e = m_target f).
Proof.
  unfold edge_comp, edge_eq.
  rewrite !bool_decide_eq_true, !pair_lt_spec.
  destruct (pair_lt (descriptor e) (descriptor e)) eqn:Hee.
  { apply pair_lt_spec in Hee. lia. }
  unfold descriptor in *; simpl.
  split; [reflexivity|]. split; [lia|]. split.
  - destruct (N.lt_total (m_source e) (m_source f)) as [?|[?|?]];
      destruct (N.lt_total (m_target e) (m_target f)) as [?|[?|?]];
      try (by left; lia); try (by right; right; lia).
    right. left. congruence.
  - split; [intros [? ?]; simplify_eq; lia|]. split; [lia|].
    split; [intros ?; by simplify_eq|]. intros [-> ->]. reflexivity.
Qed.

End LookupFacts.

Lemma find_vertex_edge_lookup_scenario :
  NoDup (m_descriptor <$> m_vertices scenario)
  ∧ ∀ x, x ∈ m_vertices scenario → find_vertex (m_descriptor x) scenario = Some x.
Proof.
  assert (NoDup (m_descriptor <$> m_vertices scenario)) as Hnd
    by (apply (bool_decide_unpack _); vm_compute; exact I).
  split; [exact Hnd|].
  exact (proj1 (proj2 (proj2 (find_vertex_edge_lookup scenario 0%N (0%N, 0%N)))) Hnd).
Defined.

Lemma edge_comp_strict_order_scenario :
  edge_comp e01 e10 = true ∧ edge_comp e10 e12 = true ∧ edge_comp e01 e12 = true.
Proof.
  assert (edge_comp e01 e10 = true) as H1 by reflexivity.
  assert (edge_comp e10 e12 = true) as H2 by reflexivity.
  split; [exact H1|]. split; [exact H2|].
  exact (proj1 (proj2 (edge_comp_strict_order e01 e10 e12)) H1 H2).
Defined.

(** ** Properties of the adjacency-vector graph *)

Module AdjListFacts.
Import AdjList.

Lemma row_in_range g u : in_range g u → g !! Z.to_nat u = Some (row g u).
Proof.
  intros [H0 Hlt]. unfold row.
  destruct (g !! Z.to_nat u) eqn:Hl; [reflexivity|].
  apply lookup_ge_None in Hl. lia.
Qed.

Lemma in_range_alter f i g v : in_range (alter f i g) v ↔ in_range g v.
Proof. unfold in_range. by rewrite length_alter. Qed.

Lemma row_alter f g u w :
  in_range g u → 0 ≤ w →
  row (alter f (Z.to_nat u) g) w = if decide (w = u) then f (row g u) else row g w.
Proof.
  intros Hu Hw. unfold row at 1. destruct (decide (w = u)) as [->|Hne].
  - by rewrite list_lookup_alter_eq, (row_in_range g u Hu).
  - rewrite list_lookup_alter_ne; [reflexivity|]. destruct Hu. lia.
Qed.

Lemma count_occ_snoc (l : list Z) a b :
  count_occ Z.eq_dec (l ++ [a]) b
  = (count_occ Z.eq_dec l b + if decide (a = b) then 1 else 0)%nat.
Proof.
  rewrite count_occ_app. simpl.
  destruct (Z.eq_dec a b), (decide (a = b)); congruence.
Qed.

Lemma count_occ_erase_first (l : list Z) v b :
  count_occ Z.eq_dec (erase_first v l) b
  = (count_occ Z.eq_dec l b - if decide (v = b) then 1 else 0)%nat.
Proof.
  induction l as [|a l IH]; simpl; [reflexivity|].
  destruct (decide (a = v)) as [->|Hne].
  - destruct (Z.eq_dec v b), (decide (v = b)); try congruence; lia.
  - simpl. rewrite IH.
    destruct (Z.eq_dec a b), (decide (v = b)); lia.
Qed.

Lemma elem_of_erase_first (l : list Z) v b : b ∈ erase_first v l → b ∈ l.
Proof.
  induction l as [|a l IH]; simpl; [done|].
  destruct (decide (a = v)) as [->|Hne].
  - apply list_elem_of_further.
  - intros [-> |Hb]%elem_of_cons; [apply list_elem_of_here|].
    by apply list_elem_of_further, IH.
Qed.

Lemma mult_addEdge g g' u v a b :
  addEdge u v g = Some g' → 0 ≤ a →
  mult g' a b
  = (mult g a b + (if decide (a = u ∧ b = v) then 1 else 0)
     + (if decide (a = v ∧ b = u) then 1 else 0))%nat.
Proof.
  unfold addEdge. destruct (decide _) as [[Hu Hv]|]; [|discriminate].
  intros [= <-] Ha. unfold mult.
  rewrite row_alter by (by rewrite ?in_range_alter).
  destruct (decide (a = v)) as [->|Hav].
  - rewrite count_occ_snoc, row_alter by (done || apply Hv).
    destruct (decide (v = u)) as [->|Hvu].
    + rewrite count_occ_snoc. repeat case_decide; try lia; naive_solver.
    + repeat case_decide; try lia; naive_solver.
  - rewrite row_alter by done.
    destruct (decide (a = u)) as [->|Hau].
    + rewrite count_occ_snoc. repeat case_decide; try lia; naive_solver.
    + repeat case_decide; try lia; naive_solver.
Qed.

Lemma mult_removeEdge g g' u v a b :
  removeEdge u v g = Some g' → 0 ≤ a →
  mult g' a b
  = (mult g a b - (if decide (a = u ∧ b = v) then 1 else 0)
     - (if decide (a = v ∧ b = u) then 1 else 0))%nat.
Proof.
  unfold removeEdge. destruct (decide _) as [[Hu Hv]|]; [|discriminate].
  intros [= <-] Ha. unfold mult.
  rewrite row_alter by (by rewrite ?in_range_alter).
  destruct (decide (a = v)) as [->|Hav].
  - rewrite count_occ_erase_first, row_alter by (done || apply Hv).
    destruct (decide (v = u)) as [->|Hvu].
    + rewrite count_occ_erase_first. repeat case_decide; try lia; naive_solver.
    + repeat case_decide; try lia; naive_solver.
  - rewrite row_alter by done.
    destruct (decide (a = u)) as [->|Hau].
    + rewrite count_occ_erase_first. repeat case_decide; try lia; naive_solver.
    + repeat case_decide; try lia; naive_solver.
Qed.

Lemma addEdge_length g g' u v : addEdge u v g = Some g' → length g' = length g.
Proof.
  unfold addEdge. destruct (decide _); [|discriminate].
  intros [= <-]. by rewrite !length_alter.
Qed.

Lemma removeEdge_length g g' u v : removeEdge u v g = Some g' → length g' = length g.
Proof.
  unfold removeEdge. destruct (decide _); [|discriminate].
  intros [= <-]. by rewrite !length_alter.
Qed.

Lemma elem_of_row_mult g u b : b ∈ row g u ↔ (0 < mult g u b)%nat.
Proof. unfold mult. rewrite list_elem_of_In. apply count_occ_In. Qed.

Lemma run_op_valid_symmetric o g g' :
  run_op o g = Some g' → valid g → symmetric g → valid g' ∧ symmetric g'.
Proof.
  intros Hrun Hval Hsym. destruct o as [|u v|u v]; simpl in Hrun.
  - injection Hrun as <-.
    assert (∀ w, in_range g w → row (g ++ [[]]) w = row g w) as Hold.
    { intros w [? ?]. unfold row. by rewrite lookup_app_l by lia. }
    assert (row (g ++ [[]]) (Z.of_nat (length g)) = []) as Hnew.
    { unfold row. rewrite Nat2Z.id, lookup_app_r by lia.
      by rewrite Nat.sub_diag. }
    assert (∀ w, in_range (g ++ [[]]) w → in_range g w ∨ w = Z.of_nat (length g)) as Hcase.
    { intros w. unfold in_range. rewrite length_app. simpl. lia. }
    assert (∀ w, in_range g w → in_range (g ++ [[]]) w) as Hmono.
    { intros w. unfold in_range. rewrite length_app. simpl. lia. }
    split.
    + intros w b Hw Hb. destruct (Hcase w Hw) as [Hw'| ->].
      * rewrite Hold in Hb by done. by apply Hmono, (Hval w).
      * rewrite Hnew in Hb. by apply elem_of_nil in Hb.
    + assert (∀ w, in_range g w → mult g w (Z.of_nat (length g)) = 0%nat) as Hfresh.
      { intros w Hw. destruct (mult g w (Z.of_nat (length g))) eqn:Hm; [done|].
        assert (in_range g (Z.of_nat (length g))) as [? ?]; [|lia].
        apply (Hval w); [done|]. apply elem_of_row_mult. lia. }
      intros a b Ha Hb. unfold mult.
      destruct (Hcase a Ha) as [Ha'| ->]; destruct (Hcase b Hb) as [Hb'| ->].
      * rewrite (Hold a Ha'), (Hold b Hb'). by apply Hsym.
      * rewrite (Hold a Ha'), Hnew. by apply Hfresh.
      * rewrite (Hold b Hb'), Hnew. symmetry. by apply Hfresh.
      * reflexivity.
  - pose proof (addEdge_length _ _ _ _ Hrun) as Hlen.
    assert (∀ w, in_range g' w ↔ in_range g w) as Hr
      by (intros w; unfold in_range; by rewrite Hlen).
    assert (in_range g u ∧ in_range g v) as [Hu Hv].
    { unfold addEdge in Hrun. by destruct (decide _). }
    split.
    + intros a b Ha%Hr Hb%elem_of_row_mult. apply Hr.
      rewrite (mult_addEdge _ _ _ _ _ _ Hrun) in Hb by apply Ha.
      destruct (decide (a = u ∧ b = v)) as [[-> ->]|]; [done|].
      destruct (decide (a = v ∧ b = u)) as [[-> ->]|]; [done|].
      apply (Hval a); [done|]. apply elem_of_row_mult. lia.
    + intros a b Ha%Hr Hb%Hr.
      rewrite !(mult_addEdge _ _ _ _ _ _ Hrun) by (apply Ha || apply Hb).
      rewrite (Hsym a b Ha Hb). repeat case_decide; try lia; naive_solver.
  - pose proof (removeEdge_length _ _ _ _ Hrun) as Hlen.
    assert (∀ w, in_range g' w ↔ in_range g w) as Hr
      by (intros w; unfold in_range; by rewrite Hlen).
    split.
    + intros a b Ha%Hr Hb%elem_of_row_mult. apply Hr.
      rewrite (mult_removeEdge _ _ _ _ _ _ Hrun) in Hb by apply Ha.
      apply (Hval a); [done|]. apply elem_of_row_mult. lia.
    + intros a b Ha%Hr Hb%Hr.
      rewrite !(mult_removeEdge _ _ _ _ _ _ Hrun) by (apply Ha || apply Hb).
      rewrite (Hsym a b Ha Hb). repeat case_decide; try lia; naive_solver.
Qed.

Lemma run_ops_keep (os : list op) : ∀ g g',
  valid g → symmetric g → run_ops os g = Some g' → valid g' ∧ symmetric g'.
Proof.
  induction os as [|o os IH]; intros g g' Hval Hsym Hrun; simpl in Hrun.
  - by injection Hrun as <-.
  - destruct (run_op o g) as [g1|] eqn:Ho; [|discriminate]. simpl in Hrun.
    destruct (run_op_valid_symmetric o g g1 Ho Hval Hsym) as [Hval1 Hsym1].
    by apply (IH g1).
Qed.

(** X6: addVertex, addEdge and removeEdge keep the graph well numbered and
    undirected: when every listed neighbour is a vertex and v is listed
    under u as often as u under v, the same holds after any sequence of
    these calls that stays within the rows of the graph. *)
Theorem run_ops_valid_symmetric (os : list op) (g g' : list (list Z)) :
  valid g → symmetric g → run_ops os g = Some g' → valid g' ∧ symmetric g'.
Proof. apply run_ops_keep. Qed.

Lemma Graph_valid_symmetric n g :
  Graph n = Some g → Z.of_nat (length g) = n ∧ valid g ∧ symmetric g.
Proof.
  unfold Graph. destruct (decide (0 ≤ n)) as [Hn|]; [|discriminate].
  intros [= <-].
  assert (∀ u, row (replicate (Z.to_nat n) []) u = []) as Hrow.
  { intros u. unfold row.
    destruct (replicate (Z.to_nat n) [] !! Z.to_nat u) as [r|] eqn:Hl; [|done].
    by apply lookup_replicate in Hl as [-> _]. }
  split; [rewrite length_replicate; lia|]. split.
  - intros u b _ Hb. rewrite Hrow in Hb. by apply elem_of_nil in Hb.
  - intros u v _ _. unfold mult. by rewrite !Hrow.
Qed.

Lemma run_ops_valid_symmetric_star :
  ∃ g0, Graph 3 = Some g0 ∧ valid g0 ∧ symmetric g0
        ∧ run_ops [AddEdge 0 1; AddEdge 0 2; AddVertex; RemoveEdge 2 0] g0
          = Some [[1]; [0]; []; []]
        ∧ valid [[1]; [0]; []; []] ∧ symmetric [[1]; [0]; []; []].
Proof.
  exists (replicate 3 []).
  destruct (Graph_valid_symmetric 3 (replicate 3 []) eq_refl) as (_ & Hval & Hsym).
  assert (run_ops [AddEdge 0 1; AddEdge 0 2; AddVertex; RemoveEdge 2 0] (replicate 3 [])
          = Some [[1]; [0]; []; []]) as Hrun by reflexivity.
  split; [reflexivity|]. split; [exact Hval|]. split; [exact Hsym|].
  split; [exact Hrun|].
  exact (run_ops_valid_symmetric _ _ _ Hval Hsym Hrun).
Defined.

Lemma erase_first_app (l l' : list Z) v :
  v ∉ l → erase_first v (l ++ v :: l') = l ++ l'.
Proof.
  induction l as [|a l IH]; simpl; intros Hv.
  - by rewrite decide_True.
  - apply not_elem_of_cons in Hv as [Hne Hv].
    rewrite decide_False by congruence. by rewrite IH.
Qed.

(** X7: on a graph where v is not yet listed under u, nor u under v,
    addEdge(u, v) followed by removeEdge(u, v) gives the graph back, row
    by row and in the same order. *)
Theorem addEdge_removeEdge (u v : Z) (g : list (list Z)) :
  in_range g u → in_range g v → v ∉ row g u → u ∉ row g v →
  (g' ← addEdge u v g; removeEdge u v g') = Some g.
Proof.
  intros Hu Hv Hvu Huv. unfold addEdge. rewrite decide_True by done. simpl.
  unfold removeEdge. rewrite decide_True by (by rewrite !in_range_alter).
  f_equal. apply list_eq. intros i.
  pose proof (row_in_range g u Hu) as Hru. pose proof (row_in_range g v Hv) as Hrv.
  destruct (decide (u = v)) as [->|Hne].
  - destruct (decide (i = Z.to_nat v)) as [->|Hi].
    + rewrite !list_lookup_alter_eq, Hrv. simpl. f_equal.
      rewrite <- (assoc_L (++)). simpl. rewrite erase_first_app by done.
      by rewrite (erase_first_app _ []), (right_id_L [] (++)).
    + by rewrite !list_lookup_alter_ne by done.
  - assert (Z.to_nat u ≠ Z.to_nat v) as Hn by (destruct Hu, Hv; lia).
    destruct (decide (i = Z.to_nat v)) as [->|Hiv];
      [|destruct (decide (i = Z.to_nat u)) as [->|Hiu]].
    + rewrite list_lookup_alter_eq, list_lookup_alter_ne by done.
      rewrite list_lookup_alter_eq, list_lookup_alter_ne by done.
      rewrite Hrv. simpl. f_equal.
      by rewrite (erase_first_app _ []), (right_id_L [] (++)).
    + rewrite list_lookup_alter_ne, list_lookup_alter_eq by done.
      rewrite list_lookup_alter_ne, list_lookup_alter_eq by done.
      rewrite Hru. simpl. f_equal.
      by rewrite (erase_first_app _ []), (right_id_L [] (++)).
    + by rewrite !list_lookup_alter_ne by done.
Qed.

Lemma addEdge_removeEdge_star :
  in_range star 1 ∧ in_range star 2 ∧ (2 ∉ row star 1) ∧ (1 ∉ row star 2)
  ∧ (g' ← addEdge 1 2 star; removeEdge 1 2 g') = Some star.
Proof.
  assert (in_range star 1) as H1 by (unfold in_range, star; simpl; lia).
  assert (in_range star 2) as H2 by (unfold in_range, star; simpl; lia).
  assert (2 ∉ row star 1) as H3
    by (unfold row, star; simpl; intros ?%list_elem_of_singleton; lia).
  assert (1 ∉ row star 2) as H4
    by (unfold row, star; simpl; intros ?%list_elem_of_singleton; lia).
  split; [exact H1|]. split; [exact H2|]. split; [exact H3|]. split; [exact H4|].
  exact (addEdge_removeEdge 1 2 star H1 H2 H3 H4).
Defined.

Lemma renumber_row_absent (v : Z) (l : list Z) :
  v ∉ l → renumber_row v l = shift v <$> l.
Proof.
  induction l as [|a l IH]; simpl; intros Hv; [reflexivity|].
  apply not_elem_of_cons in Hv as [Hne Hv].
  rewrite decide_False by congruence. unfold shift at 1.
  rewrite (IH Hv). by destruct (decide (a > v)).
Qed.

Lemma renumber_row_split (v : Z) (pre post : list Z) :
  v ∉ pre → renumber_row v (pre ++ v :: post) = (shift v <$> pre) ++ post.
Proof.
  induction pre as [|a l IH]; simpl; intros Hv.
  - by rewrite decide_True.
  - apply not_elem_of_cons in Hv as [Hne Hv].
    rewrite decide_False by congruence. unfold shift at 1.
    rewrite (IH Hv). by destruct (decide (a > v)).
Qed.

Lemma star_valid_symmetric : valid star ∧ symmetric star.
Proof.
  exact (run_ops_keep [AddEdge 0 1; AddEdge 0 2] (replicate 3 []) star
           (proj1 (proj2 (Graph_valid_symmetric 3 _ eq_refl)))
           (proj2 (proj2 (Graph_valid_symmetric 3 _ eq_refl))) eq_refl).
Qed.

Lemma removeVertex_Some v g :
  in_range g v →
  removeVertex v g = Some (renumber_row v <$> delete (Z.to_nat v) g)
  ∧ S (length (renumber_row v <$> delete (Z.to_nat v) g)) = length g.
Proof.
  intros Hv. unfold removeVertex. rewrite decide_True by done.
  split; [reflexivity|]. rewrite length_fmap.
  pose proof (length_delete g (Z.to_nat v)) as Hd.
  destruct (g !! Z.to_nat v) eqn:Hl.
  - specialize (Hd ltac:(by eexists)). destruct Hv as [? ?].
    assert (length g ≠ 0)%nat by lia. lia.
  - apply lookup_ge_None in Hl. destruct Hv. lia.
Qed.

(** The row of a vertex other than [v] after [removeVertex v], at the new
    index of the vertex. *)
Lemma row_removeVertex v u g :
  in_range g v → in_range g u → u ≠ v →
  row (renumber_row v <$> delete (Z.to_nat v) g) (shift v u) = renumber_row v (row g u).
Proof.
  intros [Hv0 Hv1] Hu Hne. pose proof (row_in_range g u Hu) as Hru.
  destruct Hu as [Hu0 Hu1].
  unfold row at 1. rewrite list_lookup_fmap. unfold shift.
  destruct (decide (u > v)) as [Hgt|Hle].
  - rewrite list_lookup_delete_ge by lia.
    replace (S (Z.to_nat (u - 1))) with (Z.to_nat u) by lia. by rewrite Hru.
  - rewrite list_lookup_delete_lt by lia. by rewrite Hru.
Qed.

Lemma shift_in_range v a g g' :
  in_range g v → S (length g') = length g → in_range g a → a ≠ v →
  in_range g' (shift v a).
Proof.
  unfold in_range, shift. intros Hv Hlen Ha Hne.
  destruct (decide (a > v)); lia.
Qed.

(** Every index of the graph after the removal is the new index of a vertex
    other than [v]. *)
Lemma unshift_in_range v w g g' :
  in_range g v → S (length g') = length g → in_range g' w →
  ∃ u, in_range g u ∧ u ≠ v ∧ shift v u = w.
Proof.
  unfold in_range, shift. intros Hv Hlen Hw.
  destruct (decide (w >= v)).
  - exists (w + 1). rewrite decide_True by lia. lia.
  - exists w. rewrite decide_False by lia. lia.
Qed.

Lemma count_occ_shift v (l : list Z) b :
  v ∉ l → b ≠ v →
  count_occ Z.eq_dec (shift v <$> l) (shift v b) = count_occ Z.eq_dec l b.
Proof.
  intros Hl Hb. induction l as [|a l IH]; [reflexivity|].
  apply not_elem_of_cons in Hl as [Hne Hl]. rewrite fmap_cons. simpl.
  rewrite (IH Hl). unfold shift.
  destruct (decide (a > v)), (decide (b > v)), (Z.eq_dec _ _), (Z.eq_dec a b); lia.
Qed.

(** X8: removeVertex(v) of a vertex that no row lists returns, drops one
    row, moves every vertex above v down by one and renumbers the entries of
    every row accordingly; the graph stays well numbered and undirected. *)
Theorem removeVertex_unlisted (v : Z) (g : list (list Z)) :
  valid g → symmetric g → in_range g v →
  (∀ u, in_range g u → v ∉ row g u) →
  ∃ g', removeVertex v g = Some g'
        ∧ S (length g') = length g
        ∧ (∀ u, in_range g u → u ≠ v → row g' (shift v u) = shift v <$> row g u)
        ∧ valid g' ∧ symmetric g'.
Proof.
  intros Hval Hsym Hv Hun.
  destruct (removeVertex_Some v g Hv) as [Hrun Hlen].
  set (g' := renumber_row v <$> delete (Z.to_nat v) g) in *.
  assert (∀ u, in_range g u → u ≠ v → row g' (shift v u) = shift v <$> row g u) as Hrow.
  { intros u Hu Hne. unfold g'. rewrite row_removeVertex by done.
    apply renumber_row_absent. by apply Hun. }
  exists g'. split; [exact Hrun|]. split; [exact Hlen|]. split; [exact Hrow|]. split.
  - intros w b Hw Hb.
    destruct (unshift_in_range v w g g' Hv Hlen Hw) as (u & Hu & Hne & <-).
    rewrite (Hrow u Hu Hne) in Hb. apply list_elem_of_fmap in Hb as (a & -> & Ha).
    apply (shift_in_range v a g g' Hv Hlen); [by apply (Hval u)|].
    intros ->. by apply (Hun u).
  - intros w1 w2 Hw1 Hw2.
    destruct (unshift_in_range v w1 g g' Hv Hlen Hw1) as (u1 & Hu1 & Hne1 & <-).
    destruct (unshift_in_range v w2 g g' Hv Hlen Hw2) as (u2 & Hu2 & Hne2 & <-).
    unfold mult. rewrite (Hrow u1 Hu1 Hne1), (Hrow u2 Hu2 Hne2).
    rewrite !count_occ_shift by (done || by apply Hun).
    by apply Hsym.
Qed.

Lemma removeVertex_unlisted_fresh :
  valid [[1]; [0]; []] ∧ symmetric [[1]; [0]; []] ∧ in_range [[1]; [0]; []] 2
  ∧ ∃ g', removeVertex 2 [[1]; [0]; []] = Some g' ∧ valid g' ∧ symmetric g'.
Proof.
  destruct (run_ops_keep [AddEdge 0 1] (replicate 3 []) [[1]; [0]; []]
              (proj1 (proj2 (Graph_valid_symmetric 3 _ eq_refl)))
              (proj2 (proj2 (Graph_valid_symmetric 3 _ eq_refl))) eq_refl)
    as [Hval Hsym].
  assert (in_range [[1]; [0]; []] 2) as Hv by (unfold in_range; simpl; lia).
  assert (∀ u, in_range [[1]; [0]; []] u → 2 ∉ row [[1]; [0]; []] u) as Hun.
  { intros u [H0 H1]. simpl in H1.
    assert (u = 0 ∨ u = 1 ∨ u = 2) as [-> |[-> | ->]] by lia; unfold row; simpl.
    - intros ?%list_elem_of_singleton; lia.
    - intros ?%list_elem_of_singleton; lia.
    - apply not_elem_of_nil. }
  split; [exact Hval|]. split; [exact Hsym|]. split; [exact Hv|].
  destruct (removeVertex_unlisted 2 [[1]; [0]; []] Hval Hsym Hv Hun)
    as (g' & Hrun & _ & _ & Hval' & Hsym').
  exists g'. split; [exact Hrun|]. split; [exact Hval'|exact Hsym'].
Defined.

(** X9: in a row that lists v, removeVertex(v) erases the first v, renumbers
    the entries before it and leaves the entries after it as they are; when
    the last vertex is among those, the graph is left with a neighbour that
    is no vertex. *)
Theorem removeVertex_stops_at_first (v u : Z) (g : list (list Z)) (pre post : list Z) :
  in_range g v → in_range g u → u ≠ v →
  row g u = pre ++ v :: post → v ∉ pre →
  ∃ g', removeVertex v g = Some g'
        ∧ row g' (shift v u) = (shift v <$> pre) ++ post
        ∧ (Z.of_nat (length g) - 1 ∈ post → ¬ valid g').
Proof.
  intros Hv Hu Hne Hrow Hpre.
  destruct (removeVertex_Some v g Hv) as [Hrun Hlen].
  set (g' := renumber_row v <$> delete (Z.to_nat v) g) in *.
  assert (row g' (shift v u) = (shift v <$> pre) ++ post) as Hrow'.
  { unfold g'. rewrite row_removeVertex by done.
    rewrite Hrow. by apply renumber_row_split. }
  exists g'. split; [exact Hrun|]. split; [exact Hrow'|].
  intros Hlast Hval.
  assert (in_range g' (Z.of_nat (length g) - 1)) as [_ Hlt]; [|lia].
  apply (Hval (shift v u)).
  - by apply (shift_in_range v u g g').
  - rewrite Hrow'. apply elem_of_app. by right.
Qed.

Lemma removeVertex_stops_at_first_star :
  valid star ∧ symmetric star
  ∧ in_range star 1 ∧ in_range star 0 ∧ row star 0 = [] ++ 1 :: [2]
  ∧ ∃ g', removeVertex 1 star = Some g' ∧ row g' 0 = [2] ∧ ¬ valid g'.
Proof.
  assert (in_range star 1) as H1 by (unfold in_range, star; simpl; lia).
  assert (in_range star 0) as H0 by (unfold in_range, star; simpl; lia).
  assert (row star 0 = [] ++ 1 :: [2]) as Hrow by reflexivity.
  split; [apply star_valid_symmetric|]. split; [apply star_valid_symmetric|].
  split; [exact H1|]. split; [exact H0|]. split; [exact Hrow|].
  destruct (removeVertex_stops_at_first 1 0 star [] [2] H1 H0 ltac:(lia) Hrow
              (not_elem_of_nil _)) as (g' & Hrun & Hrow' & Hbad).
  exists g'. split; [exact Hrun|]. split; [exact Hrow'|].
  apply Hbad. simpl. apply list_elem_of_here.
Defined.

End AdjListFacts.

(** ** Rules for the invariants of the searches on a well-formed graph *)

Section Explore.

Context {VP EP : Type}.
Variable g : graph VP EP.
Hypothesis Hwf : well_formed g.
Implicit Types (st : search_state) (u v t r : N) (d : N * N).

Lemma inv_discover u t st : inv g st → live g t → inv g (discover u t st).
Proof.
  intros Hi Ht. unfold discover.
  apply inv_mark_vertex, inv_set_parent; [by apply inv_mark_edge|exact Ht].
Qed.

Lemma edge_inv_initialize : edge_inv g (initialize g).
Proof.
  intros u t Hut. left. rewrite initialize_edges, elem_of_list_to_set. exact Hut.
Qed.

Lemma edge_inv_mark_vertex r st : edge_inv g st → edge_inv g (mark_vertex r st).
Proof.
  intros He a b Hab. destruct (He a b Hab) as [Hin|Hn]; [by left|right].
  simpl. intros [Hb _]%elem_of_difference. by apply Hn.
Qed.

Lemma edge_inv_mark_edge u t st :
  edge_inv g st → t ∉ vertices_unexplored st → edge_inv g (mark_edge (u, t) st).
Proof.
  intros He Ht a b Hab. destruct (He a b Hab) as [Hin|Hn]; [|by right].
  destruct (decide ((a, b) = (u, t))) as [Heq|Hne]; [right; by simplify_eq|].
  left. simpl. apply elem_of_difference. split; [exact Hin|].
  by intros ?%elem_of_singleton.
Qed.

Lemma edge_inv_discover u t st : edge_inv g st → edge_inv g (discover u t st).
Proof.
  intros He a b Hab. unfold discover; simpl.
  destruct (decide (b = t)) as [->|Hne].
  - right. intros [_ Hn]%elem_of_difference. apply Hn. by apply elem_of_singleton.
  - destruct (He a b Hab) as [Hin|Hn].
    + left. apply elem_of_difference. split; [exact Hin|].
      intros ?%elem_of_singleton. by simplify_eq.
    + right. intros [Hb _]%elem_of_difference. by apply Hn.
Qed.

Lemma outer_ok_initialize : outer_ok g (initialize g).
Proof.
  split; [apply inv_initialize|apply edge_inv_initialize|].
  intros w Hw Hn. exfalso. apply Hn.
  rewrite initialize_vertices, elem_of_list_to_set. exact Hw.
Qed.

(** The state a discovery through an edge of the adjacency list of [x]
    leaves is the one of [discover]. *)
Lemma out_edge_descriptor (x : vertex VP EP) (e : edge EP) :
  x ∈ m_vertices g → e ∈ m_out_edges x →
  descriptor e = (m_descriptor x, m_target e)
  ∧ has_edge g (m_descriptor x) (m_target e).
Proof.
  intros Hx He. destruct (wf_out_edge g Hwf x e Hx He) as [Hs Hedge].
  split; [|exact Hedge]. unfold descriptor. by rewrite Hs.
Qed.

(** The adjacency list of a stored vertex lists every edge out of it. *)
Lemma out_edges_complete (x : vertex VP EP) t :
  x ∈ m_vertices g → has_edge g (m_descriptor x) t →
  ∃ e, e ∈ m_out_edges x ∧ m_target e = t.
Proof.
  intros Hx Hut.
  destruct (wf_edge_listed g Hwf _ _ Hut) as (y & e & Hy & Hyd & He & Ht).
  assert (y = x) as -> by (by apply (vertex_unique g Hwf)).
  by exists e.
Qed.

(** *** Breadth-first search *)

Section BfsRule.

Variable P : option N → list N → search_state → Prop.
Hypothesis HP : bfs_rule g P.

Lemma bfs_conf_ok cur qs : bfs_conf g P cur qs → bfs_ok g qs.
Proof. intros [Hi _ Hq _ _]. split; [exact Hi|]. intros w Hw. by apply Hq. Qed.

Lemma bfs_edge_conf (x : vertex VP EP) qs (e : edge EP) :
  x ∈ m_vertices g → e ∈ m_out_edges x →
  bfs_conf g P (Some (m_descriptor x)) qs →
  m_descriptor x ∉ vertices_unexplored qs.2 →
  bfs_conf g P (Some (m_descriptor x)) (bfs_edge_wide x qs e)
  ∧ m_target e ∉ vertices_unexplored (bfs_edge_wide x qs e).2.
Proof.
  intros Hx He [Hi Hed Hq Hc Hp] Hnu.
  destruct (out_edge_descriptor x e Hx He) as [Hd Hedge].
  unfold bfs_edge_wide. rewrite Hd.
  destruct (decide ((m_descriptor x, m_target e) ∈ _)) as [Hin|Hin].
  - destruct (decide (m_target e ∈ _)) as [Ht|Ht]; [|by split].
    assert (live g (m_target e)) as Hlive by (by apply (inv_unexplored g _ Hi)).
    change (mark_vertex (m_target e) _)
      with (discover (m_descriptor x) (m_target e) qs.2).
    split; [split|]; simpl.
    + by apply inv_discover.
    + by apply edge_inv_discover.
    + intros w [Hw| ->%list_elem_of_singleton]%elem_of_app.
      * destruct (Hq w Hw). split; [done|set_solver].
      * split; [done|set_solver].
    + intros w Hw Hnw. destruct (decide (w = m_target e)) as [->|Hne].
      * left. apply elem_of_app. right. apply list_elem_of_here.
      * destruct (Hc w Hw) as [Hq'|[Hcur|Hcl]]; [set_solver| | |].
        -- left. apply elem_of_app. by left.
        -- right. by left.
        -- right. right. eapply closed_mono; [|exact Hcl].
           simpl. apply subseteq_difference_l. reflexivity.
    + apply (br_discover g P HP); try done. by apply vertex_live.
    + set_solver.
  - split; [by split|].
    destruct (Hed _ _ Hedge) as [Hin'|Hn]; [done|exact Hn].
Qed.

Lemma fold_bfs_edge_conf (x : vertex VP EP) (l : list (edge EP)) : ∀ qs,
  x ∈ m_vertices g → (∀ e, e ∈ l → e ∈ m_out_edges x) →
  bfs_conf g P (Some (m_descriptor x)) qs →
  m_descriptor x ∉ vertices_unexplored qs.2 →
  bfs_conf g P (Some (m_descriptor x)) (fold_left (bfs_edge_wide x) l qs)
  ∧ ∀ e, e ∈ l → m_target e ∉ vertices_unexplored (fold_left (bfs_edge_wide x) l qs).2.
Proof.
  induction l as [|e l IH]; intros qs Hx Hl Hconf Hnu; cbn [fold_left].
  - split; [exact Hconf|]. intros e He. by apply elem_of_nil in He.
  - destruct (bfs_edge_conf x qs e Hx) as [Hconf1 Ht1];
      [apply Hl, list_elem_of_here|exact Hconf|exact Hnu|].
    destruct (bfs_edge_ok g x qs e (bfs_conf_ok _ _ Hconf)) as (_ & _ & Hs1).
    destruct (IH (bfs_edge_wide x qs e) Hx) as [Hconf2 Ht2].
    { intros e' He'. by apply Hl, list_elem_of_further. }
    { exact Hconf1. }
    { intros Hin. by apply Hnu, Hs1. }
    split; [exact Hconf2|].
    intros e' [-> |He']%elem_of_cons; [|by apply Ht2].
    destruct (fold_bfs_edge_ok g x l (bfs_edge_wide x qs e) (bfs_conf_ok _ _ Hconf1))
      as (_ & _ & Hs2).
    intros Hin. by apply Ht1, Hs2.
Qed.

Lemma bfs_adjacency_conf (x : vertex VP EP) q st :
  x ∈ m_vertices g →
  bfs_conf g P None (m_descriptor x :: q, st) →
  bfs_conf g P None (fold_left (bfs_edge_wide x) (m_out_edges x) (q, st)).
Proof.
  intros Hx [Hi Hed Hq Hc Hp]. simpl in *.
  destruct (Hq (m_descriptor x)) as [Hlive Hnu]; [apply list_elem_of_here|].
  destruct (fold_bfs_edge_conf x (m_out_edges x) (q, st) Hx)
    as [[Hi' Hed' Hq' Hc' Hp'] Ht].
  - done.
  - split; simpl; [done|done| | |].
    + intros w Hw. by apply Hq, list_elem_of_further.
    + intros w Hw Hnw. destruct (Hc w Hw Hnw) as [Hin|[?|?]]; [|done|by right; right].
      apply elem_of_cons in Hin as [-> |Hin]; [right|]; by left.
    + by apply (br_dequeue g P HP).
  - exact Hnu.
  - assert (closed g (fold_left (bfs_edge_wide x) (m_out_edges x) (q, st)).2 (m_descriptor x))
      as Hclosed.
    { intros t Hut. destruct (out_edges_complete x t Hx Hut) as (e & He & <-).
      by apply Ht. }
    split; [done|done|done| |].
    + intros w Hw Hnw. destruct (Hc' w Hw Hnw) as [Hin|[Hcur|Hcl]].
      * by left.
      * right. right. by injection Hcur as <-.
      * by right; right.
    + by apply (br_done g P HP _ (m_descriptor x)).
Qed.

Lemma bfs_while_conf fuel : ∀ qs st',
  bfs_while_wide fuel g qs = Some st' → bfs_conf g P None qs → bfs_conf g P None ([], st').
Proof.
  induction fuel as [|fuel IH]; intros [[|vd q] st] st' Hrun Hconf; simpl in Hrun.
  - by simplify_eq.
  - discriminate.
  - by simplify_eq.
  - destruct (find_vertex vd g) as [x|] eqn:Hfind; [|discriminate].
    apply find_vertex_Some in Hfind as [<- Hx].
    apply (IH _ _ Hrun). by apply bfs_adjacency_conf.
Qed.

(** The search of one component, from the unexplored vertex [x]. *)
Lemma bfs_component_rule fuel st st' (x : vertex VP EP) :
  x ∈ m_vertices g → m_descriptor x ∈ vertices_unexplored st →
  bfs_component_wide fuel g (Some st) x = Some st' → outer_ok g st →
  P None [m_descriptor x] (mark_vertex (m_descriptor x) st) →
  P None [] st' ∧ outer_ok g st'
  ∧ vertices_unexplored st' ⊆ vertices_unexplored st ∖ {[m_descriptor x]}.
Proof.
  intros Hx Hu Hrun [Hi Hed Hc] Hp. unfold bfs_component_wide in Hrun; simpl in Hrun.
  rewrite decide_True in Hrun by done.
  assert (bfs_conf g P None ([m_descriptor x], mark_vertex (m_descriptor x) st))
    as Hstart.
  { split; simpl.
    - by apply inv_mark_vertex.
    - by apply edge_inv_mark_vertex.
    - intros w ->%list_elem_of_singleton. split; [by apply vertex_live|set_solver].
    - intros w Hw Hnw. destruct (decide (w = m_descriptor x)) as [->|Hne].
      + left. apply list_elem_of_here.
      + right. right. eapply closed_mono; [|apply (Hc w Hw); set_solver].
        simpl. apply subseteq_difference_l. reflexivity.
    - exact Hp. }
  pose proof (bfs_while_subseteq g _ _ _ Hrun (bfs_conf_ok _ _ Hstart)) as Hs.
  destruct (bfs_while_conf _ _ _ Hrun Hstart) as [Hi' Hed' _ Hc' Hp']. simpl in *.
  split; [exact Hp'|]. split; [|exact Hs]. split; [done|done|].
  intros w Hw Hnw. destruct (Hc' w Hw Hnw) as [Hin|[?|?]]; [|done|done].
  by apply elem_of_nil in Hin.
Qed.

End BfsRule.

Lemma bfs_component_explored fuel st (x : vertex VP EP) :
  m_descriptor x ∉ vertices_unexplored st →
  bfs_component_wide fuel g (Some st) x = Some st.
Proof. intros Hn. unfold bfs_component_wide; simpl. by rewrite decide_False. Qed.

(** *** Depth-first search *)

Section DfsRule.

Variable P : search_state → Prop.
Hypothesis HP : state_rule g P.

Lemma fold_dfs_edge_rule visit (x : vertex VP EP) (l : list (edge EP)) :
  visit_rule g P visit → x ∈ m_vertices g →
  ∀ st st',
    (∀ e, e ∈ l → e ∈ m_out_edges x) →
    fold_left (dfs_edge_wide visit (m_descriptor x)) l (Some st) = Some st' →
    inv g st → edge_inv g st → P st → m_descriptor x ∉ vertices_unexplored st →
    inv g st' ∧ edge_inv g st' ∧ P st'
    ∧ vertices_unexplored st' ⊆ vertices_unexplored st
    ∧ edges_unexplored st' ⊆ edges_unexplored st
    ∧ (∀ e, e ∈ l → (m_target e ∉ vertices_unexplored st')
                    ∧ ((m_descriptor x, m_target e) ∉ edges_unexplored st'))
    ∧ ∀ w, w ∈ vertices_unexplored st → w ∉ vertices_unexplored st' → dfs_closed g st' w.
Proof.
  intros Hvisit Hx. induction l as [|e l IH]; intros st st' Hl Hrun Hi Hed Hp Hnu;
    cbn [fold_left] in Hrun.
  - simplify_eq. repeat (split; [done|]). split; [|done].
    intros e He. by apply elem_of_nil in He.
  - destruct (out_edge_descriptor x e Hx) as [Hd Hedge]; [apply Hl, list_elem_of_here|].
    assert (∀ e', e' ∈ l → e' ∈ m_out_edges x) as Hl'
      by (intros e' He'; by apply Hl, list_elem_of_further).
    destruct (dfs_edge_cases visit (m_descriptor x) st e)
      as [(Hn & Heq)|[(Hin & Ht & Heq)|(Hin & Ht & Heq)]];
      rewrite Heq in Hrun; rewrite Hd in *.
    + destruct (IH st st' Hl' Hrun Hi Hed Hp Hnu) as (Hi' & Hed' & Hp' & Hs' & Hse' & Ht' & Hc').
      repeat (split; [done|]). split; [|done].
      intros e' [-> |He']%elem_of_cons; [|by apply Ht'].
      split; [|set_solver].
      destruct (Hed _ _ Hedge) as [?|Hn']; [done|]. set_solver.
    + destruct (IH (mark_edge (m_descriptor x, m_target e) st) st' Hl' Hrun)
        as (Hi' & Hed' & Hp' & Hs' & Hse' & Ht' & Hc').
      { by apply inv_mark_edge. }
      { by apply edge_inv_mark_edge. }
      { apply (sr_mark g P HP); try done. by apply vertex_live. }
      { exact Hnu. }
      simpl in Hse'. repeat (split; [done|]). split; [set_solver|]. split; [|done].
      intros e' [-> |He']%elem_of_cons; [|by apply Ht'].
      split; [set_solver|]. intros Hin'. apply Hse' in Hin'. set_solver.
    + destruct (visit (m_target e) _) as [st1|] eqn:Hv;
        [|by rewrite fold_dfs_edge_None in Hrun].
      assert (live g (m_target e)) as Hlive by (by apply (inv_unexplored g _ Hi)).
      destruct (Hvisit _ _ _ Hv Hlive) as (Hi1 & Hed1 & Hp1 & Hs1 & Hse1 & Hc1 & Hn1).
      { by apply (inv_discover (m_descriptor x)). }
      { by apply (edge_inv_discover (m_descriptor x)). }
      { apply (sr_discover g P HP); try done. by apply vertex_live. }
      simpl in Hs1, Hse1, Hn1.
      destruct (IH st1 st' Hl' Hrun Hi1 Hed1 Hp1) as (Hi' & Hed' & Hp' & Hs' & Hse' & Ht' & Hc').
      { set_solver. }
      repeat (split; [done|]). split; [set_solver|]. split; [set_solver|]. split.
      * intros e' [-> |He']%elem_of_cons; [|by apply Ht'].
        split; [set_solver|]. intros Hin'. apply Hse', Hse1 in Hin'. set_solver.
      * intros w Hw Hnw. destruct (decide (w ∈ vertices_unexplored st1)) as [Hw1|Hw1].
        -- by apply Hc'.
        -- intros t Hwt. destruct (Hn1 w Hw Hw1 t Hwt). split; set_solver.
Qed.

Lemma dfs_visit_rule fuel : visit_rule g P (dfs_visit_wide fuel g).
Proof.
  induction fuel as [|fuel IH]; intros u st st' Hrun Hu Hi Hed Hp; [discriminate|].
  cbn [dfs_visit_wide] in Hrun.
  destruct (find_vertex u g) as [x|] eqn:Hfind; [|discriminate].
  apply find_vertex_Some in Hfind as [<- Hx].
  destruct (fold_dfs_edge_rule _ x (m_out_edges x) IH Hx _ _ (λ e He, He) Hrun Hi Hed Hp)
    as (Hi' & Hed' & Hp' & Hs' & Hse' & Ht' & Hc'); [simpl; set_solver|].
  simpl in Hs', Hse', Hc'.
  assert (dfs_closed g st' (m_descriptor x)) as Hclosed.
  { intros t Hut. destruct (out_edges_complete x t Hx Hut) as (e & He & <-).
    by apply Ht'. }
  repeat (split; [done|]).
  intros w Hw Hnw. destruct (decide (w = m_descriptor x)) as [->|Hne]; [done|].
  apply Hc'; [set_solver|done].
Qed.

(** The search of one component, from the unexplored vertex [x]. *)
Lemma dfs_component_rule fuel st st' (x : vertex VP EP) :
  x ∈ m_vertices g → m_descriptor x ∈ vertices_unexplored st →
  dfs_component_wide fuel g (Some st) x = Some st' →
  inv g st → edge_inv g st →
  (∀ w, live g w → w ∉ vertices_unexplored st → dfs_closed g st w) →
  P (mark_vertex (m_descriptor x) st) →
  P st' ∧ inv g st' ∧ edge_inv g st'
  ∧ (∀ w, live g w → w ∉ vertices_unexplored st' → dfs_closed g st' w)
  ∧ vertices_unexplored st' ⊆ vertices_unexplored st ∖ {[m_descriptor x]}
  ∧ edges_unexplored st' ⊆ edges_unexplored st.
Proof.
  intros Hx Hu Hrun Hi Hed Hc Hp. unfold dfs_component_wide in Hrun; simpl in Hrun.
  rewrite decide_True in Hrun by done.
  destruct (dfs_visit_rule fuel _ _ _ Hrun) as (Hi' & Hed' & Hp' & Hs' & Hse' & Hc' & Hn').
  - by apply vertex_live.
  - by apply inv_mark_vertex.
  - by apply edge_inv_mark_vertex.
  - exact Hp.
  - repeat (split; [done|]). split; [|done].
    intros w Hw Hnw. destruct (decide (w ∈ vertices_unexplored st)) as [Hin|Hin].
    + by apply Hn'.
    + intros t Ht. destruct (Hc w Hw Hin t Ht). split; set_solver.
Qed.

End DfsRule.

Lemma dfs_component_explored fuel st (x : vertex VP EP) :
  m_descriptor x ∉ vertices_unexplored st →
  dfs_component_wide fuel g (Some st) x = Some st.
Proof. intros Hn. unfold dfs_component_wide; simpl. by rewrite decide_False. Qed.

(** *** The loop over the components *)

(** A property of the position in the iteration order and of the state
    that every round of the loop keeps holds when the loop ends. *)
Lemma scan_rule (comp : option search_state → vertex VP EP → option search_state)
    (Q : nat → search_state → Prop) :
  (∀ x, comp None x = None) →
  (∀ i x st st', m_vertices g !! i = Some x → comp (Some st) x = Some st' →
     Q i st → Q (S i) st') →
  ∀ st st',
    fold_left comp (m_vertices g) (Some st) = Some st' →
    Q 0%nat st → Q (length (m_vertices g)) st'.
Proof.
  intros Hnone Hstep.
  assert (∀ l pre st st', m_vertices g = pre ++ l →
            fold_left comp l (Some st) = Some st' → Q (length pre) st →
            Q (length (m_vertices g)) st') as Hgen.
  { induction l as [|x l IH]; intros pre st st' Heq Hrun Hq; cbn [fold_left] in Hrun.
    - simplify_eq. by rewrite Heq, (right_id_L [] (++)).
    - destruct (comp (Some st) x) as [st1|] eqn:Hc.
      + apply (IH (pre ++ [x]) st1 st'); [by rewrite <- (assoc_L (++))|exact Hrun|].
        rewrite length_app, Nat.add_1_r. apply (Hstep _ x st); [|exact Hc|exact Hq].
        rewrite Heq. by apply list_lookup_middle.
      + exfalso. clear -Hrun Hnone. induction l as [|y l IHl]; [discriminate|].
        cbn [fold_left] in Hrun. rewrite Hnone in Hrun. by apply IHl. }
  intros st st' Hrun Hq. by apply (Hgen (m_vertices g) [] st st').
Qed.

End Explore.

(** ** The search forest *)

Lemma rooted_insert (p : gmap N Z) (t : N) (z : Z) v r n :
  rooted p v r n → p !! t = Some (-1) → r ≠ t → rooted (<[t:=z]> p) v r n.
Proof.
  intros Hroot Ht Hne. induction Hroot as [r Hr|v u r n Hv _ IH].
  - apply rooted_root. by rewrite lookup_insert_ne.
  - apply (rooted_step _ v u); [|by apply IH].
    rewrite lookup_insert_ne; [exact Hv|]. intros <-.
    rewrite Ht in Hv. injection Hv. lia.
Qed.

Lemma rooted_unique (p : gmap N Z) v r n r' n' :
  rooted p v r n → rooted p v r' n' → r = r' ∧ n = n'.
Proof.
  intros Hroot. revert r' n'.
  induction Hroot as [r Hr|v u r n Hv _ IH]; intros r' n' Hroot'.
  - destruct Hroot' as [r' _|v' u' r' n' Hv' _]; [done|].
    rewrite Hr in Hv'. injection Hv'. lia.
  - destruct Hroot' as [r' Hr'|v' u' r' n' Hv' Hroot'].
    + rewrite Hr' in Hv. injection Hv. lia.
    + rewrite Hv in Hv'. injection Hv' as Heq. apply N2Z.inj in Heq as <-.
      destruct (IH _ _ Hroot') as [-> ->]. done.
Qed.

Lemma rooted_sentinel (p : gmap N Z) v r n : rooted p v r n → p !! r = Some (-1).
Proof. induction 1; done. Qed.

Lemma rooted_root_of (p : gmap N Z) v r n :
  rooted p v r n → root_of (S n) p v = Some r.
Proof.
  induction 1 as [r Hr|v u r n Hv _ IH].
  - simpl. rewrite Hr. by rewrite decide_True.
  - cbn [root_of]. rewrite Hv. rewrite decide_False by lia.
    by rewrite N2Z.id.
Qed.

Section Forests.

Context {VP EP : Type}.
Variable g : graph VP EP.
Hypothesis Hwf : well_formed g.
Implicit Types (st : search_state) (u v t r : N).

Lemma first_reaching_mono i r v : first_reaching g i r v → first_reaching g (S i) r v.
Proof.
  intros (j & x & Hj & Hx & Hd & Hr & Hmin). exists j, x.
  split; [lia|]. done.
Qed.

Lemma first_reaching_unique i i' r r' v :
  first_reaching g i r v → first_reaching g i' r' v → r = r'.
Proof.
  intros (j & x & _ & Hx & <- & Hr & Hmin) (j' & x' & _ & Hx' & <- & Hr' & Hmin').
  destruct (Nat.lt_total j j') as [Hlt|[->|Hlt]].
  - by destruct (Hmin' j x Hlt Hx).
  - congruence.
  - by destruct (Hmin j' x' Hlt Hx').
Qed.

Lemma in_tree_mono i st v : in_tree g i st v → in_tree g (S i) st v.
Proof.
  intros (r & n & ? & ? & ? & ?). exists r, n.
  repeat (split; [done|]). by apply first_reaching_mono.
Qed.

Lemma scan_inv_initialize : scan_inv g 0 (initialize g).
Proof.
  assert (∀ v, live g v → v ∈ vertices_unexplored (initialize g)) as Hall.
  { intros v Hv. by rewrite initialize_vertices, elem_of_list_to_set. }
  split.
  - intros v Hv. rewrite initialize_parent. rewrite decide_True; [done|].
    by apply (inv_unexplored g _ (inv_initialize g)).
  - intros v Hv. split; [intros Hn; by destruct (Hn (Hall v Hv))|].
    intros (y & (j & x & Hj & _) & _). lia.
  - intros v Hv Hn. by destruct (Hn (Hall v Hv)).
Qed.

(** A round of the loop on a vertex that is already explored. *)
Lemma scan_inv_explored i (x : vertex VP EP) st :
  m_vertices g !! i = Some x → m_descriptor x ∉ vertices_unexplored st →
  outer_ok g st → scan_inv g i st → scan_inv g (S i) st.
Proof.
  intros Hx Hn [Hi _ Hc] [Hs He Ht]. split; [exact Hs| |].
  - intros v Hv. split.
    + intros (y & (j & z & Hj & Hz & Hzd) & Hr)%(He v Hv).
      exists y. split; [|exact Hr]. exists j, z. split; [lia|done].
    + intros (y & (j & z & Hj & Hz & <-) & Hr).
      destruct (decide (j = i)) as [->|Hne].
      * rewrite Hx in Hz. injection Hz as <-.
        apply (closed_reachable g Hwf st (m_descriptor x) v Hc Hr); [|exact Hn].
        by apply vertex_live, (list_elem_of_lookup_2 _ i).
      * apply (He v Hv). exists (m_descriptor z). split; [|exact Hr].
        exists j, z. split; [lia|done].
  - intros v Hv Hnv. by apply in_tree_mono, Ht.
Qed.

(** The steps of a search keep the invariant of the search of a
    component. *)
Lemma pass_inv_rule i x st0 :
  outer_ok g st0 → state_rule g (pass_inv g i x st0).
Proof.
  intros [Hi0 _ Hc0]. split.
  - intros st u t [Hs Hsub Hold Hnew] Hi Hu Hnu Ht Hut Hin.
    assert (parent st !! t = Some (-1)) as Hpt by (by apply Hs).
    split; unfold sentinel_inv, in_tree, discover; simpl.
    + intros v [Hv Hne%not_elem_of_singleton]%elem_of_difference.
      rewrite lookup_insert_ne by congruence. by apply Hs.
    + set_solver.
    + intros v Hv Hn0. destruct (Hold v Hv Hn0) as (r & n & Hroot & Hr & Hpath & Hfirst).
      exists r, n. split; [|split; [set_solver|done]].
      apply rooted_insert; [done|done|]. intros ->. done.
    + intros v Hv0 Hnv. destruct (decide (v = t)) as [->|Hne].
      * destruct (decide (u ∈ vertices_unexplored st0)) as [Hu0|Hu0].
        -- destruct (Hnew u Hu0 Hnu) as (n & Hroot & Hpath).
           exists (S n). split; [|by eapply nsteps_r].
           apply (rooted_step _ t u); [by rewrite lookup_insert_eq|].
           apply rooted_insert; [done|done|]. intros ->. set_solver.
        -- exfalso. apply (Hc0 u Hu Hu0 t Hut). set_solver.
      * destruct (Hnew v Hv0) as (n & Hroot & Hpath); [set_solver|].
        exists n. split; [|done].
        apply rooted_insert; [done|done|]. intros ->. set_solver.
  - intros st u t [Hs Hsub Hold Hnew] _ _ _ _ _ _. by split.
Qed.

Lemma pass_inv_start i (x : vertex VP EP) st :
  m_descriptor x ∈ vertices_unexplored st → scan_inv g i st →
  pass_inv g i (m_descriptor x) st (mark_vertex (m_descriptor x) st).
Proof.
  intros Hu [Hs He Ht]. split; unfold sentinel_inv in *; simpl.
  - intros v [Hv _]%elem_of_difference. by apply Hs.
  - done.
  - intros v Hv Hn. destruct (Ht v Hv Hn) as (r & n & ? & ? & ? & ?).
    exists r, n. split; [done|]. split; [set_solver|done].
  - intros v Hv Hn. assert (v = m_descriptor x) as ->.
    { destruct (decide (v = m_descriptor x)) as [|Hne]; [done|].
      exfalso. apply Hn. set_solver. }
    exists 0%nat. split; [apply rooted_root; by apply Hs|apply nsteps_O].
Qed.

Lemma pass_inv_end i (x : vertex VP EP) st st' :
  m_vertices g !! i = Some x → m_descriptor x ∈ vertices_unexplored st →
  inv g st → outer_ok g st' → scan_inv g i st →
  pass_inv g i (m_descriptor x) st st' → scan_inv g (S i) st'.
Proof.
  intros Hx Hu Hi [Hi' _ Hc'] [_ He _] [Hs Hsub Hold Hnew].
  assert (live g (m_descriptor x)) as Hlive
    by (by apply vertex_live, (list_elem_of_lookup_2 _ i)).
  assert (∀ v, v ∈ vertices_unexplored st → v ∉ vertices_unexplored st' →
               in_tree g (S i) st' v) as Hfresh.
  { intros v Hv Hnv. destruct (Hnew v Hv Hnv) as (n & Hroot & Hpath).
    exists (m_descriptor x), n. split; [done|]. split; [set_solver|]. split; [done|].
    exists i, x. split; [lia|]. split; [done|]. split; [done|].
    split; [by eapply rtc_nsteps_2|].
    intros j' y Hj' Hy Hreach.
    assert (v ∉ vertices_unexplored st); [|done].
    apply (He v); [by apply (inv_unexplored g _ Hi)|].
    exists (m_descriptor y). split; [|done]. by exists j', y. }
  split; [exact Hs| |].
  - intros v Hv. split.
    + intros Hnv. destruct (decide (v ∈ vertices_unexplored st)) as [Hin|Hin].
      * destruct (Hfresh v Hin Hnv) as (r & n & _ & _ & _ & j & z & Hj & Hz & Hzd & Hr & _).
        exists r. split; [|done]. by exists j, z.
      * destruct (proj1 (He v Hv) Hin) as (y & (j & z & Hj & Hz & Hzd) & Hr).
        exists y. split; [|exact Hr]. exists j, z. split; [lia|done].
    + intros (y & (j & z & Hj & Hz & <-) & Hr).
      destruct (decide (j = i)) as [->|Hne].
      * rewrite Hx in Hz. injection Hz as <-.
        apply (closed_reachable g Hwf st' (m_descriptor x) v Hc' Hr Hlive). set_solver.
      * assert (v ∉ vertices_unexplored st); [|set_solver].
        apply (He v Hv). exists (m_descriptor z). split; [|exact Hr].
        exists j, z. split; [lia|done].
  - intros v Hv Hnv. destruct (decide (v ∈ vertices_unexplored st)) as [Hin|Hin].
    + by apply Hfresh.
    + by apply in_tree_mono, Hold.
Qed.

(** The loop over the components, for a search that meets [comp_spec]. *)
Lemma scan_inv_run OK
    (comp : option search_state → vertex VP EP → option search_state) st :
  comp_spec g OK comp → OK (initialize g) →
  fold_left comp (m_vertices g) (Some (initialize g)) = Some st →
  OK st ∧ scan_inv g (length (m_vertices g)) st
  ∧ ∀ v, v ∉ vertices_unexplored st.
Proof.
  intros (Hok & Hnone & Hstep) Hinit Hrun.
  assert (OK st ∧ scan_inv g (length (m_vertices g)) st) as [HOK Hscan].
  { apply (scan_rule g comp (λ i st, OK st ∧ scan_inv g i st) Hnone)
      with (st := initialize g); [|exact Hrun|split; [exact Hinit|apply scan_inv_initialize]].
    intros i x st0 st1 Hx Hc [HOK0 Hscan0].
    pose proof (list_elem_of_lookup_2 _ _ _ Hx) as Hxin.
    destruct (Hstep x st0 st1 Hxin Hc HOK0) as [[Hn ->]|(Hu & HOK1 & Hsub & Hrule)].
    - split; [done|]. apply (scan_inv_explored i x); [done|done|by apply Hok|done].
    - split; [done|]. apply (pass_inv_end i x st0 st1); try done.
      + apply (ok_inv g _ (Hok _ HOK0)).
      + by apply Hok.
      + apply Hrule; [apply pass_inv_rule; by apply Hok|by apply pass_inv_start]. }
  split; [done|]. split; [done|].
  intros v Hv.
  assert (live g v) as Hlive
    by (apply (inv_unexplored g st); [apply (ok_inv g _ (Hok _ HOK))|done]).
  apply (si_explored g _ _ Hscan v Hlive); [|exact Hv].
  unfold live in Hlive. apply list_elem_of_fmap in Hlive as (x & -> & Hx).
  apply list_elem_of_lookup_1 in Hx as (j & Hj).
  exists (m_descriptor x). split; [|reflexivity].
  exists j, x. split; [by eapply lookup_lt_Some|done].
Qed.

(** A property that the steps of a search keep is kept by
    breadth_first_search, whatever the vertex at hand and the queue. *)
Lemma bfs_rule_of_state_rule (P : search_state → Prop) :
  (∀ st u t,
     P st → inv g st → live g u → u ∉ vertices_unexplored st →
     t ∈ vertices_unexplored st → has_edge g u t → (u, t) ∈ edges_unexplored st →
     P (discover u t st)) →
  bfs_rule g (λ _ _, P).
Proof. intros Hd. split; [done| |done]. intros st u q t. apply Hd. Qed.

Lemma bfs_comp_spec fuel : comp_spec g (outer_ok g) (bfs_component_wide fuel g).
Proof.
  split; [done|]. split; [done|].
  intros x st st' Hx Hrun Hok.
  destruct (decide (m_descriptor x ∈ vertices_unexplored st)) as [Hu|Hu].
  - right. split; [exact Hu|].
    destruct (bfs_component_rule g Hwf (λ _ _ _, True) ltac:(done) fuel st st' x
                Hx Hu Hrun Hok I) as (_ & Hok' & Hsub).
    split; [exact Hok'|]. split; [exact Hsub|].
    intros P HP Hstart.
    apply (bfs_component_rule g Hwf (λ _ _, P)
             (bfs_rule_of_state_rule P (sr_discover g P HP)) fuel st st' x
             Hx Hu Hrun Hok Hstart).
  - left. split; [exact Hu|].
    rewrite bfs_component_explored in Hrun by done. by injection Hrun.
Qed.

Lemma dfs_ok_outer st : dfs_ok g st → outer_ok g st.
Proof.
  intros (Hi & He & Hc & _). split; [done|done|].
  intros w Hw Hn t Ht. by destruct (Hc w Hw Hn t Ht).
Qed.

Lemma dfs_comp_spec fuel : comp_spec g (dfs_ok g) (dfs_component_wide fuel g).
Proof.
  split; [apply dfs_ok_outer|]. split; [done|].
  intros x st st' Hx Hrun (Hi & He & Hc & Hsub0).
  destruct (decide (m_descriptor x ∈ vertices_unexplored st)) as [Hu|Hu].
  - right. split; [exact Hu|].
    destruct (dfs_component_rule g Hwf (λ _, True) ltac:(done) fuel st st' x
                Hx Hu Hrun Hi He Hc I) as (_ & Hi' & He' & Hc' & Hsub & Hsube).
    split; [|split; [exact Hsub|]].
    + split; [done|]. split; [done|]. split; [done|]. set_solver.
    + intros P HP Hstart.
      apply (dfs_component_rule g Hwf P HP fuel st st' x Hx Hu Hrun Hi He Hc Hstart).
  - left. split; [exact Hu|].
    rewrite dfs_component_explored in Hrun by done. by injection Hrun.
Qed.

Lemma dfs_ok_initialize : dfs_ok g (initialize g).
Proof.
  split; [apply inv_initialize|]. split; [by apply edge_inv_initialize|].
  split; [|done]. intros w Hw Hn. exfalso. apply Hn.
  rewrite initialize_vertices, elem_of_list_to_set. exact Hw.
Qed.

Lemma bfs_scan_inv st :
  bfs_run_wide g = Some st →
  outer_ok g st ∧ scan_inv g (length (m_vertices g)) st
  ∧ ∀ v, v ∉ vertices_unexplored st.
Proof.
  apply (scan_inv_run (outer_ok g)); [apply bfs_comp_spec|].
  by apply outer_ok_initialize.
Qed.

Lemma dfs_scan_inv st :
  dfs_run_wide g = Some st →
  dfs_ok g st ∧ scan_inv g (length (m_vertices g)) st
  ∧ ∀ v, v ∉ vertices_unexplored st.
Proof.
  apply (scan_inv_run (dfs_ok g)); [apply dfs_comp_spec|].
  apply dfs_ok_initialize.
Qed.

(** A property that the steps of a search and the start of a component
    keep holds when the search returns. *)
Lemma run_state_rule OK
    (comp : option search_state → vertex VP EP → option search_state)
    (P : search_state → Prop) st :
  comp_spec g OK comp → OK (initialize g) → state_rule g P →
  (∀ st r, P st → P (mark_vertex r st)) → P (initialize g) →
  fold_left comp (m_vertices g) (Some (initialize g)) = Some st → P st.
Proof.
  intros (Hok & Hnone & Hstep) Hinit HP Hroot Hstart Hrun.
  assert (OK st ∧ P st) as [_ Hfinal]; [|exact Hfinal].
  apply (scan_rule g comp (λ _ st, OK st ∧ P st) Hnone) with (st := initialize g);
    [|exact Hrun|done].
  intros i x st0 st1 Hx Hc [HOK0 HP0].
  pose proof (list_elem_of_lookup_2 _ _ _ Hx) as Hxin.
  destruct (Hstep x st0 st1 Hxin Hc HOK0) as [[Hn ->]|(Hu & HOK1 & Hsub & Hrule)];
    [done|].
  split; [done|]. apply Hrule; [done|]. by apply Hroot.
Qed.

Lemma parents_are_edges_rule : state_rule g (parents_are_edges g).
Proof.
  split.
  - intros st u t HP _ _ _ _ Hut _ b z. unfold discover; simpl.
    destruct (decide (b = t)) as [->|Hne].
    + rewrite lookup_insert_eq. intros [= <-]. right. by exists u.
    + rewrite lookup_insert_ne by done. apply HP.
  - intros st u t HP _ _ _ _ _ _. exact HP.
Qed.

Lemma parents_are_edges_run OK
    (comp : option search_state → vertex VP EP → option search_state) st :
  comp_spec g OK comp → OK (initialize g) →
  fold_left comp (m_vertices g) (Some (initialize g)) = Some st →
  parents_are_edges g st.
Proof.
  intros Hspec Hinit.
  apply (run_state_rule OK comp (parents_are_edges g));
    [done|done|apply parents_are_edges_rule|done|].
  intros t z. rewrite initialize_parent. case_decide; [|done]. intros [= <-]. by left.
Qed.

Lemma bfs_run_rule (P : search_state → Prop) st :
  bfs_rule g (λ _ _, P) → (∀ st r, P st → P (mark_vertex r st)) →
  P (initialize g) → bfs_run_wide g = Some st → P st.
Proof.
  intros HP Hroot Hstart Hrun.
  assert (outer_ok g st ∧ P st) as [_ Hfinal]; [|exact Hfinal].
  apply (scan_rule g (bfs_component_wide (length (m_vertices g)) g)
           (λ _ st, outer_ok g st ∧ P st)) with (st := initialize g);
    [done| |exact Hrun|split; [by apply outer_ok_initialize|done]].
  intros i x st0 st1 Hx Hc [Hok0 HP0].
  pose proof (list_elem_of_lookup_2 _ _ _ Hx) as Hxin.
  destruct (decide (m_descriptor x ∈ vertices_unexplored st0)) as [Hu|Hu].
  - destruct (bfs_component_rule g Hwf (λ _ _, P) HP _ st0 st1 x Hxin Hu Hc Hok0)
      as (HP1 & Hok1 & _); [by apply Hroot|done].
  - rewrite bfs_component_explored in Hc by done. by injection Hc as <-.
Qed.

Lemma unexplored_non_tree_rule : bfs_rule g (λ _ _, unexplored_non_tree g).
Proof.
  apply bfs_rule_of_state_rule.
  intros st u t [Hs He] _ _ _ Ht Hut Hin.
  assert (parent st !! t = Some (-1)) as Hpt by (by apply Hs).
  split; unfold sentinel_inv, discover; simpl.
  - intros v [Hv Hne%not_elem_of_singleton]%elem_of_difference.
    rewrite lookup_insert_ne by congruence. by apply Hs.
  - intros a b Hab. rewrite elem_of_difference, elem_of_singleton.
    destruct (decide (b = t)) as [->|Hne].
    + rewrite lookup_insert_eq. destruct (decide (a = u)) as [->|Hau].
      * split; [by intros [_ ?]|done].
      * split.
        -- intros _ Heq. injection Heq as Heq. apply N2Z.inj in Heq. by subst.
        -- intros _. split; [|intros Heq; injection Heq as ->; done].
           apply (He a t Hab). rewrite Hpt. intros Heq. injection Heq. lia.
    + rewrite lookup_insert_ne by done. rewrite (He a b Hab).
      split; [by intros [? _]|]. intros ?. split; [done|].
      intros Heq. injection Heq as -> ->. done.
Qed.

End Forests.

(** ** Breadth-first search and the lengths of paths *)

Lemma rooted_insert_inv (p : gmap N Z) (t : N) (z : Z) a r0 n0 r n :
  rooted p a r0 n0 → p !! t = Some (-1) → r0 ≠ t →
  rooted (<[t:=z]> p) a r n → rooted p a r n.
Proof.
  intros H0 Ht Hne H. pose proof (rooted_insert p t z a r0 n0 H0 Ht Hne) as H0'.
  by destruct (rooted_unique _ _ _ _ _ _ H H0') as [-> ->].
Qed.

Lemma rooted_insert_new (p : gmap N Z) (t u : N) r n :
  rooted (<[t:=Z.of_N u]> p) t r n →
  ∃ n', n = S n' ∧ rooted (<[t:=Z.of_N u]> p) u r n'.
Proof.
  inversion 1 as [? Hr|? u' ? n' Hv Hu]; subst.
  - rewrite lookup_insert_eq in Hr. injection Hr. lia.
  - rewrite lookup_insert_eq in Hv. injection Hv as Heq.
    apply N2Z.inj in Heq as ->. by exists n'.
Qed.

Lemma rooted_self (p : gmap N Z) x n : rooted p x x n → n = 0%nat.
Proof.
  intros H. pose proof (rooted_sentinel _ _ _ _ H) as Hs.
  by destruct (rooted_unique _ _ _ _ _ _ H (rooted_root p x Hs)).
Qed.

Section Levels.

Context {VP EP : Type}.
Variable g : graph VP EP.
Hypothesis Hwf : well_formed g.
Implicit Types (st : search_state) (u v t r : N).

Lemma live_nsteps x y n : live g x → nsteps (has_edge g) n x y → live g y.
Proof.
  intros Hx Hpath. induction Hpath as [|n a b c Hab _ IH]; [done|].
  apply IH. by eapply wf_target_live.
Qed.

Lemma level_inv_rule i x st0 :
  outer_ok g st0 → bfs_rule g (level_inv g i x st0).
Proof.
  intros Hok0. split.
  - intros st u q [Hp Ho Hq Hs Hb Hd] _ _ _. by split.
  - intros st u q t [Hp Ho Hq Hs Hb Hd] Hi Hu Hnu Ht Hut Hin.
    pose proof (pi_sentinel g _ _ _ _ Hp t Ht) as Hpt.
    pose proof (pi_sub g _ _ _ _ Hp) as Hsub.
    assert (x ∉ vertices_unexplored st) as Hx by set_solver.
    assert (t ∈ vertices_unexplored st0) as Ht0 by set_solver.
    destruct (Hq u) as [Hu0 _]; [apply list_elem_of_here|].
    assert (∀ a n, a ∈ vertices_unexplored st0 → a ∉ vertices_unexplored st →
              rooted (<[t:=Z.of_N u]> (parent st)) a x n → rooted (parent st) a x n)
      as Hback.
    { intros a n Ha0 Ha Hroot.
      destruct (pi_new g _ _ _ _ Hp a Ha0 Ha) as (n0 & Hroot0 & _).
      apply (rooted_insert_inv _ t (Z.of_N u) a x n0); try done. by intros ->. }
    assert (∀ n, rooted (<[t:=Z.of_N u]> (parent st)) t x n →
              ∃ k, n = S k ∧ rooted (parent st) u x k) as Hdt.
    { intros n (k & -> & Hroot)%rooted_insert_new. exists k. split; [done|].
      by apply Hback. }
    split.
    + by apply (sr_discover g _ (pass_inv_rule g Hwf i x st0 Hok0)).
    + intros v Hv Hv0 r n Hroot. apply (Ho v Hv Hv0).
      destruct (pi_old g _ _ _ _ Hp v Hv Hv0) as (r1 & n1 & Hroot1 & Hr1 & _).
      apply (rooted_insert_inv _ t (Z.of_N u) v r1 n1); try done. by intros ->.
    + intros a Ha. simpl in Ha. rewrite app_comm_cons in Ha.
      apply elem_of_app in Ha as [Ha| ->%list_elem_of_singleton].
      * destruct (Hq a Ha). split; [done|]. unfold discover; simpl. set_solver.
      * split; [done|]. unfold discover; simpl. set_solver.
    + intros j1 j2 a b na nb Hj Ha Hb' Hra Hrb. unfold discover in *; simpl in *.
      rewrite app_comm_cons in Ha, Hb'.
      apply lookup_snoc_Some in Ha as [[Hj1 Ha]|[Hj1 <-]];
        apply lookup_snoc_Some in Hb' as [[Hj2 Hb']|[Hj2 <-]].
      * destruct (Hq a (list_elem_of_lookup_2 _ _ _ Ha)),
                 (Hq b (list_elem_of_lookup_2 _ _ _ Hb')).
        apply (Hs j1 j2 a b); try done; by apply Hback.
      * destruct (Hq a (list_elem_of_lookup_2 _ _ _ Ha)).
        destruct (Hdt nb Hrb) as (k & -> & Hk).
        apply (Hb u k a na); try done. by apply Hback.
      * simpl in *. lia.
      * destruct (rooted_unique _ _ _ _ _ _ Hra Hrb) as [_ ->]. lia.
    + intros f kf w nw Hf Hrf Hw0 Hw Hrw. unfold discover in *; simpl in *.
      injection Hf as <-. apply Hback in Hrf; [|done|done].
      destruct (decide (w = t)) as [->|Hne].
      * destruct (Hdt nw Hrw) as (k & -> & Hk).
        by destruct (rooted_unique _ _ _ _ _ _ Hk Hrf) as [_ ->].
      * assert (w ∉ vertices_unexplored st) as Hw' by set_solver.
        apply (Hb u kf w nw); try done. by apply Hback.
    + intros a Ha0 Ha. unfold discover in *; simpl in *.
      rewrite app_comm_cons. destruct (decide (a = t)) as [->|Hne].
      * left. apply elem_of_app. right. apply list_elem_of_here.
      * assert (a ∉ vertices_unexplored st) as Ha' by set_solver.
        destruct (Hd a Ha0 Ha') as [Hin'|Hlev]; [left; apply elem_of_app; by left|].
        right. intros b Hab Hb0. destruct (Hlev b Hab Hb0) as [Hnb Hle].
        split; [set_solver|]. intros na nb Hra Hrb.
        apply Hle; by apply Hback.
  - intros st u q [Hp Ho Hq Hs Hb Hd] Hi Hu Hcl.
    destruct (Hq u) as [Hu0 Hnu]; [apply list_elem_of_here|].
    destruct (pi_new g _ _ _ _ Hp u Hu0 Hnu) as (ku & Hku & _).
    split; simpl in *.
    + done.
    + done.
    + intros a Ha. by apply Hq, list_elem_of_further.
    + intros j1 j2 a b na nb Hj Ha Hb'. apply (Hs (S j1) (S j2) a b); [lia|done|done].
    + intros f kf w nw Hf Hrf Hw0 Hw Hrw. destruct q as [|f' q]; [done|].
      injection Hf as ->.
      assert (ku ≤ kf)%nat by (apply (Hs 0%nat 1%nat u f); [lia|done..]).
      assert (nw ≤ S ku)%nat by (by apply (Hb u ku w nw)). lia.
    + intros a Ha0 Ha. destruct (Hd a Ha0 Ha) as [[-> |Hin]%elem_of_cons|Hlev];
        [|by left|by right].
      right. intros b Hab Hb0. split; [by apply (Hcl b)|].
      intros na nb Hra Hrb. apply (Hb u na b nb); try done. by apply (Hcl b).
Qed.

Lemma level_inv_start i (x : vertex VP EP) st :
  m_descriptor x ∈ vertices_unexplored st → scan_inv g i st → shortest g st →
  level_inv g i (m_descriptor x) st None [m_descriptor x]
    (mark_vertex (m_descriptor x) st).
Proof.
  intros Hu Hscan Hshort.
  assert (∀ w, w ∈ vertices_unexplored st →
               w ∉ vertices_unexplored st ∖ {[m_descriptor x]} → w = m_descriptor x)
    as Hnew.
  { intros w Hw Hn. destruct (decide (w = m_descriptor x)); [done|].
    exfalso. apply Hn. set_solver. }
  split; simpl.
  - by apply pass_inv_start.
  - intros v Hv Hv0. by apply Hshort.
  - intros a ->%list_elem_of_singleton. split; [done|set_solver].
  - intros j1 j2 a b na nb _ Ha Hb Hra Hrb.
    apply list_lookup_singleton_Some in Ha as [_ <-].
    apply list_lookup_singleton_Some in Hb as [_ <-].
    by destruct (rooted_unique _ _ _ _ _ _ Hra Hrb) as [_ ->].
  - intros f kf w nw [= <-] Hrf Hw0 Hw Hrw. rewrite (Hnew w Hw0 Hw) in Hrw.
    by destruct (rooted_unique _ _ _ _ _ _ Hrf Hrw) as [_ ->]; lia.
  - intros a Ha0 Ha. left. rewrite (Hnew a Ha0 Ha). apply list_elem_of_here.
Qed.

(** At the end of the search of the component of [x], a vertex of the
    component is no deeper in its tree than any path from [x] is long. *)
Lemma level_inv_paths i x st0 st :
  outer_ok g st0 → outer_ok g st → live g x → x ∈ vertices_unexplored st0 →
  level_inv g i x st0 None [] st →
  ∀ m v, nsteps (has_edge g) m x v → v ∈ vertices_unexplored st0 →
         ∃ n, rooted (parent st) v x n ∧ (n ≤ m)%nat.
Proof.
  intros [_ _ Hc0] [_ _ Hc] Hx Hx0 [Hp _ _ _ _ Hd].
  pose proof (pi_sub g _ _ _ _ Hp) as Hsub.
  assert (x ∉ vertices_unexplored st) as Hnx by set_solver.
  induction m as [|m IH]; intros v Hpath Hv0.
  - inversion Hpath; subst.
    destruct (pi_new g _ _ _ _ Hp v Hv0 Hnx) as (n & Hroot & _).
    exists n. split; [done|]. by rewrite (rooted_self _ _ _ Hroot).
  - apply nsteps_inv_r in Hpath as (y & Hxy & Hyv).
    pose proof (live_nsteps x y m Hx Hxy) as Hy.
    assert (y ∈ vertices_unexplored st0) as Hy0.
    { destruct (decide (y ∈ vertices_unexplored st0)) as [|Hn]; [done|].
      by destruct (Hc0 y Hy Hn v Hyv). }
    destruct (IH y Hxy Hy0) as (ny & Hry & Hle).
    assert (y ∉ vertices_unexplored st) as Hny
      by (apply (closed_reachable g Hwf st x y Hc); [by eapply rtc_nsteps_2|done|done]).
    destruct (Hd y Hy0 Hny) as [Hin|Hlev]; [by apply elem_of_nil in Hin|].
    destruct (Hlev v Hyv Hv0) as [Hnv Hdepth].
    destruct (pi_new g _ _ _ _ Hp v Hv0 Hnv) as (nv & Hrv & _).
    exists nv. split; [done|]. specialize (Hdepth ny nv Hry Hrv). lia.
Qed.

Lemma level_inv_end i (x : vertex VP EP) st st' :
  outer_ok g st → outer_ok g st' →
  x ∈ m_vertices g → m_descriptor x ∈ vertices_unexplored st →
  level_inv g i (m_descriptor x) st None [] st' → shortest g st'.
Proof.
  intros Hok Hok' Hx Hu Hlev v Hv Hnv r n Hroot m Hpath.
  destruct (decide (v ∈ vertices_unexplored st)) as [Hv0|Hv0].
  - destruct (pi_new g _ _ _ _ (li_pass g _ _ _ _ _ _ Hlev) v Hv0 Hnv) as (nv & Hrv & _).
    destruct (rooted_unique _ _ _ _ _ _ Hroot Hrv) as [-> ->].
    destruct (level_inv_paths i (m_descriptor x) st st' Hok Hok'
                (vertex_live g x Hx) Hu Hlev m v Hpath Hv0) as (n' & Hr' & Hle).
    by destruct (rooted_unique _ _ _ _ _ _ Hrv Hr') as [_ ->].
  - by apply (li_old g _ _ _ _ _ _ Hlev v Hv Hv0 r n).
Qed.

Lemma bfs_shortest st :
  bfs_run_wide g = Some st →
  shortest g st ∧ scan_inv g (length (m_vertices g)) st.
Proof.
  intros Hrun.
  assert (outer_ok g st ∧ scan_inv g (length (m_vertices g)) st ∧ shortest g st)
    as (_ & ? & ?); [|done].
  apply (scan_rule g (bfs_component_wide (length (m_vertices g)) g)
           (λ i st, outer_ok g st ∧ scan_inv g i st ∧ shortest g st))
    with (st := initialize g); [done| |exact Hrun|].
  - intros i x st0 st1 Hx Hc (Hok0 & Hscan0 & Hshort0).
    pose proof (list_elem_of_lookup_2 _ _ _ Hx) as Hxin.
    destruct (decide (m_descriptor x ∈ vertices_unexplored st0)) as [Hu|Hu].
    + destruct (bfs_component_rule g Hwf (level_inv g i (m_descriptor x) st0)
                  (level_inv_rule i (m_descriptor x) st0 Hok0) _ st0 st1 x
                  Hxin Hu Hc Hok0) as (Hlev & Hok1 & _);
        [by apply level_inv_start|].
      split; [done|]. split.
      * apply (pass_inv_end g Hwf i x st0 st1); try done;
          [apply (ok_inv g _ Hok0)|apply (li_pass g _ _ _ _ _ _ Hlev)].
      * by apply (level_inv_end i x st0 st1).
    + rewrite bfs_component_explored in Hc by done. injection Hc as <-.
      split; [done|]. split; [|done]. by apply (scan_inv_explored g Hwf i x).
  - split; [apply outer_ok_initialize|]. split; [apply scan_inv_initialize|].
    intros v Hv Hn. exfalso. apply Hn.
    by rewrite initialize_vertices, elem_of_list_to_set.
Qed.

End Levels.
(** ** The searches and the search forest

    The locals of a search whose parent map has the mapped type of 64 bits
    are those of the search forest, with the parent map converted. *)

Lemma to_parent_stored (u : N) : to_parent u = stored (Z.of_N u).
Proof.
  unfold to_parent, stored. destruct (decide (u = SIZE_MAX)) as [-> |Hu].
  - by rewrite decide_True.
  - rewrite decide_False; [done|]. by intros ?%N2Z.inj.
Qed.

Lemma to_parent_below (u : N) : (u < SIZE_MAX)%N → to_parent u = Z.of_N u.
Proof. intros Hu. unfold to_parent. rewrite decide_False; [done|lia]. Qed.

Lemma stored_set_parent (t u : N) st :
  stored_state (set_parent_wide t u st) = set_parent t u (stored_state st).
Proof.
  unfold stored_state, set_parent, set_parent_wide; simpl.
  by rewrite fmap_insert, to_parent_stored.
Qed.

Lemma stored_fold {A : Type} (f : search_state → A → search_state) (l : list A) :
  (∀ st a, stored_state (f st a) = f (stored_state st) a) →
  ∀ st, stored_state (fold_left f l st) = fold_left f l (stored_state st).
Proof.
  intros Hf. induction l as [|a l IH]; intros st; simpl; [done|].
  by rewrite IH, Hf.
Qed.

Lemma stored_initialize {VP EP : Type} (g : graph VP EP) :
  stored_state (initialize g) = initialize g.
Proof.
  unfold initialize. rewrite !stored_fold.
  - unfold stored_state; simpl. by rewrite fmap_empty.
  - intros st v. unfold stored_state, init_vertex; simpl. by rewrite fmap_insert.
  - done.
Qed.

Section Stored.

Context {VP EP : Type}.
Variable g : graph VP EP.
Implicit Types (st : search_state) (x : vertex VP EP) (e : edge EP).

Lemma stored_bfs_edge x qs e :
  bfs_edge x (prod_map id stored_state qs) e
  = prod_map id stored_state (bfs_edge_wide x qs e).
Proof.
  destruct qs as [q st]. unfold bfs_edge, bfs_edge_wide; simpl.
  repeat case_decide; try done.
  unfold prod_map; simpl. f_equal.
  by rewrite <- (stored_set_parent _ _ (mark_edge (descriptor e) st)).
Qed.

Lemma stored_fold_bfs_edge x (l : list (edge EP)) : ∀ qs,
  fold_left (bfs_edge x) l (prod_map id stored_state qs)
  = prod_map id stored_state (fold_left (bfs_edge_wide x) l qs).
Proof.
  induction l as [|e l IH]; intros qs; simpl; [done|].
  by rewrite stored_bfs_edge, IH.
Qed.

Lemma stored_bfs_while fuel : ∀ qs,
  bfs_while fuel g (prod_map id stored_state qs)
  = stored_state <$> bfs_while_wide fuel g qs.
Proof.
  induction fuel as [|fuel IH]; intros [[|vd q] st]; simpl; try done.
  destruct (find_vertex vd g) as [x|]; [|done].
  rewrite <- IH, <- stored_fold_bfs_edge. done.
Qed.

Lemma stored_bfs_component fuel (ost : option search_state) x :
  bfs_component fuel g (stored_state <$> ost) x
  = stored_state <$> bfs_component_wide fuel g ost x.
Proof.
  destruct ost as [st|]; [|done]. unfold bfs_component, bfs_component_wide; simpl.
  case_decide; [|done].
  by rewrite <- (stored_bfs_while fuel ([m_descriptor x], mark_vertex (m_descriptor x) st)).
Qed.

Lemma stored_dfs_edge visit visit' u (ost : option search_state) e :
  (∀ t st, visit t (stored_state st) = stored_state <$> visit' t st) →
  dfs_edge visit u (stored_state <$> ost) e
  = stored_state <$> dfs_edge_wide visit' u ost e.
Proof.
  intros Hv. destruct ost as [st|]; [|done]. unfold dfs_edge, dfs_edge_wide; simpl.
  repeat case_decide; try done.
  by rewrite <- Hv, stored_set_parent.
Qed.

Lemma stored_fold_dfs_edge visit visit' u (l : list (edge EP)) :
  (∀ t st, visit t (stored_state st) = stored_state <$> visit' t st) →
  ∀ ost, fold_left (dfs_edge visit u) l (stored_state <$> ost)
         = stored_state <$> fold_left (dfs_edge_wide visit' u) l ost.
Proof.
  intros Hv. induction l as [|e l IH]; intros ost; simpl; [done|].
  by rewrite (stored_dfs_edge _ visit'), IH.
Qed.

Lemma stored_dfs_visit fuel : ∀ u st,
  dfs_visit fuel g u (stored_state st) = stored_state <$> dfs_visit_wide fuel g u st.
Proof.
  induction fuel as [|fuel IH]; intros u st; simpl; [done|].
  destruct (find_vertex u g) as [x|]; [|done].
  by rewrite <- (stored_fold_dfs_edge _ _ u _ IH (Some (mark_vertex u st))).
Qed.

Lemma stored_dfs_component fuel (ost : option search_state) x :
  dfs_component fuel g (stored_state <$> ost) x
  = stored_state <$> dfs_component_wide fuel g ost x.
Proof.
  destruct ost as [st|]; [|done]. unfold dfs_component, dfs_component_wide; simpl.
  case_decide; [|done]. apply stored_dfs_visit.
Qed.

Lemma stored_fold_component
    (comp comp' : option search_state → vertex VP EP → option search_state)
    (l : list (vertex VP EP)) :
  (∀ ost x, comp (stored_state <$> ost) x = stored_state <$> comp' ost x) →
  ∀ ost, fold_left comp l (stored_state <$> ost) = stored_state <$> fold_left comp' l ost.
Proof.
  intros Hc. induction l as [|x l IH]; intros ost; simpl; [done|].
  by rewrite Hc, IH.
Qed.

(** breadth_first_search leaves its locals as the search forest has them,
    with the parent map converted. *)
Lemma bfs_run_stored : bfs_run g = stored_state <$> bfs_run_wide g.
Proof.
  unfold bfs_run, bfs_run_wide.
  rewrite <- (stored_fold_component _ _ _ (stored_bfs_component _)); simpl.
  by rewrite stored_initialize.
Qed.

Lemma dfs_run_stored : dfs_run g = stored_state <$> dfs_run_wide g.
Proof.
  unfold dfs_run, dfs_run_wide.
  rewrite <- (stored_fold_component _ _ _ (stored_dfs_component _)); simpl.
  by rewrite stored_initialize.
Qed.

(** Both searches return, whatever the graph. *)
Lemma searches_return :
  ∃ sb sd, bfs_run_wide g = Some sb ∧ dfs_run_wide g = Some sd
           ∧ bfs_run g = Some (stored_state sb) ∧ dfs_run g = Some (stored_state sd)
           ∧ inv g sb ∧ inv g sd.
Proof.
  destruct (bfs_run_total g) as (sb & Hb & Hib).
  destruct (dfs_run_total g) as (sd & Hd & Hid).
  exists sb, sd. rewrite bfs_run_stored, dfs_run_stored, Hb, Hd. done.
Qed.

Lemma stored_dom (T : gmap N Z) v : is_Some ((stored <$> T) !! v) ↔ is_Some (T !! v).
Proof. by rewrite lookup_fmap, fmap_is_Some. Qed.

Lemma stored_sentinel (T : gmap N Z) r :
  T !! r = Some (-1) → (stored <$> T) !! r = Some (-1).
Proof. intros Hr. by rewrite lookup_fmap, Hr. Qed.

(** An entry of the converted map other than the sentinel is an entry of
    the search forest. *)
Lemma stored_parent (T : gmap N Z) t u :
  (stored <$> T) !! t = Some (Z.of_N u) → T !! t = Some (Z.of_N u).
Proof.
  rewrite lookup_fmap. destruct (T !! t) as [z|]; simpl; [|done].
  unfold stored. case_decide; intros [= Hz]; [lia|by subst].
Qed.

(** The parents of the converted map lead from a vertex to an ancestor of
    the vertex in the search forest. *)
Lemma rooted_stored (T : gmap N Z) v r n :
  rooted T v r n →
  ∃ a k j, rooted (stored <$> T) v a k ∧ rooted T a r j ∧ n = (k + j)%nat.
Proof.
  induction 1 as [r Hr|v u r n Hv Hu (a & k & j & Hk & Hj & ->)].
  - exists r, 0%nat, 0%nat. split; [|split; [|done]].
    + apply rooted_root. by apply stored_sentinel.
    + by apply rooted_root.
  - destruct (decide (u = SIZE_MAX)) as [Heq|Hne].
    + exists v, 0%nat, (S (k + j)). split; [|split; [|done]].
      * apply rooted_root. rewrite lookup_fmap, Hv; simpl.
        unfold stored. by rewrite decide_True by (by subst).
      * by apply (rooted_step _ v u).
    + exists a, (S k), j. split; [|split; [done|done]].
      apply (rooted_step _ v u); [|done]. rewrite lookup_fmap, Hv; simpl.
      unfold stored. rewrite decide_False; [done|]. by intros ?%N2Z.inj.
Qed.

Lemma rooted_path (p : gmap N Z) v r n :
  (∀ t u, p !! t = Some (Z.of_N u) → has_edge g u t) →
  rooted p v r n → nsteps (has_edge g) n r v.
Proof.
  intros He. induction 1 as [r Hr|v u r n Hv Hu IH]; [constructor|].
  eapply nsteps_r; [exact IH|]. by apply He.
Qed.

(** When every descriptor is below SIZE_MAX the conversion changes nothing:
    the parent map is the search forest. *)
Lemma stored_below st :
  well_formed g → below_sentinel g → parents_are_edges g st → stored_state st = st.
Proof.
  intros Hwf Hlt He. destruct st as [T E V]. unfold stored_state; simpl. f_equal.
  apply map_eq. intros t. rewrite lookup_fmap.
  destruct (T !! t) as [z|] eqn:Ht; simpl; [|done]. f_equal.
  unfold stored. case_decide as Hz; [|done]. exfalso.
  destruct (He t z Ht) as [->|(u & -> & Hut)]; [done|].
  apply N2Z.inj in Hz as ->.
  destruct (wf_edge_listed g Hwf _ t Hut) as (x & _ & Hx & Hd & _).
  unfold below_sentinel in Hlt. rewrite Forall_forall in Hlt.
  specialize (Hlt x Hx). lia.
Qed.

Lemma bfs_run_below :
  well_formed g → below_sentinel g → bfs_run g = bfs_run_wide g.
Proof.
  intros Hwf Hlt. rewrite bfs_run_stored.
  destruct (bfs_run_wide g) as [st|] eqn:Hrun; [|done]. simpl. f_equal.
  apply (stored_below st Hwf Hlt).
  apply (parents_are_edges_run g (outer_ok g) _ st
           (bfs_comp_spec g Hwf _) (outer_ok_initialize g) Hrun).
Qed.

Lemma dfs_run_below :
  well_formed g → below_sentinel g → dfs_run g = dfs_run_wide g.
Proof.
  intros Hwf Hlt. rewrite dfs_run_stored.
  destruct (dfs_run_wide g) as [st|] eqn:Hrun; [|done]. simpl. f_equal.
  apply (stored_below st Hwf Hlt).
  apply (parents_are_edges_run g (dfs_ok g) _ st
           (dfs_comp_spec g Hwf _) (dfs_ok_initialize g) Hrun).
Qed.

End Stored.

Lemma forest_edges {VP EP : Type} (g : graph VP EP) st :
  parents_are_edges g st →
  ∀ t u, parent st !! t = Some (Z.of_N u) → has_edge g u t.
Proof.
  intros He t u Ht. destruct (He t _ Ht) as [?|(u' & ->%N2Z.inj & ?)]; [lia|done].
Qed.

(** ** The parent maps of the searches *)

(** C5, as amended: on every graph breadth_first_search and
    depth_first_search return a parent map whose entries are exactly the
    live vertex descriptors, empty on the empty graph.  On a graph that
    satisfies the invariants of the data model, stores every edge with its
    mirror and has every descriptor below SIZE_MAX, the value that the
    sentinel -1 takes in the mapped type of the parent map, every connected
    component has exactly one vertex whose entry is the sentinel, and the
    number of sentinel entries is the number K of connected components. *)
Theorem searches_parent_map {VP EP : Type} (g : graph VP EP) (p0 : gmap N Z) :
  ∃ pb pd : gmap N Z,
    breadth_first_search g p0 = Some pb
    ∧ depth_first_search g p0 = Some pd
    ∧ (∀ v, is_Some (pb !! v) ↔ live g v)
    ∧ (∀ v, is_Some (pd !! v) ↔ live g v)
    ∧ (m_vertices g = [] → pb = ∅ ∧ pd = ∅)
    ∧ (well_formed g → symmetric_edges g → below_sentinel g →
         one_root_per_component g pb
         ∧ one_root_per_component g pd
         ∧ has_components g (num_sentinel pb)
         ∧ ∀ K, has_components g K → num_sentinel pb = K ∧ num_sentinel pd = K).
Proof.
  destruct (searches_return g) as (sb & sd & Hb & Hd & Hrb & Hrd & Hib & Hid).
  exists (parent (stored_state sb)), (parent (stored_state sd)).
  unfold breadth_first_search, depth_first_search. rewrite Hrb, Hrd.
  split; [reflexivity|]. split; [reflexivity|].
  assert (∀ v, is_Some (parent (stored_state sb) !! v) ↔ live g v) as Hdb.
  { intros v. simpl. rewrite stored_dom. apply (inv_dom _ _ Hib). }
  assert (∀ v, is_Some (parent (stored_state sd) !! v) ↔ live g v) as Hdd.
  { intros v. simpl. rewrite stored_dom. apply (inv_dom _ _ Hid). }
  split; [exact Hdb|]. split; [exact Hdd|]. split.
  - intros Hnil. split; by apply (parent_map_empty g).
  - intros Hwf Hsym Hlt.
    rewrite (bfs_run_below g Hwf Hlt), Hb in Hrb. injection Hrb as <-.
    rewrite (dfs_run_below g Hwf Hlt), Hd in Hrd. injection Hrd as <-.
    destruct (bfs_run_forest g Hwf Hsym sb Hb) as [Hfb Hallb].
    destruct (dfs_run_forest g Hwf Hsym sd Hd) as [Hfd Halld].
    destruct (forest_components g sb Hwf Hsym Hib Hfb Hallb) as [Hcb Hkb].
    destruct (forest_components g sd Hwf Hsym Hid Hfd Halld) as [Hcd Hkd].
    split; [exact Hcb|]. split; [exact Hcd|]. split; [exact Hkb|].
    intros K HK. split; eapply has_components_unique; eassumption.
Qed.

(** The scenario graph satisfies the invariants of the data model, stores
    every edge with its mirror and has small descriptors; both searches
    leave one sentinel entry in each of its components. *)
Lemma searches_parent_map_scenario :
  well_formed scenario ∧ symmetric_edges scenario ∧ below_sentinel scenario
  ∧ ∃ pb pd : gmap N Z,
      breadth_first_search scenario ∅ = Some pb
      ∧ depth_first_search scenario ∅ = Some pd
      ∧ one_root_per_component scenario pb
      ∧ one_root_per_component scenario pd
      ∧ has_components scenario (num_sentinel pb).
Proof.
  assert (well_formed scenario) as Hwf
    by (apply (bool_decide_unpack _); vm_compute; exact I).
  assert (symmetric_edges scenario) as Hsym
    by (apply (bool_decide_unpack _); vm_compute; exact I).
  assert (below_sentinel scenario) as Hlt
    by (apply (bool_decide_unpack _); vm_compute; exact I).
  split; [exact Hwf|]. split; [exact Hsym|]. split; [exact Hlt|].
  destruct (searches_parent_map scenario ∅) as (pb & pd & Hb & Hd & _ & _ & _ & Hf).
  destruct (Hf Hwf Hsym Hlt) as (Hrb & Hrd & Hcb & _).
  exists pb, pd. repeat (split; [assumption|]). assumption.
Defined.

(** The bound on the descriptors is needed.  The graph [collision] satisfies
    the invariants of the data model, stores its one edge with the mirror
    and is a single connected component, but its first vertex has the
    descriptor SIZE_MAX: the entry of vertex 0, discovered from it, holds
    the sentinel like the entry of the root, and both searches leave two
    sentinel entries. *)
Lemma collision_two_sentinels :
  well_formed collision ∧ symmetric_edges collision
  ∧ ¬ below_sentinel collision
  ∧ has_components collision 1
  ∧ ∃ pb pd : gmap N Z,
      breadth_first_search collision ∅ = Some pb
      ∧ depth_first_search collision ∅ = Some pd
      ∧ pb !! 0%N = Some (-1) ∧ pb !! SIZE_MAX = Some (-1)
      ∧ num_sentinel pb = 2%nat ∧ num_sentinel pd = 2%nat.
Proof.
  split; [apply (bool_decide_unpack _); vm_compute; exact I|].
  split; [apply (bool_decide_unpack _); vm_compute; exact I|].
  split; [|split].
  - intros H. apply (bool_decide_pack (below_sentinel collision)) in H.
    vm_compute in H. exact H.
  - assert (has_edge collision SIZE_MAX 0) as HM0
      by (unfold has_edge; apply (bool_decide_unpack _); vm_compute; exact I).
    assert (has_edge collision 0 SIZE_MAX) as H0M
      by (unfold has_edge; apply (bool_decide_unpack _); vm_compute; exact I).
    exists [0%N]. split; [|reflexivity]. split; [|split; [|split]].
    + apply NoDup_singleton.
    + intros r ->%list_elem_of_singleton. apply (bool_decide_unpack _).
      vm_compute. exact I.
    + intros v Hv. exists 0%N. split; [apply list_elem_of_here|].
      unfold live, collision in Hv; simpl in Hv.
      rewrite !elem_of_cons, elem_of_nil in Hv.
      destruct Hv as [-> |[-> |[]]]; unfold connected, reachable.
      * split; by apply rtc_once.
      * split; reflexivity.
    + by intros r1 r2 ->%list_elem_of_singleton ->%list_elem_of_singleton _.
  - exists (<[0%N:=(-1)]> (<[SIZE_MAX:=(-1)]> ∅)), (<[0%N:=(-1)]> (<[SIZE_MAX:=(-1)]> ∅)).
    split; [vm_compute; reflexivity|]. split; [vm_compute; reflexivity|].
    repeat split; vm_compute; reflexivity.
Qed.

(** ** The search forest in the parent maps *)

(** X10: on a graph that satisfies the invariants of the data model, edges
    stored in one direction included, the parent maps of both searches are
    forests of edges of the graph: an entry parent[t] = u other than the
    sentinel is an edge from u to t, and the parents of every vertex lead
    in finitely many steps n to a vertex r with the sentinel, from which n
    edges of the graph lead back to the vertex. *)
Theorem search_forest_paths {VP EP : Type} (g : graph VP EP) (p0 : gmap N Z) :
  well_formed g →
  ∃ pb pd : gmap N Z,
    breadth_first_search g p0 = Some pb
    ∧ depth_first_search g p0 = Some pd
    ∧ ∀ p, p = pb ∨ p = pd →
        (∀ t u, p !! t = Some (Z.of_N u) → has_edge g u t)
        ∧ ∀ v, live g v →
            ∃ r n, root_of (S n) p v = Some r ∧ p !! r = Some (-1)
                   ∧ nsteps (has_edge g) n r v.
Proof.
  intros Hwf.
  destruct (searches_return g) as (sb & sd & Hb & Hd & Hrb & Hrd & Hib & Hid).
  exists (parent (stored_state sb)), (parent (stored_state sd)).
  unfold breadth_first_search, depth_first_search. rewrite Hrb, Hrd.
  split; [reflexivity|]. split; [reflexivity|].
  destruct (bfs_scan_inv g Hwf sb Hb) as (_ & Hscanb & Hallb).
  destruct (dfs_scan_inv g Hwf sd Hd) as (_ & Hscand & Halld).
  pose proof (parents_are_edges_run g (outer_ok g) _ sb
                (bfs_comp_spec g Hwf _) (outer_ok_initialize g) Hb) as Heb.
  pose proof (parents_are_edges_run g (dfs_ok g) _ sd
                (dfs_comp_spec g Hwf _) (dfs_ok_initialize g) Hd) as Hed.
  assert (∀ st, parents_are_edges g st → scan_inv g (length (m_vertices g)) st →
                (∀ v, v ∉ vertices_unexplored st) →
                (∀ t u, parent (stored_state st) !! t = Some (Z.of_N u) → has_edge g u t)
                ∧ ∀ v, live g v →
                    ∃ r n, root_of (S n) (parent (stored_state st)) v = Some r
                           ∧ parent (stored_state st) !! r = Some (-1)
                           ∧ nsteps (has_edge g) n r v) as Hgen.
  { intros st He Hscan Hall. simpl.
    assert (∀ t u, (stored <$> parent st) !! t = Some (Z.of_N u) → has_edge g u t) as Hep.
    { intros t u Ht%stored_parent. by apply (forest_edges g st He). }
    split; [exact Hep|].
    intros v Hv.
    destruct (si_tree g _ _ Hscan v Hv (Hall v)) as (r & n & Hroot & _).
    destruct (rooted_stored _ _ _ _ Hroot) as (a & k & j & Hk & _ & _).
    exists a, k. split; [by apply rooted_root_of|].
    split; [by eapply rooted_sentinel|]. by apply (rooted_path g _ v a k Hep). }
  intros p [-> | ->]; by apply Hgen.
Qed.

Lemma search_forest_paths_one_way :
  well_formed one_way
  ∧ ∃ pb pd : gmap N Z,
      breadth_first_search one_way ∅ = Some pb
      ∧ depth_first_search one_way ∅ = Some pd
      ∧ ∀ v, live one_way v →
          ∃ r n, root_of (S n) pb v = Some r ∧ pb !! r = Some (-1)
                 ∧ nsteps (has_edge one_way) n r v.
Proof.
  assert (well_formed one_way) as Hwf
    by (apply (bool_decide_unpack _); vm_compute; exact I).
  split; [exact Hwf|].
  destruct (search_forest_paths one_way ∅ Hwf) as (pb & pd & Hb & Hd & Hall).
  exists pb, pd. split; [exact Hb|]. split; [exact Hd|].
  exact (proj2 (Hall pb (or_introl eq_refl))).
Defined.

(** X11: on a graph that satisfies the invariants of the data model and has
    every descriptor below SIZE_MAX, the root of a vertex in the parent map
    is, for both searches, the first vertex of the iteration order from
    which the vertex is reachable; so the two searches give every vertex the
    same root and hold the sentinel at the same vertices. *)
Theorem search_roots_by_order {VP EP : Type} (g : graph VP EP) (p0 : gmap N Z) :
  well_formed g → below_sentinel g →
  ∃ pb pd : gmap N Z,
    breadth_first_search g p0 = Some pb
    ∧ depth_first_search g p0 = Some pd
    ∧ (∀ v, live g v →
         ∃ r nb nd, root_of (S nb) pb v = Some r ∧ root_of (S nd) pd v = Some r
                    ∧ first_reaching g (length (m_vertices g)) r v)
    ∧ ∀ r, pb !! r = Some (-1) ↔ pd !! r = Some (-1).
Proof.
  intros Hwf Hlt.
  destruct (bfs_run_total g) as (sb & Hb & Hib).
  destruct (dfs_run_total g) as (sd & Hd & Hid).
  exists (parent sb), (parent sd).
  unfold breadth_first_search, depth_first_search.
  rewrite (bfs_run_below g Hwf Hlt), (dfs_run_below g Hwf Hlt), Hb, Hd.
  split; [reflexivity|]. split; [reflexivity|].
  destruct (bfs_scan_inv g Hwf sb Hb) as (_ & Hscanb & Hallb).
  destruct (dfs_scan_inv g Hwf sd Hd) as (_ & Hscand & Halld).
  assert (∀ s1 s2, inv g s1 →
            scan_inv g (length (m_vertices g)) s1 → (∀ v, v ∉ vertices_unexplored s1) →
            scan_inv g (length (m_vertices g)) s2 → (∀ v, v ∉ vertices_unexplored s2) →
            ∀ r, parent s1 !! r = Some (-1) → parent s2 !! r = Some (-1)) as Hsame.
  { intros s1 s2 Hi1 Hscan1 Hall1 Hscan2 Hall2 r Hr.
    assert (live g r) as Hlive by (apply (inv_dom g _ Hi1); by eexists).
    destruct (si_tree g _ _ Hscan1 r Hlive (Hall1 r)) as (r1 & n1 & Hroot1 & _ & _ & Hf1).
    destruct (si_tree g _ _ Hscan2 r Hlive (Hall2 r)) as (r2 & n2 & Hroot2 & _ & _ & Hf2).
    destruct (rooted_unique _ _ _ _ _ _ Hroot1 (rooted_root _ r Hr)) as [-> ->].
    pose proof (first_reaching_unique g _ _ _ _ _ Hf1 Hf2) as <-.
    exact (rooted_sentinel _ _ _ _ Hroot2). }
  split.
  - intros v Hv.
    destruct (si_tree g _ _ Hscanb v Hv (Hallb v)) as (rb & nb & Hrootb & _ & _ & Hfb).
    destruct (si_tree g _ _ Hscand v Hv (Halld v)) as (rd & nd & Hrootd & _ & _ & Hfd).
    rewrite <- (first_reaching_unique g _ _ _ _ _ Hfb Hfd) in Hrootd.
    exists rb, nb, nd. split; [by apply rooted_root_of|].
    split; [by apply rooted_root_of|done].
  - intros r. split; [by apply Hsame|by apply Hsame].
Qed.

Lemma search_roots_by_order_one_way :
  well_formed one_way ∧ below_sentinel one_way
  ∧ ∃ pb pd : gmap N Z,
      breadth_first_search one_way ∅ = Some pb
      ∧ depth_first_search one_way ∅ = Some pd
      ∧ ∀ r, pb !! r = Some (-1) ↔ pd !! r = Some (-1).
Proof.
  assert (well_formed one_way) as Hwf
    by (apply (bool_decide_unpack _); vm_compute; exact I).
  assert (below_sentinel one_way) as Hlt
    by (apply (bool_decide_unpack _); vm_compute; exact I).
  split; [exact Hwf|]. split; [exact Hlt|].
  destruct (search_roots_by_order one_way ∅ Hwf Hlt) as (pb & pd & Hb & Hd & _ & Hsame).
  exists pb, pd. split; [exact Hb|]. split; [exact Hd|]. exact Hsame.
Defined.

(** X12: on a graph that satisfies the invariants of the data model and has
    every descriptor below SIZE_MAX, the edges that breadth_first_search has
    marked explored when it returns are exactly the edges (u, t) with
    parent[t] = u: every other edge of the graph is still in the set of
    unexplored edges. *)
Theorem bfs_marks_tree_edges {VP EP : Type} (g : graph VP EP) :
  well_formed g → below_sentinel g →
  ∃ st, bfs_run g = Some st
        ∧ ∀ u t, has_edge g u t →
            ((u, t) ∈ edges_unexplored st ↔ parent st !! t ≠ Some (Z.of_N u)).
Proof.
  intros Hwf Hlt. destruct (bfs_run_total g) as (st & Hrun & Hi).
  exists st. rewrite (bfs_run_below g Hwf Hlt). split; [exact Hrun|].
  apply (bfs_run_rule g Hwf (unexplored_non_tree g) st
           (unexplored_non_tree_rule g)); [| |exact Hrun].
  - intros s r [Hs He]. split; [|exact He].
    intros v [Hv _]%elem_of_difference. by apply Hs.
  - split.
    + apply (si_sentinel g _ _ (scan_inv_initialize g)).
    + intros u t Hut. rewrite initialize_edges, elem_of_list_to_set, initialize_parent.
      split; [|done]. intros _. case_decide; [|done]. intros [= ?]. lia.
Qed.

Lemma bfs_marks_tree_edges_scenario :
  well_formed scenario ∧ below_sentinel scenario
  ∧ ∃ st, bfs_run scenario = Some st
          ∧ ∀ u t, has_edge scenario u t →
              ((u, t) ∈ edges_unexplored st ↔ parent st !! t ≠ Some (Z.of_N u)).
Proof.
  assert (well_formed scenario) as Hwf
    by (apply (bool_decide_unpack _); vm_compute; exact I).
  assert (below_sentinel scenario) as Hlt
    by (apply (bool_decide_unpack _); vm_compute; exact I).
  split; [exact Hwf|]. split; [exact Hlt|].
  exact (bfs_marks_tree_edges scenario Hwf Hlt).
Defined.

(** X13: on a graph that satisfies the invariants of the data model,
    depth_first_search returns with every edge and every vertex marked
    explored. *)
Theorem dfs_marks_all_edges {VP EP : Type} (g : graph VP EP) :
  well_formed g →
  ∃ st, dfs_run g = Some st
        ∧ edges_unexplored st = ∅ ∧ vertices_unexplored st = ∅.
Proof.
  intros Hwf. destruct (dfs_run_total g) as (st & Hrun & Hi).
  exists (stored_state st). rewrite dfs_run_stored, Hrun. split; [reflexivity|].
  simpl.
  destruct (dfs_scan_inv g Hwf st Hrun) as ((_ & _ & Hc & Hsub) & _ & Hall).
  split; apply set_eq; intros d; split; try (by intros ?%elem_of_empty).
  - intros Hd. exfalso. destruct d as [u t].
    assert (has_edge g u t) as Hut.
    { apply Hsub in Hd. by rewrite initialize_edges, elem_of_list_to_set in Hd. }
    destruct (wf_edge_listed g Hwf u t Hut) as (x & _ & Hx & <- & _).
    by destruct (Hc (m_descriptor x) (vertex_live g x Hx) (Hall _) t Hut).
  - intros Hd. by destruct (Hall d).
Qed.

Lemma dfs_marks_all_edges_scenario :
  well_formed scenario
  ∧ ∃ st, dfs_run scenario = Some st
          ∧ edges_unexplored st = ∅ ∧ vertices_unexplored st = ∅.
Proof.
  assert (well_formed scenario) as Hwf
    by (apply (bool_decide_unpack _); vm_compute; exact I).
  split; [exact Hwf|]. exact (dfs_marks_all_edges scenario Hwf).
Defined.

(** X14: on a graph that satisfies the invariants of the data model, the
    parent map of breadth_first_search describes shortest paths: the parents
    of every vertex lead in n steps to its root r, n edges of the graph lead
    from r to the vertex, and no path of the graph from r to the vertex has
    fewer than n edges. *)
Theorem bfs_shortest_paths {VP EP : Type} (g : graph VP EP) (p0 : gmap N Z) :
  well_formed g →
  ∃ pb : gmap N Z,
    breadth_first_search g p0 = Some pb
    ∧ ∀ v, live g v →
        ∃ r n, root_of (S n) pb v = Some r
               ∧ nsteps (has_edge g) n r v
               ∧ ∀ m, nsteps (has_edge g) m r v → (n ≤ m)%nat.
Proof.
  intros Hwf.
  destruct (searches_return g) as (sb & _ & Hb & _ & Hrb & _ & Hib & _).
  exists (parent (stored_state sb)). unfold breadth_first_search. rewrite Hrb.
  split; [reflexivity|]. simpl.
  destruct (bfs_shortest g Hwf sb Hb) as [Hshort Hscan].
  destruct (bfs_scan_inv g Hwf sb Hb) as (_ & _ & Hall).
  pose proof (forest_edges g sb
                (parents_are_edges_run g (outer_ok g) _ sb
                   (bfs_comp_spec g Hwf _) (outer_ok_initialize g) Hb)) as He.
  intros v Hv.
  destruct (si_tree g _ _ Hscan v Hv (Hall v)) as (r & n & Hroot & _).
  destruct (rooted_stored _ _ _ _ Hroot) as (a & k & j & Hk & Hj & ->).
  exists a, k. split; [by apply rooted_root_of|]. split.
  - apply (rooted_path g (stored <$> parent sb)); [|done].
    intros t u Ht%stored_parent. by apply He.
  - intros m Hm.
    pose proof (rooted_path g _ _ _ _ He Hj) as Hra.
    pose proof (Hshort v Hv (Hall v) r _ Hroot _ (nsteps_trans _ _ _ _ _ Hra Hm)).
    lia.
Qed.

Lemma bfs_shortest_paths_one_way :
  well_formed one_way
  ∧ ∃ pb : gmap N Z,
      breadth_first_search one_way ∅ = Some pb
      ∧ ∀ v, live one_way v →
          ∃ r n, root_of (S n) pb v = Some r
                 ∧ nsteps (has_edge one_way) n r v
                 ∧ ∀ m, nsteps (has_edge one_way) m r v → (n ≤ m)%nat.
Proof.
  assert (well_formed one_way) as Hwf
    by (apply (bool_decide_unpack _); vm_compute; exact I).
  split; [exact Hwf|]. exact (bfs_shortest_paths one_way ∅ Hwf).
Defined.
